(** * collections-js: the binary heap engine of [src/collections/heap.class.ts]

    A shallow embedding of the heap primitives ([_siftDown], [_siftUp],
    [_heapify], [_replace]), of the [Heap] class, of the [heapq] facade and of
    the selection algorithms [_nsmallest] / [_nlargest], followed by the
    properties the specification states about them.

    Conventions of the embedding:
    - a JavaScript array is a [list T]; a read [heap[i]] is the lookup
      [heap !! i] ([None] is JavaScript's [undefined]); a write [heap[i] = x]
      inside the sifting loops is [<[i:=x]> heap] (the loops only write inside
      the array), the write of [_replace], which may hit an empty array, is
      [Array_set];
    - a comparator [(a, b) => number] is a function [T -> T -> Z];
    - array indices are [nat]; the count [n] of the selection functions and
      the index of [peek] are caller supplied numbers and are [Z];
    - [T | undefined] is [option T]. *)

From Stdlib Require Import ZArith Lia.
From stdpp Require Import base list sorting gmap.
From Equations Require Import Equations.

(** ** JavaScript arrays *)

Section Arrays.
Context {T : Type}.

(** [heap[i] = x]: inside the array an update, at the end an append (that is
    how [heap[0] = item] turns the empty array into [[item]]). Writes past the
    end would leave holes and do not occur in this code. *)
Definition Array_set (heap : list T) (i : nat) (x : T) : list T :=
  if decide (i = length heap) then heap ++ [x] else <[i:=x]> heap.

(** [arr.push(x)] *)
Definition Array_push (arr : list T) (x : T) : list T := arr ++ [x].

(** [arr.pop()]: the removed last element and the shortened array. *)
Definition Array_pop (arr : list T) : option T * list T :=
  (last arr, take (length arr - 1) arr).

(** [arr.slice(0, n)] for an integer [n]; a negative [n] counts from the end. *)
Definition Array_slice0 (n : Z) (arr : list T) : list T :=
  if (n <? 0)%Z then take (length arr - Z.to_nat (- n)) arr
  else take (Z.to_nat n) arr.

(** [arr.sort(comparator)]. The language guarantees a stable sort; for a
    consistent comparator every stable sort returns the same array, and this
    is the insertion sort that computes it. *)
Fixpoint sort_insert (comparator : T → T → Z) (x : T) (sorted : list T) : list T :=
  match sorted with
  | [] => [x]
  | y :: rest =>
      if (comparator x y <=? 0)%Z then x :: sorted
      else y :: sort_insert comparator x rest
  end.

Definition Array_sort (comparator : T → T → Z) (arr : list T) : list T :=
  foldr (sort_insert comparator) [] arr.

End Arrays.

(** ** The heap primitives *)

Section Primitives.
Context {T : Type} (comparator : T → T → Z).

(** [comparator(heap[i], heap[j]) < 0], for two positions inside the array
    (the loop compares a child only after [child < length], and every caller
    passes the length of the array as [length]). *)
Definition lessAt (heap : list T) (i j : nat) : bool :=
  match heap !! i, heap !! j with
  | Some a, Some b => (comparator a b <? 0)%Z
  | _, _ => false
  end.

(** The body of the [_siftDown] loop up to the choice of [smallestIndex]. *)
Definition smallestIndex (heap : list T) (index length : nat) : nat :=
  let left := 2 * index + 1 in
  let right := left + 1 in
  let smallestIndex := index in
  let smallestIndex :=
    if (left <? length) && lessAt heap left smallestIndex then left else smallestIndex in
  let smallestIndex :=
    if (right <? length) && lessAt heap right smallestIndex then right else smallestIndex in
  smallestIndex.

(** The [while (index < length)] loop of [_siftDown]; [item] is the constant
    read before the loop. The index grows at every turn. *)
Equations siftDown_loop (item : T) (heap : list T) (index length : nat) : list T
  by wf (length - index) lt :=
  siftDown_loop item heap index length with decide (index < length) := {
    | right _ => heap
    | left _ with decide (smallestIndex heap index length = index) := {
        | left _ => heap
        | right _ with heap !! smallestIndex heap index length := {
            | Some child =>
                siftDown_loop item
                  (<[smallestIndex heap index length := item]> (<[index := child]> heap))
                  (smallestIndex heap index length) length
            | None => heap } } }.
Next Obligation.
  intros. unfold smallestIndex in *.
  repeat match goal with
         | |- context [if ?b then _ else _] => destruct b eqn:?
         | H : context [if ?b then _ else _] |- _ => destruct b eqn:?
         | H : _ && _ = true |- _ => apply andb_true_iff in H as [?%Nat.ltb_lt ?]
         end; lia.
Qed.

(** [_siftDown]: with [index] outside the array there is no item to move and
    no turn of the loop, since [length] is the length of the array. *)
Definition _siftDown (heap : list T) (index length : nat) : list T :=
  match heap !! index with
  | Some item => siftDown_loop item heap index length
  | None => heap
  end.

(** The [while (index > 0)] loop of [_siftUp] with its final write. The
    parent of a position inside the array is inside the array. *)
Equations siftUp_loop (item : T) (heap : list T) (index : nat) : list T
  by wf index lt :=
  siftUp_loop item heap index with decide (0 < index) := {
    | right _ => <[index := item]> heap
    | left _ with heap !! ((index - 1) / 2) := {
        | Some parent =>
            if (0 <=? comparator item parent)%Z then <[index := item]> heap
            else siftUp_loop item (<[index := parent]> heap) ((index - 1) / 2)
        | None => <[index := item]> heap } }.
Next Obligation.
  intros.
  assert (Hlt : (index - 1) / 2 < index) by (apply Nat.Div0.div_lt_upper_bound; lia).
  exact Hlt.
Qed.

Definition _siftUp (heap : list T) (index : nat) : list T :=
  match heap !! index with
  | Some item => siftUp_loop item heap index
  | None => heap
  end.

(** [for (i = floor(length / 2) - 1; i >= 0; i--)]: [k] is [i + 1]. *)
Fixpoint heapify_loop (k : nat) (items : list T) : list T :=
  match k with
  | 0 => items
  | S i => heapify_loop i (_siftDown items i (length items))
  end.

Definition _heapify (items : list T) : list T :=
  heapify_loop (length items / 2) items.

(** [_replace] returns the replaced root and the array it leaves. *)
Definition _replace (heap : list T) (item : T) : option T * list T :=
  let returnitem := if decide (length heap ≠ 0) then heap !! 0 else None in
  let heap := Array_set heap 0 item in
  (returnitem, _siftDown heap 0 (length heap)).

End Primitives.

(** ** The selection algorithms *)

(** What a call leaves behind: a value, or the [TypeError] of reading a
    property of [undefined] (the only way this code can throw). *)
Inductive completion (A : Type) : Type :=
  | Normal (value : A)
  | TypeError.
Arguments Normal {A} value.
Arguments TypeError {A}.

(** An iterable handed to the selection functions: [len] knows the length of
    an array (or of anything with a numeric [length] or [size]) and answers
    [undefined] for any other iterable, such as a generator or the entries of
    a [Map]. *)
Inductive Iterable (T : Type) : Type :=
  | ArrayLike (items : list T)
  | Generic (items : list T).
Arguments ArrayLike {T} items.
Arguments Generic {T} items.

Definition iterate {T} (iterable : Iterable T) : list T :=
  match iterable with ArrayLike items | Generic items => items end.

Definition len {T} (iterable : Iterable T) : option nat :=
  match iterable with
  | ArrayLike items => Some (length items)
  | Generic _ => None
  end.

(** [length != undefined && n >= length] *)
Definition covers (n : Z) (length : option nat) : bool :=
  match length with
  | Some length => (Z.of_nat length <=? n)%Z
  | None => false
  end.

Section Selection.
Context {T : Type} (comparator : T → T → Z).

(** [(a, b) => comparator(a[0], b[0]) || a[1] - b[1]] *)
Definition heapComparator (a b : T * Z) : Z :=
  let c := comparator a.1 b.1 in
  if (c =? 0)%Z then (a.2 - b.2)%Z else c.

(** [(a, b) => -cmp(a, b)] *)
Definition negated {A : Type} (cmp : A → A → Z) (a b : A) : Z := (- cmp a b)%Z.

(** The scan of the [n === 1] branch of [_nsmallest]. *)
Fixpoint scan_min (min : T) (it : list T) : T :=
  match it with
  | [] => min
  | value :: it => scan_min (if (comparator value min <? 0)%Z then value else min) it
  end.

(** The scan of the [n === 1] branch of [_nlargest]. *)
Fixpoint scan_max (max : T) (it : list T) : T :=
  match it with
  | [] => max
  | value :: it => scan_max (if (0 <? comparator value max)%Z then value else max) it
  end.

(** [for (; i < n; i++)]: moves up to [n] items of the iterator into [result],
    each with its position; returns the result, the counter and the rest of
    the iterator. *)
Fixpoint seed (n : Z) (it : list T) (result : list (T * Z)) (i : Z)
  : list (T * Z) * Z * list T :=
  match it with
  | [] => (result, i, [])
  | value :: rest =>
      if (i <? n)%Z then seed n rest (Array_push result (value, i)) (i + 1)%Z
      else (result, i, it)
  end.

(** [top = result[0][0]] *)
Definition top_of (result : list (T * Z)) : completion T :=
  match result !! 0 with
  | Some entry => Normal entry.1
  | None => TypeError
  end.

(** The [while (true)] loop of [_nsmallest] over the rest of the iterator. *)
Fixpoint scan_smallest (it : list T) (result : list (T * Z)) (top : T) (i : Z)
  : completion (list (T * Z)) :=
  match it with
  | [] => Normal result
  | value :: it =>
      if (comparator value top <? 0)%Z then
        let result := (_replace (negated heapComparator) result (value, i)).2 in
        match top_of result with
        | Normal top => scan_smallest it result top (i + 1)%Z
        | TypeError => TypeError
        end
      else scan_smallest it result top i
  end.

(** The [while (true)] loop of [_nlargest]. *)
Fixpoint scan_largest (it : list T) (result : list (T * Z)) (top : T) (i : Z)
  : completion (list (T * Z)) :=
  match it with
  | [] => Normal result
  | value :: it =>
      if (0 <? comparator value top)%Z then
        let result := (_replace heapComparator result (value, i)).2 in
        match top_of result with
        | Normal top => scan_largest it result top (i + 1)%Z
        | TypeError => TypeError
        end
      else scan_largest it result top i
  end.

Definition _nsmallest (n : Z) (iterable : Iterable T) : completion (list T) :=
  if (n <=? 0)%Z then Normal []
  else
    let length := len iterable in
    if covers n length then
      let arr := Array_sort comparator (iterate iterable) in
      Normal (Array_slice0 n arr)
    else
      let it := iterate iterable in
      if (n =? 1)%Z then
        match it with
        | [] => Normal []
        | value :: it => Normal [scan_min value it]
        end
      else
        let '(result, i, it) := seed n it [] 0%Z in
        if (i =? 0)%Z then Normal []
        else
          let result := _heapify (negated heapComparator) result in
          match top_of result with
          | TypeError => TypeError
          | Normal top =>
              match scan_smallest it result top i with
              | TypeError => TypeError
              | Normal result => Normal (Array_sort heapComparator result).*1
              end
          end.

Definition _nlargest (n : Z) (iterable : Iterable T) : completion (list T) :=
  if (n <=? 0)%Z then Normal []
  else
    let length := len iterable in
    if covers n length then
      let arr := Array_sort (negated comparator) (iterate iterable) in
      Normal (Array_slice0 n arr)
    else
      let it := iterate iterable in
      if (n =? 1)%Z then
        match it with
        | [] => Normal []
        | value :: it => Normal [scan_max value it]
        end
      else
        let '(result, i, it) := seed n it [] 0%Z in
        if (i =? 0)%Z then Normal []
        else
          let result := _heapify heapComparator result in
          match top_of result with
          | TypeError => TypeError
          | Normal top =>
              match scan_largest it result top i with
              | TypeError => TypeError
              | Normal result =>
                  Normal (Array_sort (negated heapComparator) result).*1
              end
          end.

End Selection.

(** ** The [Heap] class

    The object state is its [_data] array; the comparator never changes. A
    method takes the array and returns its result and the array it leaves. *)

Section HeapClass.
Context {T : Type} (_comparator : T → T → Z).

(** [heapify(items?)] *)
Definition Heap_heapify (items : option (list T)) (_data : list T) : list T :=
  let _data := match items with Some items => _data ++ items | None => _data end in
  _heapify _comparator _data.

(** [new Heap(iterable?, comparator)]: [None] is the call with a comparator
    only. *)
Definition Heap_new (iterable : option (list T)) : list T :=
  match iterable with
  | Some items => Heap_heapify None items
  | None => []
  end.

Definition Heap_size (_data : list T) : nat := length _data.

Definition Heap_isEmpty (_data : list T) : bool := Heap_size _data =? 0.

Definition Heap_push (item : T) (_data : list T) : list T :=
  let _data := Array_push _data item in
  _siftUp _comparator _data (length _data - 1).

Definition Heap_pop (_data : list T) : option T * list T :=
  if Heap_isEmpty _data then (None, _data)
  else
    let root := _data !! 0 in
    let '(last, _data) := Array_pop _data in
    if negb (Heap_isEmpty _data) then
      match last with
      | Some last =>
          let _data := Array_set _data 0 last in
          (root, _siftDown _comparator _data 0 (length _data))
      | None => (root, _data)
      end
    else (root, _data).

Definition Heap_peek (index : Z) (_data : list T) : option T :=
  if (index <? 0)%Z || (Z.of_nat (length _data) <=? index)%Z then None
  else _data !! Z.to_nat index.

Definition Heap_replace (item : T) (_data : list T) : option T * list T :=
  _replace _comparator _data item.

(** [this._comparator(item, this._data[0]) < 0] *)
Definition below_root (item : T) (_data : list T) : bool :=
  match _data !! 0 with
  | Some root => (_comparator item root <? 0)%Z
  | None => false
  end.

Definition Heap_pushPop (item : T) (_data : list T) : option T * list T :=
  if Heap_isEmpty _data || below_root item _data then (Some item, _data)
  else
    let root := _data !! 0 in
    let _data := Array_set _data 0 item in
    (root, _siftDown _comparator _data 0 (length _data)).

Definition Heap_nsmallest (n : Z) (_data : list T) : completion (list T) :=
  _nsmallest _comparator n (ArrayLike _data).

Definition Heap_nlargest (n : Z) (_data : list T) : completion (list T) :=
  _nlargest _comparator n (ArrayLike _data).

(** The mutating calls of the class, to speak about call sequences. *)
Inductive call : Type :=
  | CallPush (item : T)
  | CallPop
  | CallReplace (item : T)
  | CallPushPop (item : T)
  | CallHeapify (items : option (list T)).

Definition perform (_data : list T) (c : call) : list T :=
  match c with
  | CallPush item => Heap_push item _data
  | CallPop => (Heap_pop _data).2
  | CallReplace item => (Heap_replace item _data).2
  | CallPushPop item => (Heap_pushPop item _data).2
  | CallHeapify items => Heap_heapify items _data
  end.

Definition perform_all (_data : list T) (calls : list call) : list T :=
  foldl perform _data calls.

End HeapClass.

(** ** The [heapq] facade over caller-owned arrays *)

Section Heapq.
Context {T : Type}.

Definition heapq_heapify (arr : list T) (comparator : T → T → Z) : list T :=
  _heapify comparator arr.

Definition heapq_heapPush (arr : list T) (item : T) (comparator : T → T → Z) : list T :=
  let arr := Array_push arr item in
  _siftUp comparator arr (length arr - 1).

Definition heapq_heapPop (arr : list T) (comparator : T → T → Z) : option T * list T :=
  if length arr =? 0 then (None, arr)
  else
    let '(last, arr) := Array_pop arr in
    if 0 <? length arr then
      match last with
      | Some last' =>
          let returnitem := arr !! 0 in
          let arr := Array_set arr 0 last' in
          (returnitem, _siftDown comparator arr 0 (length arr))
      | None => (last, arr)
      end
    else (last, arr).

(** [comparator(arr[0], item) < 0] *)
Definition root_below (arr : list T) (item : T) (comparator : T → T → Z) : bool :=
  match arr !! 0 with
  | Some root => (comparator root item <? 0)%Z
  | None => false
  end.

Definition heapq_heapPushPop (arr : list T) (item : T) (comparator : T → T → Z)
  : option T * list T :=
  if (0 <? length arr) && root_below arr item comparator then
    let returnitem := arr !! 0 in
    let arr := Array_set arr 0 item in
    (returnitem, _siftDown comparator arr 0 (length arr))
  else (Some item, arr).

Definition heapq_heapReplace (arr : list T) (item : T) (comparator : T → T → Z)
  : option T * list T :=
  _replace comparator arr item.

(** [(a, b) => key(a) - key(b)] *)
Definition keyComparator (key : T → Z) (a b : T) : Z := (key a - key b)%Z.

Definition heapq_nsmallest (n : Z) (iterable : Iterable T) (key : T → Z)
  : completion (list T) :=
  _nsmallest (keyComparator key) n iterable.

Definition heapq_nlargest (n : Z) (iterable : Iterable T) (key : T → Z)
  : completion (list T) :=
  _nlargest (keyComparator key) n iterable.

End Heapq.

(** [defaultComparator] of [utils/comparators], on numbers. *)
Definition defaultComparator (a b : Z) : Z :=
  if (a <? b)%Z then (-1)%Z else if (b <? a)%Z then 1%Z else 0%Z.

(** Elements with a key and a serial number, compared by key only (the
    comparator [(a, b) => a[0] - b[0]] of the tests). *)
Definition byKey : Z * Z → Z * Z → Z := keyComparator fst.

(** ** The heap object among other arrays

    To speak about what a method leaves untouched, arrays live in a store of
    locations. [this] is the location of the backing array [_data] of a
    heap; [Array.from], a spread, [slice], [map] and an array literal
    allocate a new location; [sort], [push], [_heapify] and [_replace] update
    the array at the location they are given. The iterator of an array reads
    the array as it is at the time of each [next]. *)

Section Store.
Context {T : Type} (_comparator : T → T → Z).

(** An array of elements, or the working array of [[value, position]]
    pairs of a selection. *)
Inductive cell : Type :=
  | Items (items : list T)
  | Entries (entries : list (T * Z)).

Definition items_of (σ : gmap nat cell) (l : nat) : list T :=
  match σ !! l with Some (Items items) => items | _ => [] end.

Definition entries_of (σ : gmap nat cell) (l : nat) : list (T * Z) :=
  match σ !! l with Some (Entries entries) => entries | _ => [] end.

Definition alloc (c : cell) (σ : gmap nat cell) : nat * gmap nat cell :=
  let l := fresh (dom σ) in (l, <[l := c]> σ).

Definition update_items (f : list T → list T) (l : nat) (σ : gmap nat cell)
  : gmap nat cell :=
  <[l := Items (f (items_of σ l))]> σ.

Definition update_entries (f : list (T * Z) → list (T * Z)) (l : nat) (σ : gmap nat cell)
  : gmap nat cell :=
  <[l := Entries (f (entries_of σ l))]> σ.

(** [sort()]: [return [...this._data].sort(this._comparator)] *)
Definition sort_method (this : nat) (σ : gmap nat cell) : nat * gmap nat cell :=
  let '(copy, σ) := alloc (Items (items_of σ this)) σ in
  (copy, update_items (Array_sort _comparator) copy σ).

(** The first loop of a selection, reading the array at [this] from [pos] on
    and pushing onto the array at [result]; it takes at most [n] turns. *)
Fixpoint seed_loop (turns : nat) (n : Z) (this pos result : nat) (i : Z)
    (σ : gmap nat cell) : gmap nat cell * nat * Z :=
  match turns with
  | 0 => (σ, pos, i)
  | S turns =>
      if (i <? n)%Z then
        match items_of σ this !! pos with
        | None => (σ, pos, i)
        | Some value =>
            seed_loop turns n this (S pos) result (i + 1)%Z
              (update_entries (λ r, Array_push r (value, i)) result σ)
        end
      else (σ, pos, i)
  end.

(** The second loop of a selection: [accepts value top] is the test of the
    loop and [cmp] the comparator handed to [_replace]. The loop ends when
    the iterator is done; [None] stands for a run that has not ended after
    [fuel] turns. *)
Fixpoint scan_loop (accepts : T → T → bool) (cmp : T * Z → T * Z → Z) (fuel : nat)
    (this pos result : nat) (top : T) (i : Z) (σ : gmap nat cell)
  : option (completion (gmap nat cell)) :=
  match fuel with
  | 0 => None
  | S fuel =>
      match items_of σ this !! pos with
      | None => Some (Normal σ)
      | Some value =>
          if accepts value top then
            let σ := update_entries (λ r, (_replace cmp r (value, i)).2) result σ in
            match top_of (entries_of σ result) with
            | Normal top => scan_loop accepts cmp fuel this (S pos) result top (i + 1)%Z σ
            | TypeError => Some TypeError
            end
          else scan_loop accepts cmp fuel this (S pos) result top i σ
      end
  end.

(** [nsmallest(n)]: [_nsmallest(n, this._data, this._comparator)] *)
Definition nsmallest_method (n : Z) (this : nat) (σ : gmap nat cell)
  : option (completion (nat * gmap nat cell)) :=
  if (n <=? 0)%Z then Some (Normal (alloc (Items []) σ))
  else
    let length := length (items_of σ this) in
    if (Z.of_nat length <=? n)%Z then
      let '(arr, σ) := alloc (Items (items_of σ this)) σ in
      let σ := update_items (Array_sort _comparator) arr σ in
      Some (Normal (alloc (Items (Array_slice0 n (items_of σ arr))) σ))
    else if (n =? 1)%Z then
      match items_of σ this with
      | [] => Some (Normal (alloc (Items []) σ))
      | value :: it => Some (Normal (alloc (Items [scan_min _comparator value it]) σ))
      end
    else
      let '(result, σ) := alloc (Entries []) σ in
      let '(σ, pos, i) := seed_loop (Z.to_nat n) n this 0 result 0%Z σ in
      if (i =? 0)%Z then Some (Normal (alloc (Items []) σ))
      else
        let σ := update_entries (_heapify (negated (heapComparator _comparator))) result σ in
        match top_of (entries_of σ result) with
        | TypeError => Some TypeError
        | Normal top =>
            match scan_loop (λ value top, (_comparator value top <? 0)%Z)
                    (negated (heapComparator _comparator)) (S length)
                    this pos result top i σ with
            | None => None
            | Some TypeError => Some TypeError
            | Some (Normal σ) =>
                let σ := update_entries (Array_sort (heapComparator _comparator)) result σ in
                Some (Normal (alloc (Items (entries_of σ result).*1) σ))
            end
        end.

(** [nlargest(n)]: [_nlargest(n, this._data, this._comparator)] *)
Definition nlargest_method (n : Z) (this : nat) (σ : gmap nat cell)
  : option (completion (nat * gmap nat cell)) :=
  if (n <=? 0)%Z then Some (Normal (alloc (Items []) σ))
  else
    let length := length (items_of σ this) in
    if (Z.of_nat length <=? n)%Z then
      let '(arr, σ) := alloc (Items (items_of σ this)) σ in
      let σ := update_items (Array_sort (negated _comparator)) arr σ in
      Some (Normal (alloc (Items (Array_slice0 n (items_of σ arr))) σ))
    else if (n =? 1)%Z then
      match items_of σ this with
      | [] => Some (Normal (alloc (Items []) σ))
      | value :: it => Some (Normal (alloc (Items [scan_max _comparator value it]) σ))
      end
    else
      let '(result, σ) := alloc (Entries []) σ in
      let '(σ, pos, i) := seed_loop (Z.to_nat n) n this 0 result 0%Z σ in
      if (i =? 0)%Z then Some (Normal (alloc (Items []) σ))
      else
        let σ := update_entries (_heapify (heapComparator _comparator)) result σ in
        match top_of (entries_of σ result) with
        | TypeError => Some TypeError
        | Normal top =>
            match scan_loop (λ value top, (0 <? _comparator value top)%Z)
                    (heapComparator _comparator) (S length)
                    this pos result top i σ with
            | None => None
            | Some TypeError => Some TypeError
            | Some (Normal σ) =>
                let σ :=
                  update_entries (Array_sort (negated (heapComparator _comparator))) result σ in
                Some (Normal (alloc (Items (entries_of σ result).*1) σ))
            end
        end.

(** The second loop over a list of values still to be read, for any test
    and comparator. *)
Fixpoint scan_held (accepts : T → T → bool) (cmp : T * Z → T * Z → Z) (it : list T)
    (result : list (T * Z)) (top : T) (i : Z) : completion (list (T * Z)) :=
  match it with
  | [] => Normal result
  | value :: it =>
      if accepts value top then
        let result := (_replace cmp result (value, i)).2 in
        match top_of result with
        | Normal top => scan_held accepts cmp it result top (i + 1)%Z
        | TypeError => TypeError
        end
      else scan_held accepts cmp it result top i
  end.

End Store.

(** ** The rest of the [Heap] class *)

Section HeapClassRest.
Context {T : Type} (_comparator : T → T → Z).

(** [clone()]: [new Heap([...this._data], this._comparator)], the array of
    the new heap. *)
Definition Heap_clone (_data : list T) : list T :=
  Heap_new _comparator (Some _data).

(** [clear()]: [this._data.length = 0] *)
Definition Heap_clear (_data : list T) : list T := [].

(** [toArray()]: [[...this._data]] *)
Definition Heap_toArray (_data : list T) : list T := _data.

End HeapClassRest.

(** ** JavaScript [Map]s

    A [Map] keeps its entries in insertion order: setting a key that is
    present changes its value in place, setting a new key appends an entry,
    deleting removes the entry. Keys are compared by the equality of [K]. *)

Section JsMap.
Context {K V : Type} `{EqDecision K}.

(** [map.get(key)] *)
Fixpoint Map_get (map : list (K * V)) (key : K) : option V :=
  match map with
  | [] => None
  | (k, v) :: rest => if decide (key = k) then Some v else Map_get rest key
  end.

(** [map.has(key)] *)
Definition Map_has (map : list (K * V)) (key : K) : bool :=
  match Map_get map key with Some _ => true | None => false end.

(** [map.set(key, value)] *)
Fixpoint Map_set (map : list (K * V)) (key : K) (value : V) : list (K * V) :=
  match map with
  | [] => [(key, value)]
  | (k, v) :: rest =>
      if decide (key = k) then (k, value) :: rest else (k, v) :: Map_set rest key value
  end.

(** [map.delete(key)]: the map it leaves (the call returns [map.has(key)]). *)
Fixpoint Map_delete (map : list (K * V)) (key : K) : list (K * V) :=
  match map with
  | [] => []
  | (k, v) :: rest => if decide (key = k) then rest else (k, v) :: Map_delete rest key
  end.

End JsMap.

(** ** The [DefaultDict] class

    The state is the [_data] map; [factory] is the value the default factory
    returns (a factory without effects). *)

Module DefaultDict.
Section WithTypes.
Context {K V : Type} `{EqDecision K} (factory : V).

Definition size (_data : list (K * V)) : nat := length _data.

Definition isEmpty (_data : list (K * V)) : bool := length _data =? 0.

(** [get(key)]: the value returned and the map left. *)
Definition get (key : K) (_data : list (K * V)) : option V * list (K * V) :=
  let _data := if negb (Map_has _data key) then Map_set _data key factory else _data in
  (Map_get _data key, _data).

Definition set (key : K) (value : V) (_data : list (K * V)) : list (K * V) :=
  Map_set _data key value.

Definition delete (key : K) (_data : list (K * V)) : bool * list (K * V) :=
  (Map_has _data key, Map_delete _data key).

Definition has (key : K) (_data : list (K * V)) : bool := Map_has _data key.


Definition toArray (_data : list (K * V)) : list (K * V) := _data.

Definition clear (_data : list (K * V)) : list (K * V) := [].

End WithTypes.
End DefaultDict.

(** ** The [Counter] class *)

Module Counter.
Section WithKey.
Context {K : Type} `{EqDecision K}.

Record t : Type := { _data : list (K * Z); _total : Z }.

(** [x || d] for a count [x] that may be [undefined]: [0] counts as absent. *)
Definition or_else (x : option Z) (d : Z) : Z :=
  match x with
  | Some count => if (count =? 0)%Z then d else count
  | None => d
  end.

Definition empty : t := {| _data := []; _total := 0 |}.

Definition size (this : t) : nat := length (_data this).


Definition isEmpty (this : t) : bool := length (_data this) =? 0.

(** [add(key, increment = 1)] *)
Definition add (key : K) (increment : Z) (this : t) : t :=
  let currentCount := or_else (Map_get (_data this) key) 0 in
  {| _data := Map_set (_data this) key (currentCount + increment)%Z;
     _total := (_total this + increment)%Z |}.

(** [get(key, defaultValue = 0)] *)
Definition get (key : K) (defaultValue : Z) (this : t) : Z :=
  or_else (Map_get (_data this) key) defaultValue.

Definition has (item : K) (this : t) : bool := Map_has (_data this) item.

(** The argument of [update] and of the constructor: a [Map] of counts or
    any other iterable of keys. *)
Inductive source : Type :=
  | OfMap (map : list (K * Z))
  | OfItems (items : list K).

(** [_countElements(iterable)] *)
Definition _countElements (iterable : list K) (this : t) : t :=
  foldl (λ this item,
           {| _data := Map_set (_data this) item
                         (or_else (Map_get (_data this) item) 0 + 1)%Z;
              _total := (_total this + 1)%Z |})
        this iterable.

(** [update(other)] *)
Definition update (other : source) (this : t) : t :=
  match other with
  | OfMap map =>
      foldl (λ this entry,
               add entry.1 (or_else (Map_get (_data this) entry.1) 0 + entry.2)%Z this)
            this map
  | OfItems items => _countElements items this
  end.

(** [new Counter(iterable?)] *)
Definition new (iterable : option source) : t :=
  match iterable with
  | Some other => update other empty
  | None => empty
  end.

(** The argument of [subtract]: another counter or an iterable of keys. *)
Inductive subtrahend : Type :=
  | OfCounter (other : t)
  | OfKeys (keys : list K).

(** [subtract(iterable?)] *)
Definition subtract (iterable : option subtrahend) (this : t) : t :=
  match iterable with
  | None => this
  | Some (OfCounter other) =>
      foldl (λ this entry,
               {| _data := Map_set (_data this) entry.1
                             (or_else (Map_get (_data this) entry.1) 0 - entry.2)%Z;
                  _total := (_total this - entry.2)%Z |})
            this (_data other)
  | Some (OfKeys keys) =>
      foldl (λ this key,
               {| _data := Map_set (_data this) key
                             (or_else (Map_get (_data this) key) 0 - 1)%Z;
                  _total := (_total this - 1)%Z |})
            this keys
  end.

(** [delete(key)] *)
Definition delete (key : K) (this : t) : bool * t :=
  match Map_get (_data this) key with
  | None => (false, this)
  | Some count =>
      (true, {| _data := Map_delete (_data this) key; _total := (_total this - count)%Z |})
  end.

Definition clear (this : t) : t := empty.

(** [clone()] *)
Definition clone (this : t) : t := {| _data := _data this; _total := _total this |}.

(** [elements()] and [toArray()]: every key as often as its count says. *)
Definition toArray (this : t) : list K :=
  flat_map (λ entry, replicate (Z.to_nat entry.2) entry.1) (_data this).

(** [(a, b) => b[1] - a[1]] *)
Definition byCountDescending (a b : K * Z) : Z := (b.2 - a.2)%Z.

(** [mostCommon(n?)]; the entries of the map are an iterable of unknown
    length for [heapq.nlargest]. *)
Definition mostCommon (n : option Z) (this : t) : completion (list (K * Z)) :=
  match n with
  | None => Normal (Array_sort byCountDescending (_data this))
  | Some n =>
      if (n <=? 0)%Z then Normal []
      else if (Z.of_nat (size this) <? n)%Z then
        Normal (Array_sort byCountDescending (_data this))
      else heapq_nlargest n (Generic (_data this)) snd
  end.

(** The argument of [equals]: a [Map] of counts, another counter, or any
    other iterable of keys. *)
Inductive comparand : Type :=
  | EqualsMap (map : list (K * Z))
  | EqualsCounter (other : t)
  | EqualsItems (items : list K).

(** [equals(other)] *)
Definition equals (other : comparand) (this : t) : bool :=
  match other with
  | EqualsMap map =>
      if negb (size this =? length map) then false
      else forallb (λ entry, (get entry.1 0 this =? entry.2)%Z) map
  | EqualsCounter other =>
      if negb (size this =? size other) then false
      else forallb (λ entry, (get entry.1 0 this =? entry.2)%Z) (_data other)
  | EqualsItems items =>
      let otherCounter := new (Some (OfItems items)) in
      if negb (size this =? size otherCounter) then false
      else forallb (λ entry, (get entry.1 0 otherCounter =? entry.2)%Z) (_data this)
  end.

(** The sum of all counts, which [_total] mirrors. *)
Definition sum_counts (map : list (K * Z)) : Z :=
  foldr (λ entry sum, (entry.2 + sum)%Z) 0%Z map.

(** How often [key] occurs in a list of keys. *)
Definition occurrences (key : K) (items : list K) : Z :=
  Z.of_nat (length (filter (λ item, item = key) items)).

(** The mutating calls of the class. *)
Inductive call : Type :=
  | CallAdd (key : K) (increment : Z)
  | CallSubtract (iterable : option subtrahend)
  | CallUpdate (other : source)
  | CallDelete (key : K)
  | CallClear.

Definition perform (this : t) (c : call) : t :=
  match c with
  | CallAdd key increment => add key increment this
  | CallSubtract iterable => subtract iterable this
  | CallUpdate other => update other this
  | CallDelete key => (delete key this).2
  | CallClear => clear this
  end.

End WithKey.
Arguments t K : clear implicits.
Arguments source K : clear implicits.
Arguments subtrahend K : clear implicits.
Arguments call K : clear implicits.
Arguments comparand K : clear implicits.
End Counter.

(** ** The comparator contract and the heap invariant *)

(** A comparator that is a total preorder: the sign of [comparator a b] is
    the opposite of the sign of [comparator b a] (so any two elements are
    comparable), and [comparator _ _ <= 0] is transitive. *)
Record Comparator {T : Type} (comparator : T → T → Z) : Prop := {
  comparator_sign :
    ∀ a b, Z.sgn (comparator a b) = (- Z.sgn (comparator b a))%Z;
  comparator_trans :
    ∀ a b c, (comparator a b ≤ 0)%Z → (comparator b c ≤ 0)%Z → (comparator a c ≤ 0)%Z
}.

(** The heap invariant of the backing array: every element precedes its two
    children, where they exist. *)
Definition heap_invariant {T : Type} (comparator : T → T → Z) (heap : list T) : Prop :=
  ∀ i parent child, heap !! i = Some parent →
    (heap !! (2 * i + 1) = Some child → (comparator parent child ≤ 0)%Z) ∧
    (heap !! (2 * i + 2) = Some child → (comparator parent child ≤ 0)%Z).

(** The invariant restricted to the parents at or after [lo]; [_heapify]
    widens it from the leaves to the root. *)
Definition node_ok {T : Type} (comparator : T → T → Z) (heap : list T) (p : nat) : Prop :=
  ∀ c a b, c = 2 * p + 1 ∨ c = 2 * p + 2 →
    heap !! p = Some a → heap !! c = Some b → (comparator a b ≤ 0)%Z.

Definition heap_from {T : Type} (comparator : T → T → Z) (lo : nat) (heap : list T) : Prop :=
  ∀ p, lo ≤ p → node_ok comparator heap p.

(** What [_siftDown] needs at [index]: every other parent from [lo] on is in
    order, and the parent of [index] precedes the children of [index]. *)
Definition sift_ready {T : Type} (comparator : T → T → Z) (lo index : nat) (heap : list T) : Prop :=
  (∀ p, lo ≤ p → p ≠ index → node_ok comparator heap p) ∧
  (∀ q c a b, lo ≤ q → index = 2 * q + 1 ∨ index = 2 * q + 2 →
     c = 2 * index + 1 ∨ c = 2 * index + 2 →
     heap !! q = Some a → heap !! c = Some b → (comparator a b ≤ 0)%Z).

(** What [_siftUp] needs while [item] travels up with a hole at [index]:
    the pairs away from the hole are in order, [item] precedes the children
    of the hole, and so does the parent of the hole. *)
Definition lift_ready {T : Type} (comparator : T → T → Z) (item : T) (index : nat)
    (heap : list T) : Prop :=
  (∀ p c a b, c = 2 * p + 1 ∨ c = 2 * p + 2 → p ≠ index → c ≠ index →
     heap !! p = Some a → heap !! c = Some b → (comparator a b ≤ 0)%Z) ∧
  (∀ c b, c = 2 * index + 1 ∨ c = 2 * index + 2 →
     heap !! c = Some b → (comparator item b ≤ 0)%Z) ∧
  (∀ q c a b, index = 2 * q + 1 ∨ index = 2 * q + 2 →
     c = 2 * index + 1 ∨ c = 2 * index + 2 →
     heap !! q = Some a → heap !! c = Some b → (comparator a b ≤ 0)%Z).

(** ** Stability of a selection

    To speak about the original positions of elements that compare equal,
    the sequence is run with every element paired with its position, under
    the comparator that looks at the element only. *)

Definition tagged {T : Type} (items : list T) : list (T * nat) :=
  zip items (seq 0 (length items)).

Definition on_value {T : Type} (comparator : T → T → Z) (a b : T * nat) : Z :=
  comparator a.1 b.1.

(** Among the returned elements that compare equal, one that came earlier in
    the sequence stands before one that came later. *)
Definition stable {T : Type} (comparator : T → T → Z) (result : list (T * nat)) : Prop :=
  ∀ p q a b, p < q → result !! p = Some a → result !! q = Some b →
    comparator a.1 b.1 = 0%Z → a.2 < b.2.

(** The order a stable ascending sort puts tagged elements in. *)
Definition lex_before {T : Type} (comparator : T → T → Z) (a b : T * nat) : Prop :=
  (comparator a.1 b.1 < 0)%Z ∨ (comparator a.1 b.1 = 0%Z ∧ a.2 < b.2).

(** What the two loops of a selection keep true of the held entries
    [result], the counter [i] and the part [rest] of the sequence still to be
    read: the counters of the entries are distinct and below [i], they order
    the entries as their positions in the sequence do, and the positions
    still to be read are larger and increasing. *)
Definition held_ok {T : Type} (result : list ((T * nat) * Z)) (i : Z)
    (rest : list (T * nat)) : Prop :=
  NoDup result.*2 ∧
  (∀ e, e ∈ result → (e.2 < i)%Z) ∧
  (∀ e1 e2, e1 ∈ result → e2 ∈ result → (e1.2 < e2.2)%Z → e1.1.2 < e2.1.2) ∧
  (∀ e v, e ∈ result → v ∈ rest → e.1.2 < v.2) ∧
  StronglySorted (λ a b : T * nat, a.2 < b.2) rest.

(** ** Unfolding the loops, and the lengths they preserve *)

Section Lengths.
Context {T : Type} (comparator : T → T → Z).

Lemma siftDown_loop_step (item : T) (heap : list T) (index length : nat) :
  siftDown_loop comparator item heap index length =
  if decide (index < length) then
    let s := smallestIndex comparator heap index length in
    if decide (s = index) then heap
    else match heap !! s with
         | Some child =>
             siftDown_loop comparator item (<[s := item]> (<[index := child]> heap)) s length
         | None => heap
         end
  else heap.
Proof.
  rewrite siftDown_loop_equation_1.
  destruct (decide (index < length)); simpl; [|done].
  destruct (decide (smallestIndex comparator heap index length = index)); simpl; [done|].
  destruct (heap !! smallestIndex comparator heap index length); done.
Qed.

Lemma siftUp_loop_step (item : T) (heap : list T) (index : nat) :
  siftUp_loop comparator item heap index =
  if decide (0 < index) then
    match heap !! ((index - 1) / 2) with
    | Some parent =>
        if (0 <=? comparator item parent)%Z then <[index := item]> heap
        else siftUp_loop comparator item (<[index := parent]> heap) ((index - 1) / 2)
    | None => <[index := item]> heap
    end
  else <[index := item]> heap.
Proof.
  rewrite siftUp_loop_equation_1.
  destruct (decide (0 < index)); simpl; [|done].
  change (Nat.divmod (index - 1) 1 0 1).1 with ((index - 1) / 2).
  destruct (heap !! ((index - 1) / 2)); done.
Qed.

Lemma smallestIndex_bounds (heap : list T) (index len : nat) :
  smallestIndex comparator heap index len = index ∨
  index < smallestIndex comparator heap index len < len.
Proof.
  unfold smallestIndex.
  repeat match goal with
         | |- context [if ?b then _ else _] => destruct b eqn:?
         | H : _ && _ = true |- _ => apply andb_true_iff in H as [?%Nat.ltb_lt ?]
         end; lia.
Qed.

Lemma siftDown_loop_length (item : T) (heap : list T) (index len : nat) :
  length (siftDown_loop comparator item heap index len) = length heap.
Proof.
  remember (len - index) as n eqn:Hn. revert heap index Hn.
  induction n as [n IH] using lt_wf_ind. intros heap index Hn.
  rewrite siftDown_loop_step.
  destruct (decide (index < len)) as [Hlt|]; [|done]. cbv zeta.
  pose proof (smallestIndex_bounds heap index len) as Hb.
  destruct (decide (smallestIndex comparator heap index len = index)) as [|Hne]; [done|].
  destruct (heap !! smallestIndex comparator heap index len) as [child|]; [|done].
  rewrite (IH (len - smallestIndex comparator heap index len)); [|lia|done].
  by rewrite !length_insert.
Qed.

Lemma siftDown_length (heap : list T) (index len : nat) :
  length (_siftDown comparator heap index len) = length heap.
Proof. unfold _siftDown. destruct (heap !! index); [apply siftDown_loop_length | done]. Qed.

Lemma Heap_pop_length (_data : list T) :
  length (Heap_pop comparator _data).2 = length _data - 1.
Proof.
  unfold Heap_pop, Heap_isEmpty, Heap_size, Array_pop.
  destruct (length _data =? 0) eqn:Hempty; simpl.
  { apply Nat.eqb_eq in Hempty. lia. }
  rewrite length_take.
  destruct (Init.Nat.min (length _data - 1) (length _data) =? 0) eqn:Hone; simpl.
  { rewrite length_take. lia. }
  destruct (last _data); simpl; [|rewrite length_take; lia].
  rewrite siftDown_length. unfold Array_set. rewrite length_take.
  apply Nat.eqb_neq in Hone. rewrite decide_False by lia.
  rewrite length_insert, length_take. lia.
Qed.

End Lengths.

(** ** Emptying a heap

    The caller's loop [while (!heap.isEmpty) out.push(heap.pop())]: the
    values [pop] returned, in the order of the calls. The heap loses one
    element at every turn. *)

Section Drain.
Context {T : Type} (_comparator : T → T → Z).

Equations drain (_data : list T) : list (option T) by wf (length _data) lt :=
  drain _data with decide (Heap_isEmpty _data = true) := {
    | left _ => []
    | right nonempty =>
        (Heap_pop _comparator _data).1 :: drain (Heap_pop _comparator _data).2 }.
Next Obligation.
  intros. rewrite Heap_pop_length.
  unfold Heap_isEmpty, Heap_size in nonempty. destruct (length _data); [done|lia].
Qed.

Lemma drain_step (_data : list T) :
  drain _data =
  if Heap_isEmpty _data then []
  else (Heap_pop _comparator _data).1 :: drain (Heap_pop _comparator _data).2.
Proof.
  rewrite drain_equation_1.
  destruct (decide (Heap_isEmpty _data = true)) as [He | Hne]; simpl.
  - by rewrite He.
  - by destruct (Heap_isEmpty _data).
Qed.

End Drain.

(** ** Sifting down *)

Section SiftDown.
Context {T : Type} (comparator : T → T → Z) (Hcmp : Comparator comparator).

Lemma comparator_flip (a b : T) :
  ((comparator a b < 0)%Z ↔ (0 < comparator b a)%Z) ∧
  ((comparator a b = 0)%Z ↔ (comparator b a = 0)%Z).
Proof.
  pose proof (comparator_sign _ Hcmp a b) as H. pose proof (comparator_sign _ Hcmp b a) as H'.
  lia.
Qed.

Lemma comparator_diag (a : T) : comparator a a = 0%Z.
Proof. pose proof (comparator_sign _ Hcmp a a). lia. Qed.

(** The sign and transitivity facts of the comparator on three elements, for
    [lia] to combine. *)
Ltac cmp_facts x y z :=
  pose proof (comparator_flip x y); pose proof (comparator_flip x z);
  pose proof (comparator_flip y z); pose proof (comparator_diag x);
  pose proof (comparator_diag y); pose proof (comparator_diag z);
  pose proof (comparator_trans _ Hcmp x y z); pose proof (comparator_trans _ Hcmp x z y);
  pose proof (comparator_trans _ Hcmp y x z); pose proof (comparator_trans _ Hcmp y z x);
  pose proof (comparator_trans _ Hcmp z x y); pose proof (comparator_trans _ Hcmp z y x).

Lemma comparator_refl (a : T) : (comparator a a ≤ 0)%Z.
Proof. pose proof (comparator_sign _ Hcmp a a). lia. Qed.

Lemma comparator_not_lt (a b : T) : ¬ (comparator a b < 0)%Z → (comparator b a ≤ 0)%Z.
Proof. pose proof (comparator_sign _ Hcmp a b). lia. Qed.

Lemma comparator_lt_le (a b : T) : (comparator a b < 0)%Z → (comparator a b ≤ 0)%Z.
Proof. lia. Qed.

Lemma comparator_lt_not_ge (a b : T) : (comparator a b < 0)%Z → ¬ (comparator b a ≤ 0)%Z.
Proof. pose proof (comparator_sign _ Hcmp a b). lia. Qed.

Lemma heap_invariant_from (heap : list T) :
  heap_invariant comparator heap ↔ heap_from comparator 0 heap.
Proof.
  split.
  - intros H p _ c a b Hc Ha Hb. destruct (H p a b Ha) as [H1 H2].
    destruct Hc as [-> | ->]; auto.
  - intros H i a b Ha. split; intros Hb.
    + apply (H i (Nat.le_0_l i) (2 * i + 1) a b); auto.
    + apply (H i (Nat.le_0_l i) (2 * i + 2) a b); auto.
Qed.

(** The choice of [smallestIndex]: either the node itself, which then
    precedes its children, or a child strictly before the node that precedes
    the other child. *)
Ltac children_of Hl Hr :=
  let Hc := fresh "Hc" in
  intros ? ? [-> | ->] Hc; [rewrite Hl in Hc | rewrite Hr in Hc];
  try discriminate Hc; injection Hc as <-; lia.

Lemma smallestIndex_spec (heap : list T) (index : nat) (item : T) :
  heap !! index = Some item →
  let s := smallestIndex comparator heap index (length heap) in
  (s = index ∧
     ∀ c b, c = 2 * index + 1 ∨ c = 2 * index + 2 → heap !! c = Some b →
       (comparator item b ≤ 0)%Z) ∨
  (∃ v, (s = 2 * index + 1 ∨ s = 2 * index + 2) ∧ heap !! s = Some v ∧
     (comparator v item < 0)%Z ∧
     ∀ c b, c = 2 * index + 1 ∨ c = 2 * index + 2 → heap !! c = Some b →
       (comparator v b ≤ 0)%Z).
Proof.
  intros Hitem. unfold smallestIndex, lessAt.
  replace (2 * index + 1 + 1) with (2 * index + 2) by lia.
  destruct (heap !! (2 * index + 1)) as [l|] eqn:Hl;
    destruct (heap !! (2 * index + 2)) as [r|] eqn:Hr;
    rewrite ?andb_false_r; cbv iota; rewrite ?Hitem;
    repeat match goal with
      | H : heap !! ?i = Some _ |- context [?i <? length heap] =>
          rewrite (proj2 (Nat.ltb_lt i (length heap)) (lookup_lt_Some _ _ _ H)); cbn [andb]
      end.
  - destruct (comparator l item <? 0)%Z eqn:Hli; rewrite ?Hl, ?Hitem.
    + apply Z.ltb_lt in Hli.
      destruct (comparator r l <? 0)%Z eqn:Hrl; [apply Z.ltb_lt in Hrl | apply Z.ltb_ge in Hrl];
        right; [exists r | exists l]; (split; [auto|]); (split; [done|]); cmp_facts l r item;
        (split; [lia|]); children_of Hl Hr.
    + apply Z.ltb_ge in Hli.
      destruct (comparator r item <? 0)%Z eqn:Hri; [apply Z.ltb_lt in Hri | apply Z.ltb_ge in Hri];
        cmp_facts l r item.
      * right. exists r. split; [auto|]. split; [done|]. split; [lia|].
        children_of Hl Hr.
      * left. split; [done|]. children_of Hl Hr.
  - destruct (comparator l item <? 0)%Z eqn:Hli;
      [apply Z.ltb_lt in Hli | apply Z.ltb_ge in Hli]; cmp_facts l l item.
    + right. exists l. split; [auto|]. split; [done|]. split; [lia|].
      children_of Hl Hr.
    + left. split; [done|]. children_of Hl Hr.
  - destruct (comparator r item <? 0)%Z eqn:Hri;
      [apply Z.ltb_lt in Hri | apply Z.ltb_ge in Hri]; cmp_facts r r item.
    + right. exists r. split; [auto|]. split; [done|]. split; [lia|].
      children_of Hl Hr.
    + left. split; [done|]. children_of Hl Hr.
  - left. split; [done|]. children_of Hl Hr.
Qed.

(** The two writes of a loop turn exchange two elements. *)
Lemma exchange_lookup (heap : list T) (i s j : nat) (a b : T) :
  heap !! i = Some a → heap !! s = Some b → i ≠ s →
  <[s := a]> (<[i := b]> heap) !! j =
  if decide (j = s) then Some a else if decide (j = i) then Some b else heap !! j.
Proof.
  intros Ha Hb Hne.
  apply lookup_lt_Some in Ha. apply lookup_lt_Some in Hb.
  destruct (decide (j = s)) as [-> | ?].
  - apply list_lookup_insert_eq. by rewrite length_insert.
  - rewrite list_lookup_insert_ne by done.
    destruct (decide (j = i)) as [-> | ?].
    + by apply list_lookup_insert_eq.
    + by rewrite list_lookup_insert_ne.
Qed.

Lemma insert_Permutation (heap : list T) (i : nat) (a b : T) :
  heap !! i = Some a → a :: <[i := b]> heap ≡ₚ b :: heap.
Proof.
  revert i. induction heap as [|x heap IH]; intros [|i] Ha; simplify_eq/=.
  - apply perm_swap.
  - rewrite (perm_swap x a), (perm_swap x b). by rewrite IH.
Qed.

Lemma exchange_Permutation (heap : list T) (i s : nat) (a b : T) :
  heap !! i = Some a → heap !! s = Some b →
  <[s := a]> (<[i := b]> heap) ≡ₚ heap.
Proof.
  intros Ha Hb. destruct (decide (i = s)) as [-> | Hne].
  - rewrite Ha in Hb. injection Hb as <-.
    rewrite list_insert_insert_eq. by rewrite list_insert_id.
  - apply (Permutation_cons_inv (a := b)).
    rewrite (insert_Permutation (<[i := b]> heap) s b a)
      by (by rewrite list_lookup_insert_ne).
    by apply insert_Permutation.
Qed.

Lemma siftDown_loop_Permutation (item : T) (heap : list T) (index len : nat) :
  heap !! index = Some item →
  siftDown_loop comparator item heap index len ≡ₚ heap.
Proof.
  remember (len - index) as n eqn:Hn. revert heap index Hn.
  induction n as [n IH] using lt_wf_ind. intros heap index Hn Hitem.
  rewrite siftDown_loop_step.
  destruct (decide (index < len)) as [Hlt|]; [|done]. cbv zeta.
  pose proof (smallestIndex_bounds comparator heap index len) as Hb.
  destruct (decide (smallestIndex comparator heap index len = index)) as [|Hne]; [done|].
  destruct (heap !! smallestIndex comparator heap index len) as [child|] eqn:Hchild; [|done].
  rewrite (IH (len - smallestIndex comparator heap index len)); [|lia|done|].
  - by apply exchange_Permutation.
  - rewrite exchange_lookup by done. by rewrite decide_True.
Qed.

Lemma siftDown_loop_heap (lo : nat) (item : T) (heap : list T) (index : nat) :
  lo ≤ index → heap !! index = Some item →
  sift_ready comparator lo index heap →
  heap_from comparator lo (siftDown_loop comparator item heap index (length heap)).
Proof.
  remember (length heap - index) as n eqn:Hn. revert heap index Hn.
  induction n as [n IH] using lt_wf_ind. intros heap index Hn Hlo Hitem [Hothers Hgrand].
  rewrite siftDown_loop_step.
  pose proof (lookup_lt_Some _ _ _ Hitem) as Hlt.
  rewrite decide_True by done. cbv zeta.
  destruct (smallestIndex_spec heap index item Hitem) as [[Hs Hch] | (v & Hs & Hv & Hvi & Hch)].
  - rewrite decide_True by done. intros p Hp.
    destruct (decide (p = index)) as [-> | Hne]; [|by apply Hothers].
    intros c a b Hc Ha Hb. rewrite Hitem in Ha. injection Ha as <-. by apply (Hch c).
  - set (s := smallestIndex comparator heap index (length heap)) in *.
    assert (Hsi : s ≠ index) by lia.
    rewrite decide_False by done. rewrite Hv.
    assert (Hex : ∀ j, <[s := item]> (<[index := v]> heap) !! j =
              if decide (j = s) then Some item
              else if decide (j = index) then Some v else heap !! j)
      by (intros j; by apply exchange_lookup).
    replace (length heap) with (length (<[s := item]> (<[index := v]> heap)))
      by (by rewrite !length_insert).
    apply (IH (length heap - s)).
    + apply lookup_lt_Some in Hv. lia.
    + by rewrite !length_insert.
    + lia.
    + rewrite Hex. by rewrite decide_True.
    + split.
      * intros p Hp Hps c a b Hc Ha Hb. rewrite Hex in Ha, Hb.
        rewrite decide_False in Ha by done.
        destruct (decide (p = index)) as [-> | Hpi].
        -- injection Ha as <-.
           destruct (decide (c = s)) as [-> | Hcs].
           ++ injection Hb as <-. lia.
           ++ rewrite decide_False in Hb by lia. by apply (Hch c).
        -- destruct (decide (c = s)) as [-> | Hcs]; [lia|].
           destruct (decide (c = index)) as [-> | Hci].
           ++ injection Hb as <-.
              apply (Hgrand p s a v); auto.
           ++ by apply (Hothers p Hp Hpi c).
      * intros q c a b Hq Hsq Hc Ha Hb. rewrite Hex in Ha, Hb.
        assert (q = index) as -> by lia.
        rewrite decide_False in Ha by lia. rewrite decide_True in Ha by done.
        injection Ha as <-.
        rewrite !decide_False in Hb by lia.
        apply (Hothers s ltac:(lia) Hsi c v b); auto.
Qed.

Lemma siftDown_Permutation (heap : list T) (index len : nat) :
  _siftDown comparator heap index len ≡ₚ heap.
Proof.
  unfold _siftDown. destruct (heap !! index) eqn:H; [by apply siftDown_loop_Permutation | done].
Qed.

Lemma siftDown_heap (lo : nat) (heap : list T) (index : nat) :
  lo ≤ index → sift_ready comparator lo index heap →
  heap_from comparator lo (_siftDown comparator heap index (length heap)).
Proof.
  intros Hlo Hready. unfold _siftDown.
  destruct (heap !! index) as [item|] eqn:Hitem; [by apply siftDown_loop_heap|].
  intros p Hp c a b Hc Ha Hb.
  destruct (decide (p = index)) as [-> | Hne]; [congruence|].
  by apply (proj1 Hready p Hp Hne c).
Qed.

(** *** Heapify *)

Lemma heap_from_leaves (items : list T) :
  heap_from comparator (length items / 2) items.
Proof.
  intros p Hp c a b Hc _ Hb. apply lookup_lt_Some in Hb.
  pose proof (Nat.div_mod_eq (length items) 2).
  pose proof (Nat.mod_upper_bound (length items) 2). lia.
Qed.

Lemma heapify_loop_length (k : nat) (items : list T) :
  length (heapify_loop comparator k items) = length items.
Proof.
  revert items. induction k as [|i IH]; intros items; simpl; [done|].
  by rewrite IH, siftDown_length.
Qed.

Lemma heapify_loop_Permutation (k : nat) (items : list T) :
  heapify_loop comparator k items ≡ₚ items.
Proof.
  revert items. induction k as [|i IH]; intros items; simpl; [done|].
  by rewrite IH, siftDown_Permutation.
Qed.

Lemma heapify_loop_heap (k : nat) (items : list T) :
  heap_from comparator k items →
  heap_from comparator 0 (heapify_loop comparator k items).
Proof.
  revert items. induction k as [|i IH]; intros items Hk; simpl; [done|].
  apply IH, siftDown_heap; [done|]. split.
  - intros p Hp Hne. apply Hk. lia.
  - intros q c a b Hq Hi. lia.
Qed.

Lemma heapify_length (items : list T) :
  length (_heapify comparator items) = length items.
Proof. apply heapify_loop_length. Qed.

Lemma heapify_Permutation (items : list T) : _heapify comparator items ≡ₚ items.
Proof. apply heapify_loop_Permutation. Qed.

Lemma heapify_heap (items : list T) : heap_invariant comparator (_heapify comparator items).
Proof. apply heap_invariant_from, heapify_loop_heap, heap_from_leaves. Qed.

(** *** Writing the root and sifting it down *)

Lemma heap_from_take (n : nat) (heap : list T) :
  heap_from comparator 0 heap → heap_from comparator 0 (take n heap).
Proof.
  intros H p Hp c a b Hc Ha Hb.
  apply lookup_take_Some in Ha as [Ha _]. apply lookup_take_Some in Hb as [Hb _].
  by apply (H p Hp c).
Qed.

Lemma Array_set_root_lookup (heap : list T) (x : T) (j : nat) :
  Array_set heap 0 x !! j = if decide (j = 0) then Some x else heap !! j.
Proof.
  unfold Array_set. destruct heap as [|y heap]; simpl.
  - destruct j; [done|]. by destruct j.
  - by destruct j.
Qed.

Lemma Array_set_root_length (heap : list T) (x : T) :
  length (Array_set heap 0 x) = Nat.max 1 (length heap).
Proof. unfold Array_set. destruct heap; simpl; [done|]. by rewrite ?length_insert. Qed.

Lemma Array_set_root_Permutation (heap : list T) (x : T) :
  Array_set heap 0 x ≡ₚ x :: tail heap.
Proof. unfold Array_set. by destruct heap. Qed.

Lemma root_ready (heap : list T) (x : T) :
  heap_from comparator 0 heap → sift_ready comparator 0 0 (Array_set heap 0 x).
Proof.
  intros H. split.
  - intros p _ Hp c a b Hc Ha Hb. rewrite Array_set_root_lookup in Ha, Hb.
    rewrite decide_False in Ha by done. rewrite decide_False in Hb by lia.
    by apply (H p (Nat.le_0_l p) c).
  - intros q c a b _ Hq. lia.
Qed.

Lemma install_root_heap (heap : list T) (x : T) :
  heap_invariant comparator heap →
  heap_invariant comparator
    (_siftDown comparator (Array_set heap 0 x) 0 (length (Array_set heap 0 x))).
Proof.
  intros H%heap_invariant_from. apply heap_invariant_from.
  apply siftDown_heap; [done|]. by apply root_ready.
Qed.

Lemma install_root_Permutation (heap : list T) (x : T) :
  _siftDown comparator (Array_set heap 0 x) 0 (length (Array_set heap 0 x)) ≡ₚ x :: tail heap.
Proof. by rewrite siftDown_Permutation, Array_set_root_Permutation. Qed.

(** The root precedes every element of a heap. *)
Lemma heap_root_least (heap : list T) (root : T) :
  heap_invariant comparator heap → heap !! 0 = Some root →
  ∀ i x, heap !! i = Some x → (comparator root x ≤ 0)%Z.
Proof.
  intros Hinv Hroot i. induction i as [i IH] using lt_wf_ind. intros x Hx.
  destruct (decide (i = 0)) as [-> | Hi].
  - rewrite Hroot in Hx. injection Hx as <-. apply comparator_refl.
  - set (p := (i - 1) / 2).
    assert (Hp : i = 2 * p + 1 ∨ i = 2 * p + 2).
    { pose proof (Nat.div_mod_eq (i - 1) 2).
      pose proof (Nat.mod_upper_bound (i - 1) 2). unfold p. lia. }
    destruct (lookup_lt_is_Some_2 heap p) as [y Hy].
    { apply lookup_lt_Some in Hx. lia. }
    apply (comparator_trans _ Hcmp root y x).
    + apply (IH p); [lia | done].
    + destruct (Hinv p y x Hy) as [H1 H2].
      destruct Hp as [Hp | Hp]; rewrite Hp in Hx; auto.
Qed.

Lemma heap_root_Forall (heap : list T) (root : T) :
  heap_invariant comparator heap → heap !! 0 = Some root →
  Forall (λ x, (comparator root x ≤ 0)%Z) heap.
Proof.
  intros Hinv Hroot. apply Forall_lookup. intros i x Hx.
  by apply (heap_root_least heap root Hinv Hroot i).
Qed.

End SiftDown.

(** ** Sifting up *)

Section SiftUp.
Context {T : Type} (comparator : T → T → Z) (Hcmp : Comparator comparator).

Lemma parent_child (index : nat) :
  0 < index →
  index = 2 * ((index - 1) / 2) + 1 ∨ index = 2 * ((index - 1) / 2) + 2.
Proof.
  intros Hpos. pose proof (Nat.div_mod_eq (index - 1) 2).
  pose proof (Nat.mod_upper_bound (index - 1) 2). lia.
Qed.

Lemma siftUp_loop_length (item : T) (heap : list T) (index : nat) :
  length (siftUp_loop comparator item heap index) = length heap.
Proof.
  revert heap. induction index as [index IH] using lt_wf_ind. intros heap.
  rewrite siftUp_loop_step.
  destruct (decide (0 < index)) as [Hpos|]; [|by rewrite length_insert].
  destruct (heap !! ((index - 1) / 2)) as [parent|]; [|by rewrite length_insert].
  destruct (0 <=? comparator item parent)%Z; [by rewrite length_insert|].
  rewrite IH; [by rewrite length_insert|].
  pose proof (parent_child index Hpos). lia.
Qed.

Lemma siftUp_loop_Permutation (item : T) (heap : list T) (index : nat) :
  index < length heap →
  siftUp_loop comparator item heap index ≡ₚ <[index := item]> heap.
Proof.
  revert heap. induction index as [index IH] using lt_wf_ind. intros heap Hlt.
  rewrite siftUp_loop_step.
  destruct (decide (0 < index)) as [Hpos|]; [|done].
  pose proof (parent_child index Hpos) as Hpc.
  destruct (heap !! ((index - 1) / 2)) as [parent|] eqn:Hparent; [|done].
  destruct (0 <=? comparator item parent)%Z; [done|].
  rewrite IH; [|lia|rewrite length_insert; lia].
  rewrite <-(list_insert_insert_eq heap index parent item).
  apply (exchange_Permutation (<[index := item]> heap) index ((index - 1) / 2) item parent).
  - by apply list_lookup_insert_eq.
  - rewrite list_lookup_insert_ne by lia. done.
Qed.

Lemma siftUp_loop_heap (item : T) (heap : list T) (index : nat) :
  index < length heap →
  lift_ready comparator item index heap →
  heap_from comparator 0 (siftUp_loop comparator item heap index).
Proof.
  revert heap. induction index as [index IH] using lt_wf_ind.
  intros heap Hlt (Haway & Hbelow & Hgrand).
  rewrite siftUp_loop_step.
  assert (Hstop : (index = 0 ∨ ∃ parent, heap !! ((index - 1) / 2) = Some parent ∧
                     (0 ≤ comparator item parent)%Z) →
                  heap_from comparator 0 (<[index := item]> heap)).
  { intros Hwhy p _ c a b Hc Ha Hb.
    destruct (decide (p = index)) as [-> | Hp].
    - rewrite list_lookup_insert_eq in Ha by done. injection Ha as <-.
      rewrite list_lookup_insert_ne in Hb by lia. by apply (Hbelow c).
    - rewrite list_lookup_insert_ne in Ha by done.
      destruct (decide (c = index)) as [-> | Hci].
      + rewrite list_lookup_insert_eq in Hb by done. injection Hb as <-.
        destruct Hwhy as [-> | (parent & Hparent & Hge)]; [lia|].
        pose proof (parent_child index ltac:(lia)).
        assert (p = (index - 1) / 2) as -> by lia.
        rewrite Hparent in Ha. injection Ha as <-.
        pose proof (comparator_flip comparator Hcmp item parent).
        pose proof (comparator_flip comparator Hcmp parent item). lia.
      + rewrite list_lookup_insert_ne in Hb by done. by apply (Haway p c). }
  destruct (decide (0 < index)) as [Hpos|]; [|apply Hstop; lia].
  pose proof (parent_child index Hpos) as Hpc.
  destruct (lookup_lt_is_Some_2 heap ((index - 1) / 2)) as [parent Hparent]; [lia|].
  rewrite Hparent.
  destruct (0 <=? comparator item parent)%Z eqn:Hge.
  { apply Hstop. right. exists parent. split; [done|]. by apply Z.leb_le. }
  apply Z.leb_gt in Hge.
  set (up := (index - 1) / 2) in *.
  apply IH; [lia | rewrite length_insert; lia |]. split; [|split].
  - intros p c a b Hc Hp Hcu Ha Hb.
    destruct (decide (c = index)) as [-> | Hci]; [lia|].
    rewrite list_lookup_insert_ne in Hb by done.
    destruct (decide (p = index)) as [-> | Hpi].
    + rewrite list_lookup_insert_eq in Ha by done. injection Ha as <-.
      by apply (Hgrand up c).
    + rewrite list_lookup_insert_ne in Ha by done. by apply (Haway p c).
  - intros c b Hc Hb.
    destruct (decide (c = index)) as [-> | Hci].
    + rewrite list_lookup_insert_eq in Hb by done. injection Hb as <-. lia.
    + rewrite list_lookup_insert_ne in Hb by done.
      apply (comparator_trans _ Hcmp item parent b); [lia|].
      apply (Haway up c); auto. lia.
  - intros q c a b Hq Hc Ha Hb.
    rewrite list_lookup_insert_ne in Ha by lia.
    assert (Hqp : (comparator a parent ≤ 0)%Z) by (apply (Haway q up); auto; lia).
    destruct (decide (c = index)) as [-> | Hci].
    + rewrite list_lookup_insert_eq in Hb by done. by injection Hb as <-.
    + rewrite list_lookup_insert_ne in Hb by done.
      apply (comparator_trans _ Hcmp a parent b); [done|].
      apply (Haway up c); auto. lia.
Qed.

End SiftUp.

(** ** The methods of the class keep the invariant *)

Section HeapMethods.
Context {T : Type} (comparator : T → T → Z) (Hcmp : Comparator comparator).

Lemma snoc_lift_ready (heap : list T) (item : T) :
  heap_invariant comparator heap →
  lift_ready comparator item (length heap) (heap ++ [item]).
Proof.
  intros Hinv. split; [|split].
  - intros p c a b Hc Hp Hcl Ha Hb.
    apply lookup_snoc_Some in Ha as [[_ Ha] | [-> _]]; [|done].
    apply lookup_snoc_Some in Hb as [[_ Hb] | [-> _]]; [|done].
    destruct (Hinv p a b Ha) as [H1 H2]. destruct Hc as [-> | ->]; auto.
  - intros c b Hc Hb. apply lookup_lt_Some in Hb. rewrite length_app in Hb. simpl in Hb. lia.
  - intros q c a b Hq Hc Ha Hb.
    apply lookup_lt_Some in Hb. rewrite length_app in Hb. simpl in Hb. lia.
Qed.

Lemma Heap_push_loop (item : T) (_data : list T) :
  Heap_push comparator item _data =
  siftUp_loop comparator item (_data ++ [item]) (length _data).
Proof.
  unfold Heap_push, Array_push, _siftUp. rewrite length_app. simpl.
  replace (length _data + 1 - 1) with (length _data) by lia.
  by rewrite list_lookup_middle.
Qed.

Lemma Heap_push_heap (item : T) (_data : list T) :
  heap_invariant comparator _data →
  heap_invariant comparator (Heap_push comparator item _data).
Proof.
  intros Hinv. rewrite Heap_push_loop. apply heap_invariant_from.
  apply siftUp_loop_heap; [done | | by apply snoc_lift_ready].
  rewrite length_app. simpl. lia.
Qed.

Lemma Heap_push_Permutation (item : T) (_data : list T) :
  Heap_push comparator item _data ≡ₚ item :: _data.
Proof.
  rewrite Heap_push_loop, siftUp_loop_Permutation.
  - rewrite list_insert_id by (by rewrite list_lookup_middle).
    by rewrite Permutation_app_comm.
  - rewrite length_app. simpl. lia.
Qed.

Lemma Heap_pop_empty : Heap_pop comparator [] = (None, []).
Proof. done. Qed.

Lemma Heap_pop_snoc (front : list T) (last : T) :
  Heap_pop comparator (front ++ [last]) =
  if decide (front = []) then (Some last, [])
  else (front !! 0,
        _siftDown comparator (Array_set front 0 last) 0 (length (Array_set front 0 last))).
Proof.
  unfold Heap_pop, Heap_isEmpty, Heap_size, Array_pop.
  rewrite length_app. simpl. rewrite last_snoc.
  replace (length front + 1 - 1) with (length front) by lia.
  rewrite take_app_length.
  destruct (length front + 1 =? 0) eqn:H0; [apply Nat.eqb_eq in H0; lia|].
  by destruct front as [|x front].
Qed.

Lemma Heap_pop_heap (_data : list T) :
  heap_invariant comparator _data →
  heap_invariant comparator (Heap_pop comparator _data).2.
Proof.
  intros Hinv. destruct (decide (_data = [])) as [-> | Hne]; [done|].
  apply last_is_Some in Hne as [last Hlast]. apply last_Some in Hlast as [front ->].
  rewrite Heap_pop_snoc. destruct (decide (front = [])) as [-> | Hfront]; simpl.
  { intros i a b Ha. by destruct i. }
  apply install_root_heap; [done|].
  apply heap_invariant_from. rewrite <-(take_app_length front [last]).
  by apply heap_from_take, heap_invariant_from.
Qed.

Lemma Heap_pop_Permutation (_data : list T) :
  _data ≠ [] →
  ∃ root, (Heap_pop comparator _data).1 = Some root ∧ _data !! 0 = Some root ∧
          root :: (Heap_pop comparator _data).2 ≡ₚ _data.
Proof.
  intros Hne.
  apply last_is_Some in Hne as [last Hlast]. apply last_Some in Hlast as [front ->].
  rewrite Heap_pop_snoc. destruct (decide (front = [])) as [-> | Hfront]; simpl.
  { by exists last. }
  destruct front as [|root front]; [done|]. exists root. simpl. split; [done|]. split; [done|].
  rewrite siftDown_Permutation. unfold Array_set. simpl.
  apply perm_skip, Permutation_cons_append.
Qed.

Lemma Heap_replace_value (item : T) (_data : list T) :
  Heap_replace comparator item _data =
  (_data !! 0,
   _siftDown comparator (Array_set _data 0 item) 0 (length (Array_set _data 0 item))).
Proof.
  unfold Heap_replace, _replace. f_equal.
  by destruct _data.
Qed.

Lemma Heap_replace_heap (item : T) (_data : list T) :
  heap_invariant comparator _data →
  heap_invariant comparator (Heap_replace comparator item _data).2.
Proof. intros Hinv. rewrite Heap_replace_value. by apply install_root_heap. Qed.

Lemma Heap_pushPop_value (item : T) (_data : list T) :
  Heap_pushPop comparator item _data =
  match _data !! 0 with
  | None => (Some item, _data)
  | Some root =>
      if (comparator item root <? 0)%Z then (Some item, _data)
      else (Some root,
            _siftDown comparator (Array_set _data 0 item) 0
              (length (Array_set _data 0 item)))
  end.
Proof.
  unfold Heap_pushPop, Heap_isEmpty, Heap_size, below_root.
  destruct _data as [|root rest]; simpl; [done|].
  by destruct (comparator item root <? 0)%Z.
Qed.

Lemma Heap_pushPop_heap (item : T) (_data : list T) :
  heap_invariant comparator _data →
  heap_invariant comparator (Heap_pushPop comparator item _data).2.
Proof.
  intros Hinv. rewrite Heap_pushPop_value.
  destruct (_data !! 0) as [root|]; [|done].
  destruct (comparator item root <? 0)%Z; [done|]. by apply install_root_heap.
Qed.

Lemma Heap_heapify_heap (items : option (list T)) (_data : list T) :
  heap_invariant comparator (Heap_heapify comparator items _data).
Proof. apply heapify_heap. done. Qed.

Lemma Heap_new_heap (iterable : option (list T)) :
  heap_invariant comparator (Heap_new comparator iterable).
Proof.
  destruct iterable as [items|]; simpl; [apply Heap_heapify_heap|].
  intros i a b Ha. by destruct i.
Qed.

Lemma perform_heap (_data : list T) (c : call) :
  heap_invariant comparator _data →
  heap_invariant comparator (perform comparator _data c).
Proof.
  intros Hinv. destruct c; cbn [perform].
  - by apply Heap_push_heap.
  - by apply Heap_pop_heap.
  - by apply Heap_replace_heap.
  - by apply Heap_pushPop_heap.
  - apply Heap_heapify_heap.
Qed.

End HeapMethods.

(** ** Comparators built from comparators *)

Section Comparators.
Context {T : Type}.

(** The contract in words: [comparator _ _ <= 0] is a total and transitive
    relation, and a negative result is its strict part. *)
Lemma Comparator_total_preorder (comparator : T → T → Z) :
  Comparator comparator ↔
  (∀ a b, (comparator a b ≤ 0)%Z ∨ (comparator b a ≤ 0)%Z) ∧
  (∀ a b c, (comparator a b ≤ 0)%Z → (comparator b c ≤ 0)%Z → (comparator a c ≤ 0)%Z) ∧
  (∀ a b, (comparator a b < 0)%Z ↔ ¬ (comparator b a ≤ 0)%Z).
Proof.
  split.
  - intros Hcmp. split; [|split].
    + intros a b. pose proof (comparator_sign _ Hcmp a b). lia.
    + apply (comparator_trans _ Hcmp).
    + intros a b. pose proof (comparator_sign _ Hcmp a b). lia.
  - intros (Htotal & Htrans & Hstrict). split; [|done].
    intros a b. pose proof (Hstrict a b). pose proof (Hstrict b a). lia.
Qed.

Lemma defaultComparator_Comparator : Comparator defaultComparator.
Proof.
  split; intros; unfold defaultComparator in *;
    repeat match goal with
           | |- context [(?a <? ?b)%Z] => destruct (Z.ltb_spec a b)
           | H : context [(?a <? ?b)%Z] |- _ => destruct (Z.ltb_spec a b)
           end; lia.
Qed.

Lemma keyComparator_Comparator (key : T → Z) : Comparator (keyComparator key).
Proof. split; intros; unfold keyComparator in *; lia. Qed.

Lemma negated_Comparator (comparator : T → T → Z) :
  Comparator comparator → Comparator (negated comparator).
Proof.
  intros Hcmp. split; unfold negated.
  - intros a b. pose proof (comparator_sign _ Hcmp a b). lia.
  - intros a b c Hab Hbc.
    pose proof (comparator_flip comparator Hcmp a b).
    pose proof (comparator_flip comparator Hcmp b a).
    pose proof (comparator_flip comparator Hcmp b c).
    pose proof (comparator_flip comparator Hcmp c b).
    pose proof (comparator_flip comparator Hcmp a c).
    pose proof (comparator_flip comparator Hcmp c a).
    pose proof (comparator_trans _ Hcmp c b a). lia.
Qed.

Lemma heapComparator_Comparator (comparator : T → T → Z) :
  Comparator comparator → Comparator (heapComparator comparator).
Proof.
  intros Hcmp. split; unfold heapComparator.
  - intros [a i] [b j]. simpl.
    pose proof (comparator_sign _ Hcmp a b).
    pose proof (comparator_flip comparator Hcmp a b).
    destruct (Z.eqb_spec (comparator a b) 0), (Z.eqb_spec (comparator b a) 0); lia.
  - intros [a i] [b j] [c k]. simpl.
    pose proof (comparator_flip comparator Hcmp a b).
    pose proof (comparator_flip comparator Hcmp b a).
    pose proof (comparator_flip comparator Hcmp b c).
    pose proof (comparator_flip comparator Hcmp c b).
    pose proof (comparator_flip comparator Hcmp a c).
    pose proof (comparator_flip comparator Hcmp c a).
    pose proof (comparator_trans _ Hcmp a b c).
    pose proof (comparator_trans _ Hcmp c a b).
    pose proof (comparator_trans _ Hcmp b c a).
    destruct (Z.eqb_spec (comparator a b) 0), (Z.eqb_spec (comparator b c) 0),
      (Z.eqb_spec (comparator a c) 0); lia.
Qed.

End Comparators.

(** ** [Array.prototype.sort] under a consistent comparator *)

Section Sorting.
Context {T : Type} (comparator : T → T → Z).

Lemma Sorted_weaken (R R' : T → T → Prop) (l : list T) :
  (∀ a b, R a b → R' a b) → Sorted R l → Sorted R' l.
Proof.
  intros Himpl. induction 1 as [|x l Hl IH Hhd]; constructor; [done|].
  destruct Hhd; constructor; auto.
Qed.

Lemma sort_insert_Permutation (x : T) (sorted : list T) :
  sort_insert comparator x sorted ≡ₚ x :: sorted.
Proof.
  induction sorted as [|y rest IH]; simpl; [done|].
  destruct (comparator x y <=? 0)%Z; [done|]. by rewrite IH, perm_swap.
Qed.

Lemma Array_sort_Permutation (arr : list T) : Array_sort comparator arr ≡ₚ arr.
Proof.
  induction arr as [|x arr IH]; simpl; [done|].
  by rewrite sort_insert_Permutation, IH.
Qed.

Lemma Array_sort_length (arr : list T) : length (Array_sort comparator arr) = length arr.
Proof. by rewrite Array_sort_Permutation. Qed.

Context (Hcmp : Comparator comparator).

Lemma sort_insert_Sorted (x : T) (sorted : list T) :
  Sorted (λ a b, (comparator a b ≤ 0)%Z) sorted →
  Sorted (λ a b, (comparator a b ≤ 0)%Z) (sort_insert comparator x sorted).
Proof.
  induction 1 as [|y rest Hrest IH Hhd]; simpl; [by repeat constructor|].
  destruct (Z.leb_spec (comparator x y) 0) as [Hle | Hgt].
  - by repeat constructor.
  - constructor; [done|].
    pose proof (comparator_flip comparator Hcmp y x).
    destruct Hhd as [|z rest' Hyz]; simpl.
    + constructor. lia.
    + destruct (comparator x z <=? 0)%Z; constructor; [lia | done].
Qed.

Lemma Array_sort_Sorted (arr : list T) :
  Sorted (λ a b, (comparator a b ≤ 0)%Z) (Array_sort comparator arr).
Proof.
  induction arr as [|x arr IH]; simpl; [constructor|]. by apply sort_insert_Sorted.
Qed.

End Sorting.

(** ** Popping a heap until it is empty *)

Section PopOrdering.
Context {T : Type} (comparator : T → T → Z) (Hcmp : Comparator comparator).

Lemma push_all_heap (items _data : list T) :
  heap_invariant comparator _data →
  heap_invariant comparator (foldl (λ d x, Heap_push comparator x d) _data items) ∧
  foldl (λ d x, Heap_push comparator x d) _data items ≡ₚ items ++ _data.
Proof.
  revert _data. induction items as [|x items IH]; intros _data Hinv; simpl; [done|].
  destruct (IH (Heap_push comparator x _data)) as [H1 H2]; [by apply Heap_push_heap|].
  split; [done|]. rewrite H2, Heap_push_Permutation. by rewrite Permutation_middle.
Qed.

Lemma drain_sorted (_data : list T) :
  heap_invariant comparator _data →
  ∃ out, drain comparator _data = Some <$> out ∧
         Sorted (λ a b, (comparator a b ≤ 0)%Z) out ∧ out ≡ₚ _data.
Proof.
  remember (length _data) as n eqn:Hn. revert _data Hn.
  induction n as [n IH] using lt_wf_ind. intros _data Hn Hinv.
  rewrite drain_step. destruct _data as [|x rest] eqn:Hdata.
  { exists []. by repeat split; try constructor. }
  rewrite <-Hdata in *. assert (Hne : _data ≠ []) by (by rewrite Hdata).
  replace (Heap_isEmpty _data) with false by (by rewrite Hdata).
  destruct (Heap_pop_Permutation comparator _data Hne) as (root & Hroot & Hfirst & Hperm).
  destruct (IH (length (Heap_pop comparator _data).2)) with (_data := (Heap_pop comparator _data).2)
    as (out & Hout & Hsorted & Hout_perm).
  - rewrite Heap_pop_length. rewrite Hn, Hdata. simpl. lia.
  - done.
  - by apply Heap_pop_heap.
  - exists (root :: out). rewrite Hroot, Hout. split; [done|]. split.
    + constructor; [done|].
      assert (Hall : Forall (λ y, (comparator root y ≤ 0)%Z) out).
      { rewrite Hout_perm.
        pose proof (heap_root_Forall comparator Hcmp _data root Hinv Hfirst) as Hleast.
        rewrite <-Hperm in Hleast. by apply Forall_cons in Hleast as [_ ?]. }
      destruct Hall; by constructor.
    + by rewrite Hout_perm.
Qed.

(** C1. For a comparator that is a total preorder, a heap built from a finite
    sequence, by the constructor or by pushing the elements in any order,
    and then popped until it is empty, returns exactly the elements of the
    sequence, in non-decreasing order under the comparator. *)
Theorem pop_ordering (items _data : list T) :
  (_data = Heap_new comparator (Some items) ∨
   ∃ order, order ≡ₚ items ∧ _data = foldl (λ d x, Heap_push comparator x d) [] order) →
  ∃ out, drain comparator _data = Some <$> out ∧
         Sorted (λ a b, (comparator a b ≤ 0)%Z) out ∧ out ≡ₚ items.
Proof.
  intros Hbuilt.
  assert (Hstate : heap_invariant comparator _data ∧ _data ≡ₚ items).
  { destruct Hbuilt as [-> | (order & Horder & ->)].
    - split; [by apply Heap_new_heap|]. apply heapify_Permutation.
    - destruct (push_all_heap order []) as [H1 H2].
      + intros i a b Ha. by destruct i.
      + split; [done|]. by rewrite H2, app_nil_r. }
  destruct Hstate as [Hinv Hperm].
  destruct (drain_sorted _data Hinv) as (out & Hout & Hsorted & Hout_perm).
  exists out. split; [done|]. split; [done|]. by rewrite Hout_perm.
Qed.

(** C2. For a comparator that is a total preorder, after any finite sequence
    of push, pop, replace, pushPop and heapify calls on a heap produced by
    the constructor, the backing array satisfies the heap invariant: every
    element precedes the elements at [2i+1] and [2i+2] where these exist. *)
Theorem heap_invariant_maintained (iterable : option (list T)) (calls : list (call (T := T))) :
  heap_invariant comparator
    (perform_all comparator (Heap_new comparator iterable) calls).
Proof.
  unfold perform_all.
  assert (Hstart : heap_invariant comparator (Heap_new comparator iterable))
    by apply (Heap_new_heap comparator Hcmp).
  revert Hstart. generalize (Heap_new comparator iterable) as _data.
  induction calls as [|c calls IH]; intros _data Hinv; simpl; [done|].
  by apply IH, perform_heap.
Qed.

(** C5. [pushPop(x)] on a heap: when the heap is empty or [x] compares
    strictly below the root, it returns [x] and leaves the heap as it is;
    otherwise it installs [x] in place of the root, restores the invariant
    and returns the previous root; in both cases the returned value precedes
    every element that remains. *)
Theorem pushPop_spec (item : T) (_data : list T) :
  heap_invariant comparator _data →
  ((_data = [] ∨ ∃ root, _data !! 0 = Some root ∧ (comparator item root < 0)%Z) →
     Heap_pushPop comparator item _data = (Some item, _data)) ∧
  (∀ root, _data !! 0 = Some root → ¬ (comparator item root < 0)%Z →
     (Heap_pushPop comparator item _data).1 = Some root ∧
     (Heap_pushPop comparator item _data).2 ≡ₚ item :: tail _data ∧
     heap_invariant comparator (Heap_pushPop comparator item _data).2) ∧
  (∃ returned, (Heap_pushPop comparator item _data).1 = Some returned ∧
     Forall (λ y, (comparator returned y ≤ 0)%Z) (Heap_pushPop comparator item _data).2).
Proof.
  intros Hinv. rewrite Heap_pushPop_value. split; [|split].
  - intros [-> | (root & Hroot & Hlt)]; [done|].
    rewrite Hroot. by rewrite (proj2 (Z.ltb_lt _ _) Hlt).
  - intros root Hroot Hge. rewrite Hroot.
    rewrite (proj2 (Z.ltb_ge _ _)) by lia. simpl.
    split; [done|]. split; [apply install_root_Permutation|by apply install_root_heap].
  - destruct (_data !! 0) as [root|] eqn:Hroot.
    + pose proof (heap_root_Forall comparator Hcmp _data root Hinv Hroot) as Hleast.
      destruct (Z.ltb_spec (comparator item root) 0) as [Hlt | Hge]; simpl.
      * exists item. split; [done|].
        eapply Forall_impl; [exact Hleast|]. intros y Hy. simpl in Hy.
        apply (comparator_trans _ Hcmp item root y); [lia | done].
      * exists root. split; [done|].
        rewrite install_root_Permutation. constructor.
        -- pose proof (comparator_flip comparator Hcmp item root). lia.
        -- destruct _data; [done|]. by apply Forall_cons in Hleast as [_ ?].
    + exists item. split; [done|]. destruct _data; [constructor | done].
Qed.

(** C9. [replace(x)] returns the previous root, or no value when the heap
    was empty, and leaves the array obtained by writing [x] at the root and
    sifting it down: the former elements without the old root, plus [x], in
    heap order. On an empty heap it returns no value and leaves [[x]]. *)
Theorem replace_spec (item : T) (_data : list T) :
  heap_invariant comparator _data →
  (Heap_replace comparator item _data).1 = _data !! 0 ∧
  (Heap_replace comparator item _data).2 =
    _siftDown comparator (Array_set _data 0 item) 0 (length (Array_set _data 0 item)) ∧
  (Heap_replace comparator item _data).2 ≡ₚ item :: tail _data ∧
  heap_invariant comparator (Heap_replace comparator item _data).2 ∧
  Heap_replace comparator item [] = (None, [item]).
Proof.
  intros Hinv. rewrite Heap_replace_value. simpl.
  split; [done|]. split; [done|]. split; [apply install_root_Permutation|].
  split; [by apply install_root_heap | done].
Qed.

End PopOrdering.

(** ** The selection algorithms return, and [_nsmallest] is stable *)

Section SelectionTotal.
Context {T : Type} (comparator : T → T → Z).

Lemma top_of_nonempty (result : list (T * Z)) :
  result ≠ [] → ∃ top, top_of result = Normal top.
Proof. destruct result as [|e rest]; [done|]. intros _. by exists e.1. Qed.

Lemma replace_nonempty (cmp : T * Z → T * Z → Z) (result : list (T * Z)) (entry : T * Z) :
  (_replace cmp result entry).2 ≠ [].
Proof.
  unfold _replace. simpl. intros Hnil. apply (f_equal length) in Hnil.
  rewrite siftDown_length, Array_set_root_length in Hnil. simpl in Hnil. lia.
Qed.

Lemma replace_Permutation (cmp : T * Z → T * Z → Z) (result : list (T * Z)) (entry : T * Z) :
  (_replace cmp result entry).2 ≡ₚ entry :: tail result.
Proof. apply install_root_Permutation. Qed.

Lemma heapify_nonempty (cmp : T * Z → T * Z → Z) (result : list (T * Z)) :
  result ≠ [] → _heapify cmp result ≠ [].
Proof.
  intros Hne Hnil. apply (f_equal length) in Hnil. rewrite heapify_length in Hnil.
  by destruct result.
Qed.

Lemma scan_smallest_returns (it : list T) (result : list (T * Z)) (top : T) (i : Z) :
  ∃ held, scan_smallest comparator it result top i = Normal held.
Proof.
  revert result top i.
  induction it as [|value it IH]; intros result top i; cbn [scan_smallest]; [by eexists|].
  destruct (comparator value top <? 0)%Z; [|apply IH]. cbv zeta.
  destruct (top_of_nonempty _ (replace_nonempty (negated (heapComparator comparator))
                                 result (value, i))) as [top' ->].
  apply IH.
Qed.

Lemma scan_largest_returns (it : list T) (result : list (T * Z)) (top : T) (i : Z) :
  ∃ held, scan_largest comparator it result top i = Normal held.
Proof.
  revert result top i.
  induction it as [|value it IH]; intros result top i; cbn [scan_largest]; [by eexists|].
  destruct (0 <? comparator value top)%Z; [|apply IH]. cbv zeta.
  destruct (top_of_nonempty _ (replace_nonempty (heapComparator comparator)
                                 result (value, i))) as [top' ->].
  apply IH.
Qed.

(** The first loop moves items only while the counter grows from [0]: a
    counter still at [0] means an empty result. *)
Lemma seed_counter (n : Z) (it : list T) (result : list (T * Z)) (i : Z) :
  (Z.of_nat (length (seed n it result i).1.1) - Z.of_nat (length result) =
   (seed n it result i).1.2 - i)%Z.
Proof.
  revert result i. induction it as [|value it IH]; intros result i; simpl; [lia|].
  destruct (i <? n)%Z; simpl; [|lia].
  pose proof (IH (Array_push result (value, i)) (i + 1)%Z) as Hrest.
  unfold Array_push in *. rewrite length_app in Hrest. simpl in Hrest. lia.
Qed.

Lemma nsmallest_returns (n : Z) (iterable : Iterable T) :
  ∃ result, _nsmallest comparator n iterable = Normal result.
Proof.
  unfold _nsmallest. destruct (n <=? 0)%Z; [by eexists|].
  destruct (covers n (len iterable)); [by eexists|].
  destruct (n =? 1)%Z; [destruct (iterate iterable); by eexists|].
  pose proof (seed_counter n (iterate iterable) [] 0) as Hcount.
  destruct (seed n (iterate iterable) [] 0%Z) as [[result i] it]. simpl in Hcount.
  destruct (Z.eqb_spec i 0) as [|Hi]; [by eexists|].
  assert (Hne : result ≠ []) by (destruct result; [simpl in Hcount; lia | done]).
  destruct (top_of_nonempty _ (heapify_nonempty (negated (heapComparator comparator))
                                 result Hne)) as [top ->].
  destruct (scan_smallest_returns it (_heapify (negated (heapComparator comparator)) result)
              top i) as [held ->].
  by eexists.
Qed.

Lemma nlargest_returns (n : Z) (iterable : Iterable T) :
  ∃ result, _nlargest comparator n iterable = Normal result.
Proof.
  unfold _nlargest. destruct (n <=? 0)%Z; [by eexists|].
  destruct (covers n (len iterable)); [by eexists|].
  destruct (n =? 1)%Z; [destruct (iterate iterable); by eexists|].
  pose proof (seed_counter n (iterate iterable) [] 0) as Hcount.
  destruct (seed n (iterate iterable) [] 0%Z) as [[result i] it]. simpl in Hcount.
  destruct (Z.eqb_spec i 0) as [|Hi]; [by eexists|].
  assert (Hne : result ≠ []) by (destruct result; [simpl in Hcount; lia | done]).
  destruct (top_of_nonempty _ (heapify_nonempty (heapComparator comparator)
                                 result Hne)) as [top ->].
  destruct (scan_largest_returns it (_heapify (heapComparator comparator) result)
              top i) as [held ->].
  by eexists.
Qed.

End SelectionTotal.

(** ** The algorithms see the elements through the comparator only

    Running an algorithm on elements that carry extra data, under a
    comparator that looks through a projection [f], and projecting the
    outcome, is running it on the projected elements. *)

Section Projection.
Context {A B : Type} (f : A → B) (cmpA : A → A → Z) (cmpB : B → B → Z).
Context (Hf : ∀ a a', cmpA a a' = cmpB (f a) (f a')).

Lemma lessAt_fmap (heap : list A) (i j : nat) :
  lessAt cmpB (f <$> heap) i j = lessAt cmpA heap i j.
Proof.
  unfold lessAt. rewrite !list_lookup_fmap.
  destruct (heap !! i), (heap !! j); simpl; by rewrite ?Hf.
Qed.

Lemma smallestIndex_fmap (heap : list A) (index len : nat) :
  smallestIndex cmpB (f <$> heap) index len = smallestIndex cmpA heap index len.
Proof. unfold smallestIndex. by rewrite !lessAt_fmap. Qed.

Lemma siftDown_loop_fmap (item : A) (heap : list A) (index len : nat) :
  siftDown_loop cmpB (f item) (f <$> heap) index len =
  f <$> siftDown_loop cmpA item heap index len.
Proof.
  remember (len - index) as k eqn:Hk. revert heap index Hk.
  induction k as [k IH] using lt_wf_ind. intros heap index Hk.
  rewrite (siftDown_loop_step cmpA), (siftDown_loop_step cmpB).
  destruct (decide (index < len)) as [Hlt|]; [|done]. cbv zeta.
  rewrite smallestIndex_fmap, list_lookup_fmap.
  pose proof (smallestIndex_bounds cmpA heap index len) as Hbounds.
  destruct (decide (smallestIndex cmpA heap index len = index)) as [|Hne]; [done|].
  destruct (heap !! smallestIndex cmpA heap index len) as [child|]; simpl; [|done].
  rewrite <-!list_fmap_insert.
  apply (IH (len - smallestIndex cmpA heap index len)); [lia | done].
Qed.

Lemma siftDown_fmap (heap : list A) (index len : nat) :
  _siftDown cmpB (f <$> heap) index len = f <$> _siftDown cmpA heap index len.
Proof.
  unfold _siftDown. rewrite list_lookup_fmap.
  destruct (heap !! index); simpl; [apply siftDown_loop_fmap | done].
Qed.

Lemma heapify_fmap (items : list A) :
  _heapify cmpB (f <$> items) = f <$> _heapify cmpA items.
Proof.
  unfold _heapify. rewrite length_fmap. generalize (length items / 2) as k.
  intros k. revert items. induction k as [|i IH]; intros items; simpl; [done|].
  by rewrite length_fmap, siftDown_fmap, IH.
Qed.

Lemma replace_fmap (heap : list A) (item : A) :
  (_replace cmpB (f <$> heap) (f item)).2 = f <$> (_replace cmpA heap item).2.
Proof.
  unfold _replace. simpl.
  assert (Hset : Array_set (f <$> heap) 0 (f item) = f <$> Array_set heap 0 item)
    by (by destruct heap).
  by rewrite Hset, length_fmap, siftDown_fmap.
Qed.

Lemma sort_insert_fmap (x : A) (sorted : list A) :
  sort_insert cmpB (f x) (f <$> sorted) = f <$> sort_insert cmpA x sorted.
Proof.
  induction sorted as [|y rest IH]; csimpl; [done|].
  rewrite <-Hf. destruct (cmpA x y <=? 0)%Z; csimpl; [done|]. by rewrite IH.
Qed.

Lemma Array_sort_fmap (arr : list A) :
  Array_sort cmpB (f <$> arr) = f <$> Array_sort cmpA arr.
Proof.
  induction arr as [|x arr IH]; csimpl; [done|].
  fold (Array_sort cmpB (f <$> arr)). fold (Array_sort cmpA arr).
  by rewrite IH, sort_insert_fmap.
Qed.

Lemma scan_min_fmap (min : A) (it : list A) :
  scan_min cmpB (f min) (f <$> it) = f (scan_min cmpA min it).
Proof.
  revert min. induction it as [|value it IH]; intros min; csimpl; [done|].
  rewrite <-Hf. destruct (cmpA value min <? 0)%Z; apply IH.
Qed.

End Projection.

Section ProjectedSelection.
Context {A B : Type} (f : A → B) (cmpA : A → A → Z) (cmpB : B → B → Z).
Context (Hf : ∀ a a', cmpA a a' = cmpB (f a) (f a')).

Abbreviation g := (prod_map f (@id Z)).

Lemma heapComparator_projected (e e' : A * Z) :
  heapComparator cmpA e e' = heapComparator cmpB (g e) (g e').
Proof. unfold heapComparator. destruct e, e'. simpl. by rewrite Hf. Qed.

Lemma negated_projected {X Y : Type} (h : X → Y) (cmpX : X → X → Z) (cmpY : Y → Y → Z) :
  (∀ x x', cmpX x x' = cmpY (h x) (h x')) →
  ∀ x x', negated cmpX x x' = negated cmpY (h x) (h x').
Proof. intros H x x'. unfold negated. by rewrite H. Qed.

Lemma seed_fmap (n : Z) (it : list A) (result : list (A * Z)) (i : Z) :
  seed n (f <$> it) (g <$> result) i =
  (g <$> (seed n it result i).1.1, (seed n it result i).1.2, f <$> (seed n it result i).2).
Proof.
  revert result i. induction it as [|value it IH]; intros result i; csimpl; [done|].
  destruct (i <? n)%Z; csimpl; [|done].
  rewrite <-IH. unfold Array_push. by rewrite fmap_app.
Qed.

Lemma top_of_fmap (result : list (A * Z)) :
  top_of (g <$> result) =
  match top_of result with Normal top => Normal (f top) | TypeError => TypeError end.
Proof. by destruct result as [|[a i] rest]. Qed.

Lemma scan_smallest_fmap (it : list A) (result : list (A * Z)) (top : A) (i : Z) :
  scan_smallest cmpB (f <$> it) (g <$> result) (f top) i =
  match scan_smallest cmpA it result top i with
  | Normal held => Normal (g <$> held)
  | TypeError => TypeError
  end.
Proof.
  revert result top i.
  induction it as [|value it IH]; intros result top i; cbn [scan_smallest fmap list_fmap]; [done|].
  rewrite <-Hf. destruct (cmpA value top <? 0)%Z; [|apply IH]. cbv zeta.
  change (f value, i) with (g (value, i)).
  rewrite (replace_fmap g (negated (heapComparator cmpA)) (negated (heapComparator cmpB)))
    by (apply negated_projected, heapComparator_projected).
  rewrite top_of_fmap. destruct (top_of _); [apply IH | done].
Qed.

Lemma nsmallest_fmap (n : Z) (itA : Iterable A) (itB : Iterable B) :
  iterate itB = f <$> iterate itA → len itB = len itA →
  _nsmallest cmpB n itB =
  match _nsmallest cmpA n itA with
  | Normal result => Normal (f <$> result)
  | TypeError => TypeError
  end.
Proof.
  intros Hit Hlen. unfold _nsmallest. rewrite Hit, Hlen.
  destruct (n <=? 0)%Z; [done|].
  destruct (covers n (len itA)).
  { rewrite (Array_sort_fmap f cmpA cmpB Hf). unfold Array_slice0.
    rewrite length_fmap. by destruct (n <? 0)%Z; rewrite fmap_take. }
  destruct (n =? 1)%Z.
  { destruct (iterate itA) as [|value it]; simpl; [done|].
    by rewrite (scan_min_fmap f cmpA cmpB Hf). }
  change (@nil (B * Z)) with (g <$> @nil (A * Z)). rewrite seed_fmap.
  destruct (seed n (iterate itA) [] 0%Z) as [[result i] it]. cbn [fst snd].
  destruct (i =? 0)%Z; [done|].
  rewrite (heapify_fmap g (negated (heapComparator cmpA)) (negated (heapComparator cmpB)))
    by (apply negated_projected, heapComparator_projected).
  rewrite top_of_fmap. destruct (top_of _) as [top|]; [|done].
  rewrite scan_smallest_fmap. destruct (scan_smallest cmpA _ _ _ _) as [held|]; [|done].
  rewrite (Array_sort_fmap g (heapComparator cmpA) (heapComparator cmpB))
    by apply heapComparator_projected.
  f_equal. rewrite <-!list_fmap_compose. by apply list_fmap_ext; intros ? [? ?].
Qed.

End ProjectedSelection.

Section Stability.
Context {T : Type} (comparator : T → T → Z) (Hcmp : Comparator comparator).

Lemma on_value_Comparator : Comparator (on_value comparator).
Proof.
  split; unfold on_value.
  - intros a b. apply (comparator_sign _ Hcmp).
  - intros a b c. apply (comparator_trans _ Hcmp).
Qed.

Lemma StronglySorted_lookup {A : Type} (R : A → A → Prop) (l : list A) (p q : nat) (a b : A) :
  StronglySorted R l → p < q → l !! p = Some a → l !! q = Some b → R a b.
Proof.
  intros Hsorted. revert p q.
  induction Hsorted as [|x l Hl IH Hall]; intros p q Hpq Ha Hb; [done|].
  destruct q as [|q]; [lia|]. simpl in Hb. destruct p as [|p]; simpl in Ha.
  - injection Ha as <-. by apply (proj1 (Forall_lookup _ _) Hall q).
  - apply (IH p q); [lia | done | done].
Qed.

(** *** The sorted branch *)

Lemma sort_insert_lex (x : T * nat) (sorted : list (T * nat)) :
  StronglySorted (lex_before comparator) sorted →
  Forall (λ y, x.2 < y.2) sorted →
  StronglySorted (lex_before comparator) (sort_insert (on_value comparator) x sorted).
Proof.
  induction 1 as [|y rest Hrest IH Hy]; intros Hlater; simpl; [by repeat constructor|].
  apply Forall_cons in Hlater as [Hxy Hlater]. unfold on_value at 1.
  destruct (Z.leb_spec (comparator x.1 y.1) 0) as [Hle | Hgt].
  - constructor; [by constructor|].
    assert (Hfirst : lex_before comparator x y) by (unfold lex_before; lia).
    constructor; [done|].
    apply Forall_forall. intros z Hz.
    pose proof (proj1 (Forall_forall _ _) Hy z Hz) as Hyz.
    pose proof (proj1 (Forall_forall _ _) Hlater z Hz) as Hxz.
    pose proof (comparator_trans _ Hcmp x.1 y.1 z.1).
    unfold lex_before in *. simpl in *. lia.
  - constructor; [by apply IH|].
    rewrite sort_insert_Permutation. constructor; [|done].
    pose proof (comparator_flip comparator Hcmp y.1 x.1). unfold lex_before. lia.
Qed.

Lemma Array_sort_lex (arr : list (T * nat)) :
  StronglySorted (λ a b : T * nat, a.2 < b.2) arr →
  StronglySorted (lex_before comparator) (Array_sort (on_value comparator) arr).
Proof.
  induction 1 as [|x arr Harr IH Hx]; simpl; [constructor|].
  apply sort_insert_lex; [done|]. by rewrite Array_sort_Permutation.
Qed.

Lemma zip_seq_increasing (items : list T) (k : nat) :
  StronglySorted (λ a b : T * nat, a.2 < b.2) (zip items (seq k (length items))) ∧
  Forall (λ e : T * nat, k ≤ e.2) (zip items (seq k (length items))).
Proof.
  revert k. induction items as [|x items IH]; intros k; simpl; [by split; constructor|].
  destruct (IH (S k)) as [Hsorted Hfrom]. split.
  - constructor; [done|]. eapply Forall_impl; [exact Hfrom|]. simpl. lia.
  - constructor; [simpl; lia|]. eapply Forall_impl; [exact Hfrom|]. simpl. lia.
Qed.

Lemma tagged_increasing (items : list T) :
  StronglySorted (λ a b : T * nat, a.2 < b.2) (tagged items).
Proof. apply zip_seq_increasing. Qed.

Lemma stable_of_lex (result : list (T * nat)) :
  StronglySorted (lex_before comparator) result → stable comparator result.
Proof.
  intros Hsorted p q a b Hpq Ha Hb Heq.
  destruct (StronglySorted_lookup _ _ p q a b Hsorted Hpq Ha Hb) as [Hlt | [_ Htag]]; [lia | done].
Qed.

Lemma stable_take (n : nat) (result : list (T * nat)) :
  stable comparator result → stable comparator (take n result).
Proof.
  intros Hstable p q a b Hpq Ha Hb.
  apply lookup_take_Some in Ha as [Ha _]. apply lookup_take_Some in Hb as [Hb _].
  by apply (Hstable p q).
Qed.

Lemma stable_short (result : list (T * nat)) :
  length result ≤ 1 → stable comparator result.
Proof. intros Hlen p q a b Hpq Ha Hb. apply lookup_lt_Some in Hb. lia. Qed.

(** *** The bounded-heap branch *)

Lemma held_ok_Permutation (result result' : list ((T * nat) * Z)) (i : Z)
    (rest : list (T * nat)) :
  result ≡ₚ result' → held_ok result i rest → held_ok result' i rest.
Proof.
  intros Hperm (Hdup & Hbelow & Horder & Hrest & Hsorted).
  split; [by rewrite <-Hperm|]. split; [|split; [|split; [|done]]].
  - intros e He. apply Hbelow. by rewrite Hperm.
  - intros e1 e2 H1 H2. apply Horder; by rewrite Hperm.
  - intros e v He. apply Hrest. by rewrite Hperm.
Qed.

Lemma held_ok_skip (result : list ((T * nat) * Z)) (i : Z) (value : T * nat)
    (rest : list (T * nat)) :
  held_ok result i (value :: rest) → held_ok result i rest.
Proof.
  intros (Hdup & Hbelow & Horder & Hrest & Hsorted).
  repeat split; try done.
  - intros e v He Hv. apply Hrest; [done|]. by apply elem_of_cons; right.
  - by inversion Hsorted.
Qed.

Lemma held_ok_add (result kept result' : list ((T * nat) * Z)) (i : Z) (value : T * nat)
    (rest : list (T * nat)) :
  held_ok result i (value :: rest) →
  NoDup kept.*2 → (∀ e, e ∈ kept → e ∈ result) →
  result' ≡ₚ (value, i) :: kept →
  held_ok result' (i + 1) rest.
Proof.
  intros (Hdup & Hbelow & Horder & Hrest & Hsorted) Hkept Hsub Hperm.
  apply (held_ok_Permutation ((value, i) :: kept)); [done|].
  inversion Hsorted as [|? ? Hsorted' Hlater]; subst.
  split; [|split; [|split; [|split; [|done]]]].
  - simpl. apply NoDup_cons. split; [|done].
    intros (e & Hi & He)%list_elem_of_fmap. apply Hsub, Hbelow in He. lia.
  - intros e [-> | He]%elem_of_cons; simpl; [lia|]. apply Hsub, Hbelow in He. lia.
  - intros e1 e2 [-> | H1]%elem_of_cons [-> | H2]%elem_of_cons; simpl.
    + lia.
    + intros Hlt. apply Hsub, Hbelow in H2. lia.
    + intros _. apply Hrest; [by apply Hsub|]. by apply elem_of_cons; left.
    + apply Horder; by apply Hsub.
  - intros e v [-> | He]%elem_of_cons Hv; simpl.
    + by apply (proj1 (Forall_forall _ _) Hlater).
    + apply Hrest; [by apply Hsub|]. by apply elem_of_cons; right.
Qed.

Lemma seed_held_ok (n : Z) (it : list (T * nat)) (result : list ((T * nat) * Z)) (i : Z) :
  held_ok result i it →
  held_ok (seed n it result i).1.1 (seed n it result i).1.2 (seed n it result i).2.
Proof.
  revert result i. induction it as [|value it IH]; intros result i Hok; simpl; [done|].
  destruct (i <? n)%Z; simpl; [|done].
  apply IH. apply (held_ok_add result result _ i value it); [done | apply Hok | done |].
  unfold Array_push. symmetry. apply Permutation_cons_append.
Qed.

Lemma scan_smallest_held_ok (it : list (T * nat)) (result : list ((T * nat) * Z))
    (top : T * nat) (i : Z) :
  held_ok result i it →
  ∃ held i', scan_smallest (on_value comparator) it result top i = Normal held ∧
             held_ok held i' [].
Proof.
  revert result top i.
  induction it as [|value it IH]; intros result top i Hok; cbn [scan_smallest]; [by eexists _, _|].
  destruct (on_value comparator value top <? 0)%Z; [|by eapply IH, held_ok_skip]. cbv zeta.
  destruct (top_of_nonempty _ (replace_nonempty (negated (heapComparator (on_value comparator)))
                                 result (value, i))) as [top' ->].
  apply IH. apply (held_ok_add result (tail result) _ i value it); [done | | |].
  - destruct Hok as [Hdup _]. destruct result; [done|]. simpl in *. by apply NoDup_cons in Hdup as [_ ?].
  - intros e He. destruct result; [done|]. by apply elem_of_cons; right.
  - apply replace_Permutation.
Qed.

Lemma held_sorted_stable (held : list ((T * nat) * Z)) (i : Z) :
  held_ok held i [] →
  stable comparator (Array_sort (heapComparator (on_value comparator)) held).*1.
Proof.
  intros (Hdup & _ & Horder & _).
  set (sorted := Array_sort (heapComparator (on_value comparator)) held).
  assert (Hperm : sorted ≡ₚ held) by apply Array_sort_Permutation.
  pose proof (heapComparator_Comparator _ on_value_Comparator) as Hheap.
  assert (Hsorted : StronglySorted (λ a b, (heapComparator (on_value comparator) a b ≤ 0)%Z) sorted).
  { apply Sorted_StronglySorted; [|by apply Array_sort_Sorted].
    intros a b c. apply (comparator_trans _ Hheap). }
  intros p q a b Hpq Ha Hb Heq.
  rewrite list_lookup_fmap in Ha, Hb.
  destruct (sorted !! p) as [ea|] eqn:Hea; [|done].
  destruct (sorted !! q) as [eb|] eqn:Heb; [|done].
  simpl in Ha, Hb. injection Ha as <-. injection Hb as <-.
  pose proof (StronglySorted_lookup _ _ p q ea eb Hsorted Hpq Hea Heb) as Hle.
  unfold heapComparator, on_value in Hle. rewrite Heq in Hle. simpl in Hle.
  assert (Hne : ea.2 ≠ eb.2).
  { intros Hsame. rewrite <-Hperm in Hdup.
    assert (p = q); [|lia].
    apply (NoDup_lookup _ _ _ ea.2 Hdup); rewrite list_lookup_fmap.
    - by rewrite Hea.
    - rewrite Heb. simpl. by rewrite Hsame. }
  apply Horder.
  - rewrite <-Hperm. by eapply list_elem_of_lookup_2.
  - rewrite <-Hperm. by eapply list_elem_of_lookup_2.
  - lia.
Qed.

Lemma held_ok_start (items : list T) : held_ok [] 0 (tagged items).
Proof.
  repeat split.
  - constructor.
  - intros e He. by apply elem_of_nil in He.
  - intros e1 e2 He. by apply elem_of_nil in He.
  - intros e v He. by apply elem_of_nil in He.
  - apply tagged_increasing.
Qed.

Lemma tagged_fst (items : list T) : (tagged items).*1 = items.
Proof. unfold tagged. apply fst_zip. by rewrite length_seq. Qed.

Lemma nsmallest_tagged (n : Z) (items : list T) (iterable : Iterable (T * nat)) :
  iterate iterable = tagged items →
  ∃ result, _nsmallest (on_value comparator) n iterable = Normal result ∧
            stable comparator result.
Proof.
  intros Hitems. unfold _nsmallest. rewrite Hitems.
  destruct (n <=? 0)%Z eqn:Hn; [eexists; split; [done|]; apply stable_short; simpl; lia|].
  destruct (covers n (len iterable)).
  { eexists; split; [done|]. unfold Array_slice0.
    replace (n <? 0)%Z with false by lia.
    apply stable_take, stable_of_lex, Array_sort_lex, tagged_increasing. }
  destruct (n =? 1)%Z.
  { destruct (tagged items); eexists; (split; [done|]); apply stable_short; simpl; lia. }
  pose proof (seed_held_ok n (tagged items) [] 0 (held_ok_start items)) as Hseed.
  pose proof (seed_counter n (tagged items) [] 0) as Hcount.
  destruct (seed n (tagged items) [] 0%Z) as [[result i] it]. simpl in Hseed, Hcount.
  destruct (Z.eqb_spec i 0) as [|Hi]; [eexists; split; [done|]; apply stable_short; simpl; lia|].
  assert (Hne : result ≠ []) by (destruct result; [simpl in Hcount; lia | done]).
  destruct (top_of_nonempty _ (heapify_nonempty (negated (heapComparator (on_value comparator)))
                                 result Hne)) as [top ->].
  destruct (scan_smallest_held_ok it
              (_heapify (negated (heapComparator (on_value comparator))) result) top i)
    as (held & i' & -> & Hheld).
  { eapply held_ok_Permutation; [|exact Hseed]. symmetry. apply heapify_Permutation. }
  eexists. split; [done|]. by eapply held_sorted_stable.
Qed.

(** C4. [nsmallest(n)], as the method of a heap over its array and as the
    free function over an array or over any other iterable, is stable: the
    array it returns lists the values of a selection [result] of the
    elements with their positions in the sequence, and among the elements of
    [result] that compare equal the ones that came earlier in the sequence
    stand before the ones that came later. *)
Theorem nsmallest_stable (n : Z) (items : list T) :
  (∃ result, stable comparator result ∧
     _nsmallest (on_value comparator) n (ArrayLike (tagged items)) = Normal result ∧
     _nsmallest comparator n (ArrayLike items) = Normal result.*1 ∧
     Heap_nsmallest comparator n items = Normal result.*1) ∧
  (∃ result, stable comparator result ∧
     _nsmallest (on_value comparator) n (Generic (tagged items)) = Normal result ∧
     _nsmallest comparator n (Generic items) = Normal result.*1).
Proof.
  split.
  - destruct (nsmallest_tagged n items (ArrayLike (tagged items)) eq_refl)
      as (result & Hrun & Hstable).
    assert (Hvalues : _nsmallest comparator n (ArrayLike items) = Normal result.*1).
    { rewrite (nsmallest_fmap fst (on_value comparator) comparator (λ _ _, eq_refl) n
                 (ArrayLike (tagged items)) (ArrayLike items)).
      - by rewrite Hrun.
      - simpl. by rewrite tagged_fst.
      - simpl. by rewrite <-(tagged_fst items) at 1; rewrite length_fmap. }
    by exists result.
  - destruct (nsmallest_tagged n items (Generic (tagged items)) eq_refl)
      as (result & Hrun & Hstable).
    exists result. split; [done|]. split; [done|].
    rewrite (nsmallest_fmap fst (on_value comparator) comparator (λ _ _, eq_refl) n
               (Generic (tagged items)) (Generic items)); [by rewrite Hrun | | done].
    simpl. by rewrite tagged_fst.
Qed.

End Stability.

(** ** Selections that take everything, and calls on empty structures *)

Section Selections.
Context {T : Type} (comparator : T → T → Z).

Lemma Heap_pushPop_facade_value (arr : list T) (item : T) :
  heapq_heapPushPop arr item comparator =
  match arr !! 0 with
  | None => (Some item, arr)
  | Some root =>
      if (comparator root item <? 0)%Z
      then (Some root,
            _siftDown comparator (Array_set arr 0 item) 0 (length (Array_set arr 0 item)))
      else (Some item, arr)
  end.
Proof.
  unfold heapq_heapPushPop, root_below.
  destruct arr as [|root rest]; simpl; [done|].
  by destruct (comparator root item <? 0)%Z.
Qed.

(** C8 (as the code has it). No call on an empty structure throws: on an
    empty heap [pop], [replace] and [peek] return no value, and [pushPop]
    returns the pushed item itself and leaves the heap empty; [peek] at a
    negative index or at an index past the end returns no value; the
    selections return an array for every [n] and every input, the empty array
    when [n <= 0] or when the input is empty. *)
Theorem empty_structure_calls (item : T) (index n : Z) (_data : list T)
    (iterable : Iterable T) :
  Heap_pop comparator [] = (None, []) ∧
  (Heap_replace comparator item []).1 = None ∧
  Heap_peek index ([] : list T) = None ∧
  Heap_pushPop comparator item [] = (Some item, []) ∧
  ((index < 0 ∨ Z.of_nat (length _data) ≤ index)%Z → Heap_peek index _data = None) ∧
  ((n ≤ 0)%Z ∨ iterate iterable = [] →
     _nsmallest comparator n iterable = Normal [] ∧
     _nlargest comparator n iterable = Normal []) ∧
  (∃ smallest largest,
     _nsmallest comparator n iterable = Normal smallest ∧
     _nlargest comparator n iterable = Normal largest).
Proof.
  split; [done|]. split; [done|].
  split; [unfold Heap_peek; rewrite lookup_nil; by destruct (_ || _)|].
  split; [done|]. split; [|split].
  - intros Hout. unfold Heap_peek.
    destruct (Z.ltb_spec index 0), (Z.leb_spec (Z.of_nat (length _data)) index); simpl;
      try done; lia.
  - intros [Hn | Hempty]; unfold _nsmallest, _nlargest.
    + by rewrite (proj2 (Z.leb_le _ _) Hn).
    + destruct (n <=? 0)%Z; [done|]. rewrite Hempty.
      destruct (covers n (len iterable)).
      { unfold Array_slice0. simpl. by destruct (n <? 0)%Z; rewrite ?take_nil. }
      by destruct (n =? 1)%Z.
  - destruct (nsmallest_returns comparator n iterable) as [smallest ?].
    destruct (nlargest_returns comparator n iterable) as [largest ?]. by exists smallest, largest.
Qed.

Context (Hcmp : Comparator comparator).

(** C6 (as the code has it). [heapq.heapPushPop(arr, x, cmp)] and
    [pushPop(x)] on a heap over the same array return the same value and
    leave the same array whenever [x] does not compare equal to the root (and
    on the empty array). When [x] compares equal to the root they differ:
    [heapPushPop] returns [x] and leaves the array as it is, [pushPop] puts
    [x] in place of the root and returns the old root. *)
Theorem heapPushPop_agreement (arr : list T) (item : T) :
  ((∀ root, arr !! 0 = Some root → comparator item root ≠ 0%Z) →
     heapq_heapPushPop arr item comparator = Heap_pushPop comparator item arr) ∧
  (∀ root, arr !! 0 = Some root → comparator item root = 0%Z →
     heapq_heapPushPop arr item comparator = (Some item, arr) ∧
     Heap_pushPop comparator item arr =
       (Some root,
        _siftDown comparator (Array_set arr 0 item) 0 (length (Array_set arr 0 item)))).
Proof.
  rewrite Heap_pushPop_facade_value, Heap_pushPop_value. split.
  - intros Hne. destruct (arr !! 0) as [root|]; [|done].
    specialize (Hne root eq_refl).
    pose proof (comparator_flip comparator Hcmp item root).
    pose proof (comparator_flip comparator Hcmp root item).
    destruct (Z.ltb_spec (comparator root item) 0), (Z.ltb_spec (comparator item root) 0);
      try done; lia.
  - intros root -> Heq.
    pose proof (comparator_flip comparator Hcmp item root).
    destruct (Z.ltb_spec (comparator root item) 0), (Z.ltb_spec (comparator item root) 0);
      try done; lia.
Qed.

(** C7. For a heap holding [length] elements and every [n >= length],
    [nsmallest(n)] returns all the elements sorted in ascending order and
    [nlargest(n)] returns all of them sorted in descending order: the result
    is a rearrangement of the array, never padded, and never an error. *)
Theorem selection_of_everything (n : Z) (_data : list T) :
  (Z.of_nat (length _data) ≤ n)%Z →
  ∃ ascending descending,
    Heap_nsmallest comparator n _data = Normal ascending ∧
    Heap_nlargest comparator n _data = Normal descending ∧
    ascending = Array_sort comparator _data ∧
    Sorted (λ a b, (comparator a b ≤ 0)%Z) ascending ∧ ascending ≡ₚ _data ∧
    Sorted (λ a b, (comparator b a ≤ 0)%Z) descending ∧ descending ≡ₚ _data.
Proof.
  intros Hn.
  exists (Array_sort comparator _data), (Array_sort (negated comparator) _data).
  assert (Hsel : ∀ cmp : T → T → Z,
            (if (n <=? 0)%Z then Normal []
             else if covers n (len (ArrayLike _data))
                  then Normal (Array_slice0 n (Array_sort cmp _data))
                  else @TypeError (list T)) = Normal (Array_sort cmp _data)).
  { intros cmp. destruct (Z.leb_spec n 0) as [Hle | Hgt].
    - destruct _data; [done | simpl in Hn; lia].
    - simpl. rewrite (proj2 (Z.leb_le _ _) Hn). unfold Array_slice0.
      replace (n <? 0)%Z with false by lia.
      rewrite take_ge; [done|]. rewrite Array_sort_length. lia. }
  split; [|split].
  - unfold Heap_nsmallest, _nsmallest. cbv zeta. rewrite <-(Hsel comparator).
    destruct (n <=? 0)%Z; [done|]. by destruct (covers n (len (ArrayLike _data))) eqn:Hc;
      [|simpl in Hc; apply Z.leb_gt in Hc; lia].
  - unfold Heap_nlargest, _nlargest. cbv zeta. rewrite <-(Hsel (negated comparator)).
    destruct (n <=? 0)%Z; [done|]. by destruct (covers n (len (ArrayLike _data))) eqn:Hc;
      [|simpl in Hc; apply Z.leb_gt in Hc; lia].
  - split; [done|]. split; [by apply Array_sort_Sorted|].
    split; [apply Array_sort_Permutation|]. split; [|apply Array_sort_Permutation].
    pose proof (Array_sort_Sorted (negated comparator) (negated_Comparator _ Hcmp) _data) as Hs.
    eapply Sorted_weaken; [|exact Hs].
    intros a b Hab. unfold negated in Hab.
    pose proof (comparator_flip comparator Hcmp a b). pose proof (comparator_flip comparator Hcmp b a).
    lia.
Qed.

End Selections.

(** ** Concrete runs *)

Section Examples.
Open Scope Z_scope.

Lemma heap_358 : heap_invariant defaultComparator [3; 5; 8].
Proof.
  intros i parent child Hparent.
  destruct i as [|[|[|i]]]; simplify_eq/=; split; intros Hchild; simplify_eq/=; done.
Qed.

Lemma heap_1357 : heap_invariant defaultComparator [1; 3; 5; 7].
Proof.
  intros i parent child Hparent.
  destruct i as [|[|[|[|i]]]]; simplify_eq/=; split; intros Hchild; simplify_eq/=; done.
Qed.

(** The scenarios of the specification. *)
Example scenario_heapify :
  Heap_new defaultComparator (Some [4; 2; 7; 1; 9]) !! 0%nat = Some 1 ∧
  drain defaultComparator (Heap_new defaultComparator (Some [4; 2; 7; 1; 9])) =
    [Some 1; Some 2; Some 4; Some 7; Some 9].
Proof. split; vm_compute; reflexivity. Qed.

Example scenario_selection :
  Heap_nsmallest defaultComparator 3 (Heap_new defaultComparator (Some [4; 2; 7; 1; 9])) =
    Normal [1; 2; 4] ∧
  Heap_nlargest defaultComparator 3 (Heap_new defaultComparator (Some [4; 2; 7; 1; 9])) =
    Normal [9; 7; 4].
Proof. split; vm_compute; reflexivity. Qed.

Example scenario_pushPop :
  Heap_pushPop defaultComparator 1 [3; 5; 8] = (Some 1, [3; 5; 8]) ∧
  Heap_pushPop defaultComparator 4 [3; 5; 8] = (Some 3, [4; 5; 8]).
Proof. split; vm_compute; reflexivity. Qed.

Example scenario_bounds :
  _nsmallest defaultComparator 0 (ArrayLike [7; 7; 1]) = Normal [] ∧
  _nsmallest defaultComparator 100 (ArrayLike [5; 3]) = Normal [3; 5] ∧
  Heap_replace defaultComparator 7 [] = (None, [7]).
Proof. repeat split; vm_compute; reflexivity. Qed.

Lemma pop_ordering_witness :
  Comparator defaultComparator ∧
  ∃ out, drain defaultComparator (Heap_new defaultComparator (Some [4; 2; 7; 1; 9])) =
           Some <$> out ∧
         Sorted (λ a b, defaultComparator a b ≤ 0) out ∧ out ≡ₚ [4; 2; 7; 1; 9].
Proof.
  split; [exact defaultComparator_Comparator|].
  apply (pop_ordering defaultComparator defaultComparator_Comparator [4; 2; 7; 1; 9]).
  left. reflexivity.
Defined.

Lemma heap_invariant_maintained_witness :
  Comparator defaultComparator ∧
  heap_invariant defaultComparator
    (perform_all defaultComparator (Heap_new defaultComparator (Some [4; 2; 7; 1; 9]))
       [CallPush 3; CallPop; CallReplace 8; CallPushPop 0; CallPushPop 6;
        CallHeapify (Some [5; 0]); CallPop]).
Proof.
  split; [exact defaultComparator_Comparator|].
  apply (heap_invariant_maintained defaultComparator defaultComparator_Comparator).
Defined.

Lemma pushPop_spec_witness :
  heap_invariant defaultComparator [3; 5; 8] ∧
  ∃ returned, (Heap_pushPop defaultComparator 4 [3; 5; 8]).1 = Some returned ∧
    Forall (λ y, defaultComparator returned y ≤ 0) (Heap_pushPop defaultComparator 4 [3; 5; 8]).2.
Proof.
  split; [exact heap_358|].
  apply (pushPop_spec defaultComparator defaultComparator_Comparator 4 [3; 5; 8] heap_358).
Defined.

Lemma replace_spec_witness :
  heap_invariant defaultComparator [1; 3; 5; 7] ∧
  (Heap_replace defaultComparator 4 [1; 3; 5; 7]).1 = Some 1 ∧
  heap_invariant defaultComparator (Heap_replace defaultComparator 4 [1; 3; 5; 7]).2.
Proof.
  split; [exact heap_1357|].
  pose proof (replace_spec defaultComparator defaultComparator_Comparator 4 [1; 3; 5; 7] heap_1357)
    as (Hvalue & _ & _ & Hinv & _).
  split; [exact Hvalue | exact Hinv].
Defined.

Lemma nsmallest_stable_witness :
  Comparator defaultComparator ∧
  ∃ result, stable defaultComparator result ∧
    Heap_nsmallest defaultComparator 3 [5; 3; 5; 3; 1; 3] = Normal result.*1.
Proof.
  split; [exact defaultComparator_Comparator|].
  destruct (nsmallest_stable defaultComparator defaultComparator_Comparator 3 [5; 3; 5; 3; 1; 3])
    as [(result & Hstable & _ & _ & Hrun) _].
  exists result. split; [exact Hstable | exact Hrun].
Defined.

Lemma empty_structure_calls_witness :
  Heap_peek (-1) [3; 5; 8] = None ∧
  _nsmallest defaultComparator 0 (ArrayLike [3; 5; 8]) = Normal [] ∧
  _nlargest defaultComparator 0 (ArrayLike [3; 5; 8]) = Normal [].
Proof.
  pose proof (empty_structure_calls defaultComparator 7 (-1) 0 [3; 5; 8] (ArrayLike [3; 5; 8]))
    as (_ & _ & _ & _ & Hpeek & Hselect & _).
  split; [apply Hpeek; left; lia | apply Hselect; left; lia].
Defined.

Lemma heapPushPop_agreement_witness :
  Comparator byKey ∧
  heapq_heapPushPop [(3, 0); (5, 1); (8, 2)] (4, 3) byKey =
  Heap_pushPop byKey (4, 3) [(3, 0); (5, 1); (8, 2)].
Proof.
  split; [exact (keyComparator_Comparator fst)|].
  apply (heapPushPop_agreement byKey (keyComparator_Comparator fst)).
  intros root Hroot. simpl in Hroot. injection Hroot as <-. vm_compute. discriminate.
Defined.

Lemma selection_of_everything_witness :
  Z.of_nat (length [5; 3]) ≤ 100 ∧
  ∃ ascending descending,
    Heap_nsmallest defaultComparator 100 [5; 3] = Normal ascending ∧
    Heap_nlargest defaultComparator 100 [5; 3] = Normal descending ∧
    ascending = Array_sort defaultComparator [5; 3] ∧
    Sorted (λ a b, defaultComparator a b ≤ 0) ascending ∧ ascending ≡ₚ [5; 3] ∧
    Sorted (λ a b, defaultComparator b a ≤ 0) descending ∧ descending ≡ₚ [5; 3].
Proof.
  split; [simpl; lia|].
  apply (selection_of_everything defaultComparator defaultComparator_Comparator 100 [5; 3]).
  simpl. lia.
Defined.

(** C3. [nlargest] is not stable on the bounded-heap branch. Of three
    elements that compare equal, [nlargest(2)] returns the second before the
    first, while [nlargest(3)], which takes the sorted branch, returns them
    in their original order. *)
Theorem nlargest_ties_reversed :
  _nlargest (on_value defaultComparator) 2 (ArrayLike (tagged [1; 1; 1])) =
    Normal [(1, 1%nat); (1, 0%nat)] ∧
  ¬ stable defaultComparator [(1, 1%nat); (1, 0%nat)] ∧
  Heap_nlargest (on_value defaultComparator) 2
    (Heap_new (on_value defaultComparator) (Some (tagged [1; 1; 1]))) =
    Normal [(1, 1%nat); (1, 0%nat)] ∧
  _nlargest (on_value defaultComparator) 3 (ArrayLike (tagged [1; 1; 1])) =
    Normal [(1, 0%nat); (1, 1%nat); (1, 2%nat)].
Proof.
  split; [reflexivity|]. split; [|split; reflexivity].
  intros Hstable.
  specialize (Hstable 0%nat 1%nat (1, 1%nat) (1, 0%nat)). simpl in Hstable.
  assert (1 < 0)%nat; [|lia]. apply Hstable; [lia | done | done | done].
Qed.

(** C6, refuted as stated: on a root that compares equal to the pushed item
    the facade and the method return different values and leave different
    arrays. *)
Lemma heapPushPop_differs_on_tie :
  heapq_heapPushPop [(1, 0)] (1, 1) byKey = (Some (1, 1), [(1, 0)]) ∧
  Heap_pushPop byKey (1, 1) [(1, 0)] = (Some (1, 0), [(1, 1)]) ∧
  heapq_heapPushPop [(1, 0)] (1, 1) byKey ≠ Heap_pushPop byKey (1, 1) [(1, 0)].
Proof. split; [reflexivity|]. split; [reflexivity|]. vm_compute. discriminate. Qed.

(** C8, refuted as stated: [pushPop] on an empty heap does not return the
    "no value" sentinel, it returns the pushed item. *)
Lemma pushPop_on_empty_returns_item :
  Heap_pushPop defaultComparator 5 [] = (Some 5, []) ∧
  (Heap_pushPop defaultComparator 5 []).1 ≠ None.
Proof. split; [reflexivity | discriminate]. Qed.

End Examples.


(** ** The queries of the class leave the store as it was *)

Section StoreProofs.
Context {T : Type} (comparator : T → T → Z).

Lemma scan_smallest_held (it : list T) (result : list (T * Z)) (top : T) (i : Z) :
  scan_smallest comparator it result top i =
  scan_held (λ value top, (comparator value top <? 0)%Z)
    (negated (heapComparator comparator)) it result top i.
Proof.
  revert result top i.
  induction it as [|value it IH]; intros result top i; cbn [scan_smallest scan_held]; [done|].
  destruct (comparator value top <? 0)%Z; [|apply IH]. cbv zeta.
  destruct (top_of _); [apply IH | done].
Qed.

Lemma scan_largest_held (it : list T) (result : list (T * Z)) (top : T) (i : Z) :
  scan_largest comparator it result top i =
  scan_held (λ value top, (0 <? comparator value top)%Z)
    (heapComparator comparator) it result top i.
Proof.
  revert result top i.
  induction it as [|value it IH]; intros result top i; cbn [scan_largest scan_held]; [done|].
  destruct (0 <? comparator value top)%Z; [|apply IH]. cbv zeta.
  destruct (top_of _); [apply IH | done].
Qed.

Lemma items_of_insert_ne (σ : gmap nat (cell (T := T))) (this l : nat) (c : cell) :
  this ≠ l → items_of (<[l := c]> σ) this = items_of σ this.
Proof. intros Hne. unfold items_of. by rewrite lookup_insert_ne. Qed.

Lemma items_of_insert (σ : gmap nat (cell (T := T))) (l : nat) (items : list T) :
  items_of (<[l := Items items]> σ) l = items.
Proof. unfold items_of. by rewrite lookup_insert_eq. Qed.

Lemma items_of_lookup (σ : gmap nat (cell (T := T))) (l : nat) (items : list T) :
  σ !! l = Some (Items items) → items_of σ l = items.
Proof. unfold items_of. by intros ->. Qed.

Lemma entries_of_insert (σ : gmap nat (cell (T := T))) (l : nat) (entries : list (T * Z)) :
  entries_of (<[l := Entries entries]> σ) l = entries.
Proof. unfold entries_of. by rewrite lookup_insert_eq. Qed.

Lemma update_entries_insert (f : list (T * Z) → list (T * Z)) (σ : gmap nat (cell (T := T)))
    (l : nat) (entries : list (T * Z)) :
  update_entries f l (<[l := Entries entries]> σ) = <[l := Entries (f entries)]> σ.
Proof. unfold update_entries. by rewrite entries_of_insert, insert_insert_eq. Qed.

Lemma update_items_insert (f : list T → list T) (σ : gmap nat (cell (T := T)))
    (l : nat) (items : list T) :
  update_items f l (<[l := Items items]> σ) = <[l := Items (f items)]> σ.
Proof. unfold update_items. by rewrite items_of_insert, insert_insert_eq. Qed.

(** An allocation returns a location that no earlier store knows, and
    changes no array of an earlier store. *)
Lemma alloc_spec (c : cell (T := T)) (σ0 σ : gmap nat cell) :
  σ0 ⊆ σ →
  ∃ ret, alloc c σ = (ret, <[ret := c]> σ) ∧ σ !! ret = None ∧ σ0 !! ret = None ∧
         σ0 ⊆ <[ret := c]> σ.
Proof.
  intros Hsub. exists (fresh (dom σ)). split; [done|].
  assert (Hfresh : σ !! fresh (dom σ) = None) by (apply not_elem_of_dom, is_fresh).
  assert (Hfresh0 : σ0 !! fresh (dom σ) = None).
  { destruct (σ0 !! fresh (dom σ)) as [c'|] eqn:Hc; [|done].
    by rewrite (lookup_weaken _ _ _ _ Hc Hsub) in Hfresh. }
  split; [done|]. split; [done|]. by apply insert_subseteq_r.
Qed.

Lemma seed_loop_spec (turns : nat) (n : Z) (this pos result : nat) (i : Z)
    (σ : gmap nat cell) (data : list T) (held : list (T * Z)) :
  this ≠ result → σ !! this = Some (Items data) → pos ≤ length data →
  (n - i ≤ Z.of_nat turns)%Z →
  ∃ pos',
    seed_loop turns n this pos result i (<[result := Entries held]> σ) =
      (<[result := Entries (seed n (drop pos data) held i).1.1]> σ, pos',
       (seed n (drop pos data) held i).1.2) ∧
    drop pos' data = (seed n (drop pos data) held i).2.
Proof.
  intros Hne Hthis. revert pos held i.
  induction turns as [|turns IH]; intros pos held i Hpos Hturns; cbn [seed_loop].
  - exists pos. destruct (drop pos data) as [|value rest] eqn:Hdrop; simpl; [done|].
    by replace (i <? n)%Z with false by lia.
  - rewrite items_of_insert_ne, (items_of_lookup _ _ _ Hthis) by done.
    destruct (data !! pos) as [value|] eqn:Hvalue.
    + rewrite (drop_S _ _ _ Hvalue). simpl.
      destruct (i <? n)%Z eqn:Hi; [|exists pos; by rewrite (drop_S _ _ _ Hvalue)].
      rewrite update_entries_insert.
      apply lookup_lt_Some in Hvalue.
      destruct (IH (S pos) (Array_push held (value, i)) (i + 1)%Z) as (pos' & Hrun & Hrest);
        [lia | lia |].
      exists pos'. by rewrite Hrun.
    + apply lookup_ge_None in Hvalue. rewrite (drop_ge _ _ Hvalue). simpl.
      exists pos. split; [by destruct (i <? n)%Z | by apply drop_ge].
Qed.

Lemma scan_loop_spec (accepts : T → T → bool) (cmp : T * Z → T * Z → Z) (fuel : nat)
    (this pos result : nat) (top : T) (i : Z) (σ : gmap nat cell) (data : list T)
    (held : list (T * Z)) :
  this ≠ result → σ !! this = Some (Items data) → length data - pos < fuel →
  scan_loop accepts cmp fuel this pos result top i (<[result := Entries held]> σ) =
  Some match scan_held accepts cmp (drop pos data) held top i with
       | Normal held' => Normal (<[result := Entries held']> σ)
       | TypeError => TypeError
       end.
Proof.
  intros Hne Hthis. revert pos held top i.
  induction fuel as [|fuel IH]; intros pos held top i Hfuel; [lia|]. cbn [scan_loop].
  rewrite items_of_insert_ne, (items_of_lookup _ _ _ Hthis) by done.
  destruct (data !! pos) as [value|] eqn:Hvalue.
  - rewrite (drop_S _ _ _ Hvalue). cbn [scan_held].
    apply lookup_lt_Some in Hvalue.
    destruct (accepts value top); [|apply IH; lia]. cbv zeta.
    rewrite update_entries_insert, entries_of_insert.
    destruct (top_of _); [apply IH; lia | done].
  - apply lookup_ge_None in Hvalue. by rewrite (drop_ge _ _ Hvalue).
Qed.

Lemma sort_method_spec (this : nat) (σ : gmap nat cell) (data : list T) :
  σ !! this = Some (Items data) →
  ∃ ret σ', sort_method comparator this σ = (ret, σ') ∧
            σ !! ret = None ∧ σ ⊆ σ' ∧
            σ' !! ret = Some (Items (Array_sort comparator data)).
Proof.
  intros Hthis. unfold sort_method. rewrite (items_of_lookup _ _ _ Hthis).
  destruct (alloc_spec (Items data) σ σ) as (copy & -> & Hfresh & _ & _); [done|].
  rewrite update_items_insert. eexists _, _. split; [done|]. split; [done|].
  split; [by apply insert_subseteq | by rewrite lookup_insert_eq].
Qed.

Lemma nsmallest_method_spec (n : Z) (this : nat) (σ : gmap nat cell) (data : list T) :
  σ !! this = Some (Items data) →
  ∃ ret σ' out, nsmallest_method comparator n this σ = Some (Normal (ret, σ')) ∧
                σ !! ret = None ∧ σ ⊆ σ' ∧ σ' !! ret = Some (Items out) ∧
                Heap_nsmallest comparator n data = Normal out.
Proof.
  intros Hthis.
  destruct (nsmallest_returns comparator n (ArrayLike data)) as [out Hout].
  unfold Heap_nsmallest. rewrite Hout. revert Hout.
  unfold nsmallest_method, _nsmallest. rewrite (items_of_lookup _ _ _ Hthis). cbn [len iterate covers].
  destruct (n <=? 0)%Z.
  { intros [= <-]. destruct (alloc_spec (Items []) σ σ) as (ret & -> & Hret & _ & Hsub); [done|].
    eexists _, _, _. repeat split; [done | done | by rewrite lookup_insert_eq]. }
  destruct (Z.of_nat (length data) <=? n)%Z.
  { intros [= <-].
    destruct (alloc_spec (Items data) σ σ) as (arr & -> & Harr & _ & Hsub); [done|].
    rewrite update_items_insert, items_of_insert.
    destruct (alloc_spec (Items (Array_slice0 n (Array_sort comparator data))) σ
                (<[arr := Items (Array_sort comparator data)]> σ))
      as (ret & -> & _ & Hret & Hsub'); [by apply insert_subseteq|].
    eexists _, _, _. repeat split; [done | done | by rewrite lookup_insert_eq]. }
  destruct (n =? 1)%Z.
  { destruct data as [|value it]; intros [= <-].
    - destruct (alloc_spec (Items []) σ σ) as (ret & -> & Hret & _ & Hsub); [done|].
      eexists _, _, _. repeat split; [done | done | by rewrite lookup_insert_eq].
    - destruct (alloc_spec (Items [scan_min comparator value it]) σ σ)
        as (ret & -> & Hret & _ & Hsub); [done|].
      eexists _, _, _. repeat split; [done | done | by rewrite lookup_insert_eq]. }
  destruct (alloc_spec (Entries []) σ σ) as (result & -> & Hresult & _ & _); [done|].
  assert (Hne : this ≠ result) by (intros ->; by rewrite Hthis in Hresult).
  destruct (seed_loop_spec (Z.to_nat n) n this 0 result 0 σ data [] Hne Hthis)
    as (pos & -> & Hrest); [lia | lia |].
  rewrite drop_0 in Hrest |- *.
  destruct (seed n data [] 0%Z) as [[held i] rest]. cbn [fst snd] in *. subst rest.
  assert (Hfinish : ∀ (held' : list (T * Z)) (items : list T),
            ∃ ret, alloc (Items items) (<[result := Entries held']> σ) =
                     (ret, <[ret := Items items]> (<[result := Entries held']> σ)) ∧
                   σ !! ret = None ∧ σ ⊆ <[ret := Items items]> (<[result := Entries held']> σ)).
  { intros held' items.
    destruct (alloc_spec (Items items) σ (<[result := Entries held']> σ))
      as (ret & Hret & _ & Hfresh & Hsub); [by apply insert_subseteq|]. by exists ret. }
  destruct (i =? 0)%Z.
  { intros [= <-]. destruct (Hfinish held []) as (ret & -> & Hret & Hsub).
    eexists _, _, _. repeat split; [done | done | by rewrite lookup_insert_eq]. }
  rewrite update_entries_insert, entries_of_insert.
  destruct (top_of (_heapify (negated (heapComparator comparator)) held)) as [top|]; [|done].
  rewrite (scan_loop_spec _ _ _ _ _ _ _ _ _ data _ Hne Hthis) by lia.
  rewrite scan_smallest_held.
  destruct (scan_held _ _ _ _ _ _) as [held'|]; [|done]. intros [= <-].
  rewrite update_entries_insert, entries_of_insert.
  destruct (Hfinish (Array_sort (heapComparator comparator) held') (Array_sort (heapComparator comparator) held').*1)
    as (ret & -> & Hret & Hsub).
  eexists _, _, _. repeat split; [done | done | by rewrite lookup_insert_eq].
Qed.

Lemma nlargest_method_spec (n : Z) (this : nat) (σ : gmap nat cell) (data : list T) :
  σ !! this = Some (Items data) →
  ∃ ret σ' out, nlargest_method comparator n this σ = Some (Normal (ret, σ')) ∧
                σ !! ret = None ∧ σ ⊆ σ' ∧ σ' !! ret = Some (Items out) ∧
                Heap_nlargest comparator n data = Normal out.
Proof.
  intros Hthis.
  destruct (nlargest_returns comparator n (ArrayLike data)) as [out Hout].
  unfold Heap_nlargest. rewrite Hout. revert Hout.
  unfold nlargest_method, _nlargest. rewrite (items_of_lookup _ _ _ Hthis). cbn [len iterate covers].
  destruct (n <=? 0)%Z.
  { intros [= <-]. destruct (alloc_spec (Items []) σ σ) as (ret & -> & Hret & _ & Hsub); [done|].
    eexists _, _, _. repeat split; [done | done | by rewrite lookup_insert_eq]. }
  destruct (Z.of_nat (length data) <=? n)%Z.
  { intros [= <-].
    destruct (alloc_spec (Items data) σ σ) as (arr & -> & Harr & _ & Hsub); [done|].
    rewrite update_items_insert, items_of_insert.
    destruct (alloc_spec (Items (Array_slice0 n (Array_sort (negated comparator) data))) σ
                (<[arr := Items (Array_sort (negated comparator) data)]> σ))
      as (ret & -> & _ & Hret & Hsub'); [by apply insert_subseteq|].
    eexists _, _, _. repeat split; [done | done | by rewrite lookup_insert_eq]. }
  destruct (n =? 1)%Z.
  { destruct data as [|value it]; intros [= <-].
    - destruct (alloc_spec (Items []) σ σ) as (ret & -> & Hret & _ & Hsub); [done|].
      eexists _, _, _. repeat split; [done | done | by rewrite lookup_insert_eq].
    - destruct (alloc_spec (Items [scan_max comparator value it]) σ σ)
        as (ret & -> & Hret & _ & Hsub); [done|].
      eexists _, _, _. repeat split; [done | done | by rewrite lookup_insert_eq]. }
  destruct (alloc_spec (Entries []) σ σ) as (result & -> & Hresult & _ & _); [done|].
  assert (Hne : this ≠ result) by (intros ->; by rewrite Hthis in Hresult).
  destruct (seed_loop_spec (Z.to_nat n) n this 0 result 0 σ data [] Hne Hthis)
    as (pos & -> & Hrest); [lia | lia |].
  rewrite drop_0 in Hrest |- *.
  destruct (seed n data [] 0%Z) as [[held i] rest]. cbn [fst snd] in *. subst rest.
  assert (Hfinish : ∀ (held' : list (T * Z)) (items : list T),
            ∃ ret, alloc (Items items) (<[result := Entries held']> σ) =
                     (ret, <[ret := Items items]> (<[result := Entries held']> σ)) ∧
                   σ !! ret = None ∧ σ ⊆ <[ret := Items items]> (<[result := Entries held']> σ)).
  { intros held' items.
    destruct (alloc_spec (Items items) σ (<[result := Entries held']> σ))
      as (ret & Hret & _ & Hfresh & Hsub); [by apply insert_subseteq|]. by exists ret. }
  destruct (i =? 0)%Z.
  { intros [= <-]. destruct (Hfinish held []) as (ret & -> & Hret & Hsub).
    eexists _, _, _. repeat split; [done | done | by rewrite lookup_insert_eq]. }
  rewrite update_entries_insert, entries_of_insert.
  destruct (top_of (_heapify (heapComparator comparator) held)) as [top|]; [|done].
  rewrite (scan_loop_spec _ _ _ _ _ _ _ _ _ data _ Hne Hthis) by lia.
  rewrite scan_largest_held.
  destruct (scan_held _ _ _ _ _ _) as [held'|]; [|done]. intros [= <-].
  rewrite update_entries_insert, entries_of_insert.
  destruct (Hfinish (Array_sort (negated (heapComparator comparator)) held') (Array_sort (negated (heapComparator comparator)) held').*1)
    as (ret & -> & Hret & Hsub).
  eexists _, _, _. repeat split; [done | done | by rewrite lookup_insert_eq].
Qed.

Context (Hcmp : Comparator comparator).

(** C10. On every heap and for every [n], [sort()], [nsmallest(n)] and
    [nlargest(n)] leave the backing array of the heap as it was, elements
    and order (and with it every other array that existed before the call);
    each returns a newly allocated array, which for [sort()] holds all the
    elements of the heap in comparator order. *)
Theorem queries_leave_heap_unchanged (n : Z) (this : nat) (σ : gmap nat cell)
    (_data : list T) :
  σ !! this = Some (Items _data) →
  (∃ ret σ' sorted,
     sort_method comparator this σ = (ret, σ') ∧
     σ !! ret = None ∧ σ ⊆ σ' ∧ σ' !! this = Some (Items _data) ∧
     σ' !! ret = Some (Items sorted) ∧
     Sorted (λ a b, (comparator a b ≤ 0)%Z) sorted ∧ sorted ≡ₚ _data) ∧
  (∃ ret σ' smallest,
     nsmallest_method comparator n this σ = Some (Normal (ret, σ')) ∧
     σ !! ret = None ∧ σ ⊆ σ' ∧ σ' !! this = Some (Items _data) ∧
     σ' !! ret = Some (Items smallest) ∧
     Heap_nsmallest comparator n _data = Normal smallest) ∧
  (∃ ret σ' largest,
     nlargest_method comparator n this σ = Some (Normal (ret, σ')) ∧
     σ !! ret = None ∧ σ ⊆ σ' ∧ σ' !! this = Some (Items _data) ∧
     σ' !! ret = Some (Items largest) ∧
     Heap_nlargest comparator n _data = Normal largest).
Proof.
  intros Hthis. split; [|split].
  - destruct (sort_method_spec this σ _data Hthis) as (ret & σ' & Hrun & Hret & Hsub & Hsorted).
    exists ret, σ', (Array_sort comparator _data).
    split; [done|]. split; [done|]. split; [done|].
    split; [by apply (lookup_weaken σ)|]. split; [done|].
    split; [by apply Array_sort_Sorted | apply Array_sort_Permutation].
  - destruct (nsmallest_method_spec n this σ _data Hthis)
      as (ret & σ' & out & Hrun & Hret & Hsub & Hout & Hpure).
    exists ret, σ', out. repeat split; try done. by apply (lookup_weaken σ).
  - destruct (nlargest_method_spec n this σ _data Hthis)
      as (ret & σ' & out & Hrun & Hret & Hsub & Hout & Hpure).
    exists ret, σ', out. repeat split; try done. by apply (lookup_weaken σ).
Qed.

End StoreProofs.

Section StoreExamples.
Open Scope Z_scope.

Lemma queries_leave_heap_unchanged_witness :
  ∃ ret σ' sorted,
    sort_method defaultComparator 0 {[ 0%nat := Items [1; 2; 7; 4; 9] ]} = (ret, σ') ∧
    σ' !! 0%nat = Some (Items [1; 2; 7; 4; 9]) ∧
    σ' !! ret = Some (Items sorted) ∧ sorted ≡ₚ [1; 2; 7; 4; 9].
Proof.
  destruct (queries_leave_heap_unchanged defaultComparator defaultComparator_Comparator 3 0
              {[ 0%nat := Items [1; 2; 7; 4; 9] ]} [1; 2; 7; 4; 9])
    as [(ret & σ' & sorted & Hrun & _ & _ & Hthis & Hret & _ & Hperm) _].
  { reflexivity. }
  exists ret, σ', sorted. split; [exact Hrun|]. split; [exact Hthis|]. split; [exact Hret | exact Hperm].
Defined.

Example sort_method_run :
  sort_method defaultComparator 0 {[ 0%nat := Items [4; 2; 7; 1; 9] ]} =
  (1%nat, {[ 0%nat := Items [4; 2; 7; 1; 9]; 1%nat := Items [1; 2; 4; 7; 9] ]}).
Proof. vm_compute. reflexivity. Qed.

Example nsmallest_method_run :
  (λ r, match r with
        | Some (Normal (ret, σ')) => Some (items_of σ' ret, items_of σ' 0%nat)
        | _ => None
        end)
    (nsmallest_method defaultComparator 3 0 {[ 0%nat := Items [1; 2; 7; 4; 9] ]}) =
  Some ([1; 2; 4], [1; 2; 7; 4; 9]).
Proof. vm_compute. reflexivity. Qed.

End StoreExamples.

(** ** Single calls on a heap *)

Section HeapLaws.
Context {T : Type} (comparator : T → T → Z) (Hcmp : Comparator comparator).

(** A node that precedes its children stays where it is. *)
Lemma smallestIndex_settled (heap : list T) (index len : nat) :
  node_ok comparator heap index → smallestIndex comparator heap index len = index.
Proof.
  intros Hok. unfold smallestIndex, lessAt.
  destruct (heap !! index) as [item|] eqn:Hitem.
  - assert (Hleft : (2 * index + 1 <? len) &&
              match heap !! (2 * index + 1) with
              | Some a => (comparator a item <? 0)%Z
              | None => false
              end = false).
    { destruct (heap !! (2 * index + 1)) as [l|] eqn:Hl; [|by rewrite andb_false_r].
      pose proof (Hok (2 * index + 1) item l (or_introl eq_refl) Hitem Hl).
      pose proof (comparator_flip comparator Hcmp l item).
      rewrite (proj2 (Z.ltb_ge (comparator l item) 0)) by lia. by rewrite andb_false_r. }
    rewrite Hleft. cbv iota. rewrite Hitem.
    destruct (heap !! (2 * index + 1 + 1)) as [r|] eqn:Hr; [|by rewrite andb_false_r].
    assert (Hright : 2 * index + 1 + 1 = 2 * index + 2) by lia.
    pose proof (Hok (2 * index + 1 + 1) item r (or_intror Hright) Hitem Hr).
    pose proof (comparator_flip comparator Hcmp r item).
    rewrite (proj2 (Z.ltb_ge (comparator r item) 0)) by lia. by rewrite andb_false_r.
  - destruct (heap !! (2 * index + 1)); rewrite ?andb_false_r; cbv iota;
      rewrite ?Hitem; destruct (heap !! (2 * index + 1 + 1)); by rewrite ?andb_false_r.
Qed.

Lemma siftDown_settled (heap : list T) (index len : nat) :
  node_ok comparator heap index → _siftDown comparator heap index len = heap.
Proof.
  intros Hok. unfold _siftDown. destruct (heap !! index) as [item|]; [|done].
  rewrite siftDown_loop_step. destruct (decide (index < len)); [|done]. cbv zeta.
  by rewrite smallestIndex_settled, decide_True.
Qed.

Lemma heapify_loop_settled (k : nat) (heap : list T) :
  heap_from comparator 0 heap → heapify_loop comparator k heap = heap.
Proof.
  intros Hheap. induction k as [|i IH]; simpl; [done|].
  rewrite siftDown_settled; [done|]. apply Hheap. lia.
Qed.

(** X1. [_heapify] (and with it [heapq.heapify] and [heapify()] without
    arguments) turns any array into a rearrangement of itself, of the same
    length, that satisfies the heap invariant. *)
Theorem heapify_rearranges (items : list T) :
  _heapify comparator items ≡ₚ items ∧
  length (_heapify comparator items) = length items ∧
  heap_invariant comparator (_heapify comparator items) ∧
  heapq_heapify items comparator = _heapify comparator items ∧
  Heap_heapify comparator None items = _heapify comparator items.
Proof.
  split; [apply heapify_Permutation|]. split; [apply heapify_length|].
  split; [by apply heapify_heap | done].
Qed.

(** X2. On an array that already satisfies the heap invariant [_heapify]
    changes nothing: heapifying twice is heapifying once, [heapify()] on a
    heap leaves its array as it is, and [clone()] of a heap holds the same
    array contents. *)
Theorem heapify_settled (items _data : list T) :
  _heapify comparator (_heapify comparator items) = _heapify comparator items ∧
  (heap_invariant comparator _data →
     _heapify comparator _data = _data ∧
     Heap_heapify comparator None _data = _data ∧
     Heap_clone comparator _data = _data).
Proof.
  assert (Hfix : ∀ heap, heap_invariant comparator heap → _heapify comparator heap = heap).
  { intros heap Hinv. apply heapify_loop_settled. by apply heap_invariant_from. }
  split; [by apply Hfix, heapify_heap|].
  intros Hinv. unfold Heap_clone, Heap_new, Heap_heapify. by rewrite !Hfix.
Qed.

(** X3. [peek()] on a heap that satisfies the invariant returns an element
    that precedes every element of the heap; [peek(i)] inside the bounds
    returns the array element at [i], and on a heap that is not empty
    [peek()] returns a value. *)
Theorem peek_least (_data : list T) (index : Z) :
  heap_invariant comparator _data →
  (∀ root, Heap_peek 0 _data = Some root →
     Forall (λ x, (comparator root x ≤ 0)%Z) _data) ∧
  ((0 ≤ index < Z.of_nat (length _data))%Z →
     Heap_peek index _data = _data !! Z.to_nat index ∧ is_Some (Heap_peek index _data)).
Proof.
  intros Hinv. split.
  - intros root Hroot. unfold Heap_peek in Hroot.
    destruct (_ || _); [done|]. by apply heap_root_Forall.
  - intros Hin. unfold Heap_peek.
    rewrite (proj2 (Z.ltb_ge index 0)), (proj2 (Z.leb_gt (Z.of_nat (length _data)) index))
      by lia.
    split; [done|]. apply lookup_lt_is_Some. lia.
Qed.

(** X4. [pop()] on a heap that is not empty returns the root, which precedes
    every element of the heap, and leaves a heap with exactly the other
    elements, one element shorter. *)
Theorem pop_returns_least (_data : list T) :
  heap_invariant comparator _data → _data ≠ [] →
  ∃ root, (Heap_pop comparator _data).1 = Some root ∧
          _data !! 0 = Some root ∧
          Forall (λ x, (comparator root x ≤ 0)%Z) _data ∧
          root :: (Heap_pop comparator _data).2 ≡ₚ _data ∧
          length (Heap_pop comparator _data).2 = length _data - 1 ∧
          heap_invariant comparator (Heap_pop comparator _data).2.
Proof.
  intros Hinv Hne.
  destruct (Heap_pop_Permutation comparator _data Hne) as (root & Hroot & Hfirst & Hperm).
  exists root. split; [done|]. split; [done|].
  split; [by apply heap_root_Forall|]. split; [done|].
  split; [apply Heap_pop_length | by apply Heap_pop_heap].
Qed.

(** X5. [heapq.heapPop(arr, cmp)] returns the same value and leaves the same
    array as [pop()] on a heap over that array, for every array. *)
Theorem heapPop_is_pop (arr : list T) :
  heapq_heapPop arr comparator = Heap_pop comparator arr.
Proof.
  destruct (decide (arr = [])) as [-> | Hne]; [done|].
  apply last_is_Some in Hne as [last Hlast]. apply last_Some in Hlast as [front ->].
  rewrite Heap_pop_snoc. unfold heapq_heapPop, Array_pop.
  rewrite length_app, last_snoc. simpl.
  replace (length front + 1 - 1) with (length front) by lia. rewrite take_app_length.
  destruct (length front + 1 =? 0) eqn:H0; [apply Nat.eqb_eq in H0; lia|].
  by destruct front.
Qed.

(** *** The root after a push *)

Lemma lift_ready_above (item : T) (heap : list T) (index : nat) (root : T) :
  lift_ready comparator item index heap → heap !! 0 = Some root →
  ∀ j x, j < index → heap !! j = Some x → (comparator root x ≤ 0)%Z.
Proof.
  intros (Haway & _ & _) Hroot j.
  induction j as [j IH] using lt_wf_ind. intros x Hj Hx.
  destruct (decide (j = 0)) as [-> | Hpos].
  { rewrite Hroot in Hx. injection Hx as <-. by apply comparator_refl. }
  assert (Hjpos : 0 < j) by lia.
  pose proof (parent_child j Hjpos) as Hpc.
  destruct (lookup_lt_is_Some_2 heap ((j - 1) / 2)) as [y Hy].
  { apply lookup_lt_Some in Hx. lia. }
  apply (comparator_trans _ Hcmp root y x).
  - apply (IH ((j - 1) / 2)); [lia | lia | done].
  - apply (Haway ((j - 1) / 2) j); [lia | lia | lia | done | done].
Qed.

Lemma lift_ready_step (item parent : T) (heap : list T) (index : nat) :
  0 < index → index < length heap →
  heap !! ((index - 1) / 2) = Some parent → (comparator item parent < 0)%Z →
  lift_ready comparator item index heap →
  lift_ready comparator item ((index - 1) / 2) (<[index := parent]> heap).
Proof.
  intros Hpos Hlt Hparent Hless (Haway & Hbelow & Hgrand).
  pose proof (parent_child index Hpos) as Hpc.
  set (up := (index - 1) / 2) in *. split; [|split].
  - intros p c a b Hc Hp Hcu Ha Hb.
    destruct (decide (c = index)) as [-> | Hci]; [lia|].
    rewrite list_lookup_insert_ne in Hb by done.
    destruct (decide (p = index)) as [-> | Hpi].
    + rewrite list_lookup_insert_eq in Ha by done. injection Ha as <-.
      by apply (Hgrand up c).
    + rewrite list_lookup_insert_ne in Ha by done. by apply (Haway p c).
  - intros c b Hc Hb.
    destruct (decide (c = index)) as [-> | Hci].
    + rewrite list_lookup_insert_eq in Hb by done. injection Hb as <-. lia.
    + rewrite list_lookup_insert_ne in Hb by done.
      apply (comparator_trans _ Hcmp item parent b); [lia|].
      apply (Haway up c); auto. lia.
  - intros q c a b Hq Hc Ha Hb.
    rewrite list_lookup_insert_ne in Ha by lia.
    assert (Hqp : (comparator a parent ≤ 0)%Z) by (apply (Haway q up); auto; lia).
    destruct (decide (c = index)) as [-> | Hci].
    + rewrite list_lookup_insert_eq in Hb by done. by injection Hb as <-.
    + rewrite list_lookup_insert_ne in Hb by done.
      apply (comparator_trans _ Hcmp a parent b); [done|].
      apply (Haway up c); auto. lia.
Qed.

Lemma siftUp_loop_root (item : T) (heap : list T) (index : nat) (root : T) :
  0 < index → index < length heap →
  lift_ready comparator item index heap → heap !! 0 = Some root →
  siftUp_loop comparator item heap index !! 0 =
  Some (if (comparator item root <? 0)%Z then item else root).
Proof.
  revert heap. induction index as [index IH] using lt_wf_ind.
  intros heap Hpos Hlt Hready Hroot.
  rewrite siftUp_loop_step, decide_True by done.
  pose proof (parent_child index Hpos) as Hpc.
  destruct (lookup_lt_is_Some_2 heap ((index - 1) / 2)) as [parent Hparent]; [lia|].
  rewrite Hparent.
  assert (Hup_lt : (index - 1) / 2 < index) by lia.
  pose proof (lift_ready_above item heap index root Hready Hroot _ parent Hup_lt Hparent)
    as Hrp.
  pose proof (comparator_flip comparator Hcmp item parent).
  pose proof (comparator_flip comparator Hcmp item root).
  pose proof (comparator_flip comparator Hcmp root item).
  pose proof (comparator_trans _ Hcmp root parent item).
  pose proof (comparator_trans _ Hcmp item root parent).
  destruct (Z.leb_spec 0 (comparator item parent)) as [Hge | Hless].
  - rewrite list_lookup_insert_ne by lia. rewrite Hroot.
    by rewrite (proj2 (Z.ltb_ge (comparator item root) 0)) by lia.
  - destruct (decide ((index - 1) / 2 = 0)) as [Hzero | Hup].
    + rewrite Hzero in *. rewrite Hroot in Hparent. injection Hparent as <-.
      rewrite siftUp_loop_step, decide_False by lia.
      rewrite list_lookup_insert_eq by (rewrite length_insert; lia).
      by rewrite (proj2 (Z.ltb_lt (comparator item root) 0)).
    + apply IH; [lia | lia | rewrite length_insert; lia | by apply lift_ready_step |].
      by rewrite list_lookup_insert_ne by lia.
Qed.

Lemma Heap_push_root (item : T) (_data : list T) :
  heap_invariant comparator _data →
  Heap_push comparator item _data !! 0 =
  Some match _data !! 0 with
       | Some root => if (comparator item root <? 0)%Z then item else root
       | None => item
       end.
Proof.
  intros Hinv. rewrite (Heap_push_loop comparator).
  destruct _data as [|root rest] eqn:Hdata; [done|]. rewrite <-Hdata.
  replace (_data !! 0) with (Some root) by (by rewrite Hdata).
  apply siftUp_loop_root.
  - rewrite Hdata. simpl. lia.
  - rewrite length_app. simpl. lia.
  - rewrite Hdata. by apply snoc_lift_ready.
  - by rewrite Hdata.
Qed.

(** X6. [push(item)] (and [heapq.heapPush]) adds exactly the item: the array
    grows by one and is a rearrangement of the old elements and the item. On
    a heap the invariant is kept and the new root is the item when it
    compares strictly below the old root, and the old root otherwise. *)
Theorem push_adds_item (item : T) (_data : list T) :
  Heap_push comparator item _data ≡ₚ item :: _data ∧
  length (Heap_push comparator item _data) = S (length _data) ∧
  heapq_heapPush _data item comparator = Heap_push comparator item _data ∧
  (heap_invariant comparator _data →
     heap_invariant comparator (Heap_push comparator item _data) ∧
     Heap_push comparator item _data !! 0 =
       Some match _data !! 0 with
            | Some root => if (comparator item root <? 0)%Z then item else root
            | None => item
            end).
Proof.
  split; [apply Heap_push_Permutation|].
  split; [by rewrite Heap_push_Permutation|]. split; [done|].
  intros Hinv. split; [by apply Heap_push_heap | by apply Heap_push_root].
Qed.

(** X7. [replace(item)] returns what [pop()] returns and leaves the same
    elements as [pop()] followed by [push(item)], on every array (on the
    empty one: no value, and the single item). *)
Theorem replace_is_pop_then_push (item : T) (_data : list T) :
  (Heap_replace comparator item _data).1 = (Heap_pop comparator _data).1 ∧
  (Heap_replace comparator item _data).2 ≡ₚ
    Heap_push comparator item (Heap_pop comparator _data).2.
Proof.
  rewrite Heap_replace_value, Heap_push_Permutation, install_root_Permutation. simpl.
  destruct (decide (_data = [])) as [-> | Hne]; [done|].
  destruct (Heap_pop_Permutation comparator _data Hne) as (root & -> & Hfirst & Hperm).
  split; [done|]. apply perm_skip.
  destruct _data as [|first rest]; [done|]. simpl in *. injection Hfirst as ->.
  by apply Permutation_cons_inv in Hperm.
Qed.

(** X8. On a heap, [pushPop(item)] returns the value that [push(item)]
    followed by [pop()] returns, and leaves the same elements. *)
Theorem pushPop_is_push_then_pop (item : T) (_data : list T) :
  heap_invariant comparator _data →
  (Heap_pushPop comparator item _data).1 =
    (Heap_pop comparator (Heap_push comparator item _data)).1 ∧
  (Heap_pushPop comparator item _data).2 ≡ₚ
    (Heap_pop comparator (Heap_push comparator item _data)).2.
Proof.
  intros Hinv.
  assert (Hne : Heap_push comparator item _data ≠ []).
  { intros Hnil. pose proof (Heap_push_Permutation comparator item _data) as Hperm.
    rewrite Hnil in Hperm. by apply Permutation_nil_cons in Hperm. }
  destruct (Heap_pop_Permutation comparator _ Hne) as (root & -> & Hfirst & Hperm).
  rewrite Heap_push_root in Hfirst by done. injection Hfirst as Hroot.
  pose proof (Heap_push_Permutation comparator item _data) as Hpush.
  apply (Permutation_trans Hperm) in Hpush. clear Hperm. rename Hpush into Hperm.
  rewrite Heap_pushPop_value.
  destruct _data as [|first rest]; simpl in *.
  - subst root. split; [done|]. symmetry. by apply Permutation_cons_inv in Hperm.
  - destruct (comparator item first <? 0)%Z; subst root; simpl.
    + split; [done|]. symmetry. by apply Permutation_cons_inv in Hperm.
    + split; [done|]. rewrite siftDown_Permutation. unfold Array_set. simpl.
      rewrite perm_swap in Hperm. symmetry. by apply Permutation_cons_inv in Hperm.
Qed.

End HeapLaws.

(** ** What a selection selects *)

Section SelectionValues.
Context {T : Type}.

Lemma seed_values (n : Z) (it : list T) (result : list (T * Z)) (i : Z) :
  (seed n it result i).1.1.*1 ++ (seed n it result i).2 = result.*1 ++ it.
Proof.
  revert result i. induction it as [|value it IH]; intros result i; simpl; [done|].
  destruct (i <? n)%Z; simpl; [|done].
  rewrite IH. unfold Array_push. rewrite fmap_app. simpl. by rewrite <-app_assoc.
Qed.

Lemma seed_length (n : Z) (it : list T) (result : list (T * Z)) (i : Z) :
  length (seed n it result i).1.1 =
  length result + Nat.min (Z.to_nat (n - i)) (length it).
Proof.
  revert result i. induction it as [|value it IH]; intros result i; simpl; [lia|].
  destruct (Z.ltb_spec i n); simpl; [|lia].
  rewrite IH. unfold Array_push. rewrite length_app. simpl. lia.
Qed.

(** The bounded-heap loop for a value order [vc] in which larger is better:
    the heap order [hcmp] puts a [vc]-least held entry at the root, and the
    loop accepts a value that is strictly [vc]-above the root. *)
Section Held.
Context (vc : T → T → Z) (Hvc : Comparator vc).
Context (hcmp : T * Z → T * Z → Z) (Hhcmp : Comparator hcmp).
Context (Hrefine : ∀ e e', (hcmp e e' ≤ 0)%Z → (vc e.1 e'.1 ≤ 0)%Z).
Context (accepts : T → T → bool).
Context (Haccepts : ∀ value top, accepts value top = true ↔ (0 < vc value top)%Z).

Lemma scan_held_select (it : list T) (held : list (T * Z)) (top : T) (i : Z)
    (out : list T) :
  heap_invariant hcmp held → top_of held = Normal top →
  (∀ d h, d ∈ out → h ∈ held → (vc d h.1 ≤ 0)%Z) →
  ∃ held' out',
    scan_held accepts hcmp it held top i = Normal held' ∧
    length held' = length held ∧
    held'.*1 ++ out' ≡ₚ held.*1 ++ out ++ it ∧
    (∀ d h, d ∈ out' → h ∈ held' → (vc d h.1 ≤ 0)%Z).
Proof.
  revert held top i out.
  induction it as [|value it IH]; intros held top i out Hinv Htop Hout; cbn [scan_held].
  { exists held, out. by rewrite app_nil_r. }
  destruct held as [|root rest] eqn:Hheld; [done|]. rewrite <-Hheld in *.
  assert (Hroot : held !! 0 = Some root) by (by rewrite Hheld).
  assert (Htop' : top = root.1) by (rewrite Hheld in Htop; by injection Htop).
  pose proof (heap_root_Forall hcmp Hhcmp held root Hinv Hroot) as Hleast.
  assert (Hworst : ∀ h, h ∈ held → (vc top h.1 ≤ 0)%Z).
  { intros h Hh. rewrite Htop'. apply Hrefine.
    by apply (proj1 (Forall_forall _ _) Hleast). }
  pose proof (comparator_flip vc Hvc value top) as Hflip.
  pose proof (comparator_flip vc Hvc top value) as Hflip'.
  destruct (accepts value top) eqn:Hacc.
  - apply Haccepts in Hacc. cbv zeta.
    set (held1 := (_replace hcmp held (value, i)).2).
    assert (Hperm1 : held1 ≡ₚ (value, i) :: rest).
    { unfold held1. rewrite replace_Permutation. by rewrite Hheld. }
    assert (Hinv1 : heap_invariant hcmp held1)
      by exact (install_root_heap hcmp Hhcmp held (value, i) Hinv).
    destruct (top_of held1) as [top1|] eqn:Htop1;
      [|destruct held1; [by apply Permutation_nil_cons in Hperm1 | done]].
    destruct (IH held1 top1 (i + 1)%Z (top :: out) Hinv1 Htop1)
      as (held' & out' & Hrun & Hlen & Hperm & Hout').
    { intros d h [-> | Hd]%elem_of_cons Hh; rewrite Hperm1 in Hh;
        apply elem_of_cons in Hh as [-> | Hh]; simpl.
      - lia.
      - apply Hworst. rewrite Hheld. by apply elem_of_cons; right.
      - apply (comparator_trans _ Hvc d top value); [|lia].
        rewrite Htop'. apply Hout; [done|]. rewrite Hheld. by apply elem_of_cons; left.
      - apply Hout; [done|]. rewrite Hheld. by apply elem_of_cons; right. }
    exists held', out'. split; [done|]. split.
    { rewrite Hlen, Hperm1, Hheld. done. }
    split; [|done]. rewrite Hperm, Hperm1, Hheld, Htop'. simpl. solve_Permutation.
  - assert (Hno : ¬ (0 < vc value top)%Z) by (intros H%Haccepts; congruence).
    destruct (IH held top i (value :: out) Hinv Htop)
      as (held' & out' & Hrun & Hlen & Hperm & Hout').
    { intros d h [-> | Hd]%elem_of_cons Hh.
      - apply (comparator_trans _ Hvc value top h.1); [lia | by apply Hworst].
      - by apply Hout. }
    exists held', out'. split; [done|]. split; [done|]. split; [|done].
    rewrite Hperm. solve_Permutation.
Qed.

(** The whole bounded-heap branch, with [fcmp] the comparator of the final
    sort, which lists [vc]-better entries first. *)
Lemma heap_branch_selects (fcmp : T * Z → T * Z → Z) (n : Z) (items : list T) :
  Comparator fcmp → (∀ e e', (fcmp e e' ≤ 0)%Z → (vc e'.1 e.1 ≤ 0)%Z) →
  (seed n items [] 0%Z).1.2 ≠ 0%Z →
  ∃ top held out,
    top_of (_heapify hcmp (seed n items [] 0%Z).1.1) = Normal top ∧
    scan_held accepts hcmp (seed n items [] 0%Z).2
      (_heapify hcmp (seed n items [] 0%Z).1.1) top (seed n items [] 0%Z).1.2 = Normal held ∧
    (Array_sort fcmp held).*1 ++ out ≡ₚ items ∧
    length (Array_sort fcmp held).*1 = Nat.min (Z.to_nat n) (length items) ∧
    Sorted (λ x y, (vc y x ≤ 0)%Z) (Array_sort fcmp held).*1 ∧
    (∀ x y, x ∈ (Array_sort fcmp held).*1 → y ∈ out → (vc y x ≤ 0)%Z).
Proof.
  intros Hfcmp Hfinal Hcount.
  pose proof (seed_values n items [] 0) as Hvalues.
  pose proof (seed_length n items [] 0) as Hlength.
  pose proof (seed_counter n items [] 0) as Hcounter.
  destruct (seed n items [] 0%Z) as [[held0 i] rest]. simpl in *.
  assert (Hne : held0 ≠ []) by (destruct held0; [simpl in Hcounter; lia | done]).
  destruct (top_of_nonempty _ (heapify_nonempty hcmp held0 Hne)) as [top Htop].
  destruct (scan_held_select rest (_heapify hcmp held0) top i [])
    as (held & out & Hrun & Hlen & Hperm & Hout).
  { by apply heapify_heap. }
  { done. }
  { intros d h Hd. by apply elem_of_nil in Hd. }
  exists top, held, out. split; [done|]. split; [done|]. split; [|split; [|split]].
  - rewrite (Array_sort_Permutation fcmp held), Hperm, heapify_Permutation. simpl.
    by rewrite Hvalues.
  - rewrite length_fmap, Array_sort_length, Hlen, heapify_length, Hlength.
    simpl. by rewrite Z.sub_0_r.
  - eapply (Sorted_fmap fst (λ e e', (fcmp e e' ≤ 0)%Z)); [|by apply Array_sort_Sorted].
    intros e e'. apply Hfinal.
  - intros x y Hx Hy. rewrite (Array_sort_Permutation fcmp held) in Hx.
    apply list_elem_of_fmap in Hx as (h & -> & Hh). by apply Hout.
Qed.

End Held.

End SelectionValues.

Section SelectionCorrect.
Context {T : Type} (comparator : T → T → Z) (Hcmp : Comparator comparator).

Lemma scan_min_least (min : T) (it : list T) :
  ∃ rest, scan_min comparator min it :: rest ≡ₚ min :: it ∧
          (comparator (scan_min comparator min it) min ≤ 0)%Z ∧
          Forall (λ y, (comparator (scan_min comparator min it) y ≤ 0)%Z) rest.
Proof.
  revert min. induction it as [|value it IH]; intros min; simpl.
  { exists []. split; [done|]. split; [by apply comparator_refl | constructor]. }
  pose proof (comparator_flip comparator Hcmp value min).
  destruct (Z.ltb_spec (comparator value min) 0) as [Hlt | Hge].
  - destruct (IH value) as (rest & Hperm & Hle & Hall).
    pose proof (comparator_trans _ Hcmp (scan_min comparator value it) value min).
    exists (min :: rest). split; [rewrite (perm_swap _ _ rest), Hperm; first [done | apply perm_swap]|].
    split; [lia|]. constructor; [lia | done].
  - destruct (IH min) as (rest & Hperm & Hle & Hall).
    pose proof (comparator_trans _ Hcmp (scan_min comparator min it) min value).
    exists (value :: rest). split; [rewrite (perm_swap _ _ rest), Hperm; first [done | apply perm_swap]|].
    split; [done|]. constructor; [lia | done].
Qed.

Lemma scan_max_greatest (max : T) (it : list T) :
  ∃ rest, scan_max comparator max it :: rest ≡ₚ max :: it ∧
          (comparator max (scan_max comparator max it) ≤ 0)%Z ∧
          Forall (λ y, (comparator y (scan_max comparator max it) ≤ 0)%Z) rest.
Proof.
  revert max. induction it as [|value it IH]; intros max; simpl.
  { exists []. split; [done|]. split; [by apply comparator_refl | constructor]. }
  pose proof (comparator_flip comparator Hcmp value max).
  destruct (Z.ltb_spec 0 (comparator value max)) as [Hgt | Hle'].
  - destruct (IH value) as (rest & Hperm & Hle & Hall).
    pose proof (comparator_trans _ Hcmp max value (scan_max comparator value it)).
    exists (max :: rest). split; [rewrite (perm_swap _ _ rest), Hperm; first [done | apply perm_swap]|].
    split; [lia|]. constructor; [lia | done].
  - destruct (IH max) as (rest & Hperm & Hle & Hall).
    pose proof (comparator_trans _ Hcmp value max (scan_max comparator max it)).
    exists (value :: rest). split; [rewrite (perm_swap _ _ rest), Hperm; first [done | apply perm_swap]|].
    split; [done|]. constructor; [lia | done].
Qed.

Lemma heapComparator_value (cmp : T → T → Z) (e e' : T * Z) :
  ((heapComparator cmp e e' ≤ 0)%Z → (cmp e.1 e'.1 ≤ 0)%Z) ∧
  ((0 ≤ heapComparator cmp e e')%Z → (0 ≤ cmp e.1 e'.1)%Z).
Proof. unfold heapComparator. destruct (Z.eqb_spec (cmp e.1 e'.1) 0); lia. Qed.

(** X9. [_nsmallest] (behind [nsmallest(n)] of a heap and [heapq.nsmallest])
    returns, for every [n] and every input, [min(n, length)] of the elements
    in ascending order, none of them after an element it leaves out. *)
Theorem nsmallest_selects (n : Z) (iterable : Iterable T) :
  ∃ result rest,
    _nsmallest comparator n iterable = Normal result ∧
    result ++ rest ≡ₚ iterate iterable ∧
    length result = Nat.min (Z.to_nat n) (length (iterate iterable)) ∧
    Sorted (λ x y, (comparator x y ≤ 0)%Z) result ∧
    (∀ x y, x ∈ result → y ∈ rest → (comparator x y ≤ 0)%Z).
Proof.
  unfold _nsmallest. set (items := iterate iterable).
  destruct (Z.leb_spec n 0) as [Hn | Hn].
  { exists [], items. split; [done|]. split; [done|]. split; [simpl; lia|].
    split; [constructor|]. intros x y Hx. by apply elem_of_nil in Hx. }
  destruct (covers n (len iterable)) eqn:Hcovers.
  { assert (Hlen : (Z.of_nat (length items) ≤ n)%Z).
    { unfold items. destruct iterable; simpl in *; [by apply Z.leb_le | done]. }
    exists (Array_sort comparator items), []. unfold Array_slice0.
    rewrite (proj2 (Z.ltb_ge n 0)) by lia.
    rewrite take_ge by (rewrite Array_sort_length; lia).
    split; [done|]. split; [by rewrite app_nil_r, Array_sort_Permutation|].
    split; [rewrite Array_sort_length; lia|]. split; [by apply Array_sort_Sorted|].
    intros x y _ Hy. by apply elem_of_nil in Hy. }
  destruct (Z.eqb_spec n 1) as [-> | Hn1].
  { destruct items as [|value it].
    - exists [], []. split; [done|]. split; [done|]. split; [done|].
      split; [constructor|]. intros x y Hx. by apply elem_of_nil in Hx.
    - destruct (scan_min_least value it) as (rest & Hperm & _ & Hall).
      exists [scan_min comparator value it], rest. split; [done|]. split; [done|].
      split; [done|]. split; [by repeat constructor|].
      intros x y ->%list_elem_of_singleton Hy. by apply (proj1 (Forall_forall _ _) Hall). }
  pose proof (seed_length n items [] 0) as Hlength.
  pose proof (seed_counter n items [] 0) as Hcounter.
  pose proof (seed_values n items [] 0) as Hvalues.
  pose proof (heap_branch_selects (negated comparator) (negated_Comparator _ Hcmp)
              (negated (heapComparator comparator))
              (negated_Comparator _ (heapComparator_Comparator _ Hcmp))
              ltac:(intros e e'; unfold negated;
                    pose proof (heapComparator_value comparator e e'); lia)
              (λ value top, (comparator value top <? 0)%Z)
              ltac:(intros value top; unfold negated; rewrite Z.ltb_lt; lia)
              (heapComparator comparator) n items (heapComparator_Comparator _ Hcmp))
    as Hbranch.
  lapply Hbranch; [clear Hbranch; intros Hbranch|].
  2: { intros e e' Hle. unfold negated.
    pose proof (heapComparator_value comparator e e').
    pose proof (comparator_flip comparator Hcmp e.1 e'.1).
    pose proof (comparator_flip comparator Hcmp e'.1 e.1). lia. }
  destruct (seed n items [] 0%Z) as [[held0 i] rest0]. simpl in *.
  destruct (Z.eqb_spec i 0) as [-> | Hi].
  { exists [], items. split; [done|]. split; [done|]. split; [simpl; lia|].
    split; [constructor|]. intros x y Hx. by apply elem_of_nil in Hx. }
  destruct (Hbranch Hi) as (top & held & out & -> & Hrun & Hperm & Hlen & Hsorted & Hcross).
  rewrite scan_smallest_held, Hrun.
  exists (Array_sort (heapComparator comparator) held).*1, out.
  split; [done|]. split; [done|]. split; [done|]. split.
  - eapply Sorted_weaken; [|exact Hsorted]. intros a b. unfold negated. simpl.
    pose proof (comparator_flip comparator Hcmp a b).
    pose proof (comparator_flip comparator Hcmp b a). lia.
  - intros x y Hx Hy. specialize (Hcross x y Hx Hy). unfold negated in Hcross.
    pose proof (comparator_flip comparator Hcmp x y).
    pose proof (comparator_flip comparator Hcmp y x). lia.
Qed.

Lemma nlargest_selection (n : Z) (iterable : Iterable T) :
  ∃ result rest,
    _nlargest comparator n iterable = Normal result ∧
    result ++ rest ≡ₚ iterate iterable ∧
    length result = Nat.min (Z.to_nat n) (length (iterate iterable)) ∧
    Sorted (λ x y, (comparator y x ≤ 0)%Z) result ∧
    (∀ x y, x ∈ result → y ∈ rest → (comparator y x ≤ 0)%Z).
Proof.
  unfold _nlargest. set (items := iterate iterable).
  destruct (Z.leb_spec n 0) as [Hn | Hn].
  { exists [], items. split; [done|]. split; [done|]. split; [simpl; lia|].
    split; [constructor|]. intros x y Hx. by apply elem_of_nil in Hx. }
  destruct (covers n (len iterable)) eqn:Hcovers.
  { assert (Hlen : (Z.of_nat (length items) ≤ n)%Z).
    { unfold items. destruct iterable; simpl in *; [by apply Z.leb_le | done]. }
    exists (Array_sort (negated comparator) items), []. unfold Array_slice0.
    rewrite (proj2 (Z.ltb_ge n 0)) by lia.
    rewrite take_ge by (rewrite Array_sort_length; lia).
    split; [done|]. split; [by rewrite app_nil_r, Array_sort_Permutation|].
    split; [rewrite Array_sort_length; lia|]. split.
    - eapply Sorted_weaken;
        [|exact (Array_sort_Sorted (negated comparator) (negated_Comparator _ Hcmp) items)].
      intros a b. unfold negated.
      pose proof (comparator_flip comparator Hcmp a b).
      pose proof (comparator_flip comparator Hcmp b a). lia.
    - intros x y _ Hy. by apply elem_of_nil in Hy. }
  destruct (Z.eqb_spec n 1) as [-> | Hn1].
  { destruct items as [|value it].
    - exists [], []. split; [done|]. split; [done|]. split; [done|].
      split; [constructor|]. intros x y Hx. by apply elem_of_nil in Hx.
    - destruct (scan_max_greatest value it) as (rest & Hperm & _ & Hall).
      exists [scan_max comparator value it], rest. split; [done|]. split; [done|].
      split; [done|]. split; [by repeat constructor|].
      intros x y ->%list_elem_of_singleton Hy. by apply (proj1 (Forall_forall _ _) Hall). }
  pose proof (seed_length n items [] 0) as Hlength.
  pose proof (seed_counter n items [] 0) as Hcounter.
  pose proof (seed_values n items [] 0) as Hvalues.
  pose proof (heap_branch_selects comparator Hcmp
              (heapComparator comparator) (heapComparator_Comparator _ Hcmp)
              ltac:(intros e e'; apply heapComparator_value)
              (λ value top, (0 <? comparator value top)%Z)
              ltac:(intros value top; apply Z.ltb_lt)
              (negated (heapComparator comparator)) n items
              (negated_Comparator _ (heapComparator_Comparator _ Hcmp)))
    as Hbranch.
  lapply Hbranch; [clear Hbranch; intros Hbranch|].
  2: { intros e e' Hle. unfold negated in Hle.
    pose proof (heapComparator_value comparator e e').
    pose proof (comparator_flip comparator Hcmp e.1 e'.1).
    pose proof (comparator_flip comparator Hcmp e'.1 e.1). lia. }
  destruct (seed n items [] 0%Z) as [[held0 i] rest0]. simpl in *.
  destruct (Z.eqb_spec i 0) as [-> | Hi].
  { exists [], items. split; [done|]. split; [done|]. split; [simpl; lia|].
    split; [constructor|]. intros x y Hx. by apply elem_of_nil in Hx. }
  destruct (Hbranch Hi) as (top & held & out & -> & Hrun & Hperm & Hlen & Hsorted & Hcross).
  rewrite scan_largest_held, Hrun.
  by exists (Array_sort (negated (heapComparator comparator)) held).*1, out.
Qed.

(** X10. [_nlargest] (behind [nlargest(n)] of a heap and [heapq.nlargest])
    returns, for every [n] and every input, [min(n, length)] of the elements
    in descending order, none of them before an element it leaves out. *)
Theorem nlargest_selects (n : Z) (iterable : Iterable T) :
  ∃ result rest,
    _nlargest comparator n iterable = Normal result ∧
    result ++ rest ≡ₚ iterate iterable ∧
    length result = Nat.min (Z.to_nat n) (length (iterate iterable)) ∧
    Sorted (λ x y, (comparator y x ≤ 0)%Z) result ∧
    (∀ x y, x ∈ result → y ∈ rest → (comparator y x ≤ 0)%Z).
Proof. exact (nlargest_selection n iterable). Qed.

End SelectionCorrect.

(** ** [nsmallest] is the front of the sorted sequence *)

Section SortedPrefix.
Context {A : Type} (R : A → A → Prop) (Hasym : ∀ x y, R x y → R y x → False).


End SortedPrefix.

Section ExactSelection.
Context {T : Type} (comparator : T → T → Z) (Hcmp : Comparator comparator).




Lemma comparator_le_lt_trans (a b c : T) :
  (comparator a b ≤ 0)%Z → (comparator b c < 0)%Z → (comparator a c < 0)%Z.
Proof.
  intros Hab Hbc.
  pose proof (comparator_flip comparator Hcmp a c) as Hac.
  pose proof (comparator_flip comparator Hcmp c a) as Hca.
  pose proof (comparator_flip comparator Hcmp b c) as Hcb.
  pose proof (comparator_flip comparator Hcmp c b) as Hcb'.
  destruct (Z.ltb_spec (comparator a c) 0) as [|Hge]; [done|].
  assert (Hc : (comparator c a ≤ 0)%Z) by lia.
  pose proof (comparator_trans _ Hcmp c a b Hc Hab). lia.
Qed.

(** *** The scan for one element *)



(** *** The bounded heap *)










End ExactSelection.

(** ** Laws of [Map] *)

Section JsMapLaws.
Context {K V : Type} `{EqDecision K}.
Implicit Types map : list (K * V).

Lemma Map_get_set map (key key' : K) (value : V) :
  Map_get (Map_set map key value) key' =
  if decide (key' = key) then Some value else Map_get map key'.
Proof.
  induction map as [|[k v] rest IH]; simpl.
  - by destruct (decide (key' = key)).
  - destruct (decide (key = k)) as [-> | Hne]; simpl.
    + by destruct (decide (key' = k)).
    + destruct (decide (key' = k)) as [-> | Hne']; [by rewrite decide_False|done].
Qed.

Lemma Map_get_None map (key : K) : Map_get map key = None ↔ key ∉ map.*1.
Proof.
  induction map as [|[k v] rest IH]; simpl.
  - split; [intros _; apply not_elem_of_nil | done].
  - rewrite not_elem_of_cons. destruct (decide (key = k)) as [Heq | Hne].
    + split; [done | by intros [? _]].
    + rewrite IH. split; [done | by intros [_ ?]].
Qed.

Lemma Map_set_absent map (key : K) (value : V) :
  Map_get map key = None → Map_set map key value = map ++ [(key, value)].
Proof.
  induction map as [|[k v] rest IH]; simpl; [done|].
  destruct (decide (key = k)); [done|]. intros Hrest. by rewrite IH.
Qed.

Lemma Map_set_present map (key : K) (old value : V) :
  Map_get map key = Some old → (Map_set map key value).*1 = map.*1.
Proof.
  induction map as [|[k v] rest IH]; simpl; [done|].
  destruct (decide (key = k)); [done|]. intros Hrest.
  rewrite !fmap_cons. f_equal. by apply IH.
Qed.

Lemma Map_set_NoDup map (key : K) (value : V) :
  NoDup map.*1 → NoDup (Map_set map key value).*1.
Proof.
  intros Hdup. destruct (Map_get map key) as [old|] eqn:Hget.
  - by rewrite (Map_set_present _ _ old).
  - rewrite Map_set_absent by done. rewrite fmap_app. simpl.
    apply NoDup_app. split; [done|]. split; [|apply NoDup_singleton].
    intros k Hk ->%list_elem_of_singleton. by apply Map_get_None in Hget.
Qed.






End JsMapLaws.

Section JsMapEntries.
Context {K V : Type} `{EqDecision K}.
Implicit Types map : list (K * V).

Lemma Map_get_Some_elem_of map (key : K) (value : V) :
  Map_get map key = Some value → (key, value) ∈ map.
Proof.
  induction map as [|[k v] rest IH]; simpl; [done|].
  destruct (decide (key = k)) as [-> | Hne].
  - intros [= ->]. apply elem_of_cons. by left.
  - intros Hrest. apply elem_of_cons. right. by apply IH.
Qed.

Lemma Map_get_elem_of map (key : K) (value : V) :
  NoDup map.*1 → (key, value) ∈ map → Map_get map key = Some value.
Proof.
  induction map as [|[k v] rest IH]; intros Hdup Hin; [by apply elem_of_nil in Hin|].
  rewrite fmap_cons in Hdup. apply NoDup_cons in Hdup as [Hk Hrest]. simpl in Hk.
  simpl. apply elem_of_cons in Hin as [[= -> ->] | Hin].
  - by rewrite decide_True.
  - rewrite decide_False; [by apply IH|].
    intros ->. apply Hk. apply list_elem_of_fmap. by exists (k, value).
Qed.

Lemma Map_set_keys map (key key' : K) (value : V) :
  key' ∈ (Map_set map key value).*1 ↔ key' = key ∨ key' ∈ map.*1.
Proof.
  destruct (Map_get map key) as [old|] eqn:Hget.
  - rewrite (Map_set_present _ _ old) by done. split; [by right|].
    intros [-> | Hin]; [|done]. apply Map_get_Some_elem_of in Hget.
    apply list_elem_of_fmap. by exists (key, old).
  - rewrite Map_set_absent, fmap_app, elem_of_app by done. simpl.
    rewrite list_elem_of_singleton. tauto.
Qed.

Lemma NoDup_keys_entries map : NoDup map.*1 → NoDup map.
Proof. apply NoDup_fmap_1. Qed.

(** Two maps that answer every lookup alike hold the same entries. *)
Lemma Map_get_ext_Permutation map map' :
  NoDup map.*1 → NoDup map'.*1 →
  (∀ key, Map_get map key = Map_get map' key) → map ≡ₚ map'.
Proof.
  intros Hdup Hdup' Hext. apply NoDup_Permutation; [by apply NoDup_keys_entries..|].
  intros [k v]. split; intros Hin.
  - apply Map_get_Some_elem_of. rewrite <- Hext. by apply Map_get_elem_of.
  - apply Map_get_Some_elem_of. rewrite Hext. by apply Map_get_elem_of.
Qed.

Lemma Map_get_Permutation map map' (key : K) :
  NoDup map.*1 → map ≡ₚ map' → Map_get map key = Map_get map' key.
Proof.
  intros Hdup Hperm.
  assert (Hdup' : NoDup map'.*1) by (by rewrite <- Hperm).
  destruct (Map_get map key) as [value|] eqn:Hget.
  - symmetry. apply Map_get_elem_of; [done|]. rewrite <- Hperm.
    by apply Map_get_Some_elem_of.
  - symmetry. apply Map_get_None. rewrite <- Hperm. by apply Map_get_None.
Qed.

End JsMapEntries.

(** ** Laws of [Counter] *)

Section CounterLaws.
Context {K : Type} `{EqDecision K}.
Implicit Types this : Counter.t K.
Implicit Types map : list (K * Z).

Lemma or_else_zero (x : option Z) : Counter.or_else x 0 = default 0%Z x.
Proof.
  destruct x as [count|]; simpl; [|done]. by destruct (Z.eqb_spec count 0).
Qed.

Lemma sum_counts_set map (key : K) (value : Z) :
  Counter.sum_counts (Map_set map key value) =
  (Counter.sum_counts map - default 0 (Map_get map key) + value)%Z.
Proof.
  induction map as [|[k v] rest IH]; simpl; [lia|].
  destruct (decide (key = k)); simpl; lia.
Qed.


(** The loops of [_countElements] and [subtract] repeat [add]. *)
Lemma countElements_adds (items : list K) this :
  Counter._countElements items this = foldl (λ this item, Counter.add item 1 this) this items.
Proof. reflexivity. Qed.



Lemma add_consistent (key : K) (increment : Z) this :
  NoDup (Counter._data this).*1 ∧
    Counter._total this = Counter.sum_counts (Counter._data this) →
  NoDup (Counter._data (Counter.add key increment this)).*1 ∧
    Counter._total (Counter.add key increment this) =
    Counter.sum_counts (Counter._data (Counter.add key increment this)).
Proof.
  intros [Hdup Htotal]. unfold Counter.add. simpl. split; [by apply Map_set_NoDup|].
  rewrite sum_counts_set, or_else_zero. lia.
Qed.

Lemma foldl_consistent {A : Type} (f : Counter.t K → A → Counter.t K) (l : list A) this :
  (∀ this a,
     NoDup (Counter._data this).*1 ∧
       Counter._total this = Counter.sum_counts (Counter._data this) →
     NoDup (Counter._data (f this a)).*1 ∧
       Counter._total (f this a) = Counter.sum_counts (Counter._data (f this a))) →
  NoDup (Counter._data this).*1 ∧
    Counter._total this = Counter.sum_counts (Counter._data this) →
  NoDup (Counter._data (foldl f this l)).*1 ∧
    Counter._total (foldl f this l) = Counter.sum_counts (Counter._data (foldl f this l)).
Proof.
  intros Hstep. revert this. induction l as [|a l IH]; intros this Hthis; [done|].
  simpl. by apply IH, Hstep.
Qed.

Lemma update_consistent (other : Counter.source K) this :
  NoDup (Counter._data this).*1 ∧
    Counter._total this = Counter.sum_counts (Counter._data this) →
  NoDup (Counter._data (Counter.update other this)).*1 ∧
    Counter._total (Counter.update other this) =
    Counter.sum_counts (Counter._data (Counter.update other this)).
Proof.
  destruct other as [map | items]; simpl.
  - apply foldl_consistent. intros c entry. apply add_consistent.
  - rewrite countElements_adds. apply foldl_consistent. intros c item. apply add_consistent.
Qed.

Lemma empty_consistent :
  NoDup (Counter._data (@Counter.empty K)).*1 ∧
    Counter._total (@Counter.empty K) = Counter.sum_counts (Counter._data (@Counter.empty K)).
Proof. split; [apply NoDup_nil_2 | done]. Qed.




Lemma get_add (key key' : K) (increment : Z) this :
  Counter.get key' 0 (Counter.add key increment this) =
  (Counter.get key' 0 this + if decide (key' = key) then increment else 0)%Z.
Proof.
  unfold Counter.get, Counter.add. simpl. rewrite Map_get_set.
  destruct (decide (key' = key)) as [-> | Hne]; [|lia].
  by rewrite !or_else_zero.
Qed.

Lemma occurrences_cons (key item : K) (items : list K) :
  Counter.occurrences key (item :: items) =
  ((if decide (key = item) then 1 else 0) + Counter.occurrences key items)%Z.
Proof.
  unfold Counter.occurrences. rewrite filter_cons.
  destruct (decide (item = key)) as [-> | Hne].
  - rewrite decide_True by done. simpl length. lia.
  - rewrite decide_False by done. lia.
Qed.

Lemma get_foldl_add (sign : Z) (key : K) (items : list K) this :
  Counter.get key 0 (foldl (λ this item, Counter.add item sign this) this items) =
  (Counter.get key 0 this + sign * Counter.occurrences key items)%Z.
Proof.
  revert this. induction items as [|item items IH]; intros this; simpl.
  - unfold Counter.occurrences. simpl. lia.
  - rewrite IH, get_add, occurrences_cons. destruct (decide (key = item)); lia.
Qed.


Lemma has_add (key key' : K) (increment : Z) this :
  Counter.has key' this = true → Counter.has key' (Counter.add key increment this) = true.
Proof.
  unfold Counter.has, Map_has, Counter.add. simpl. rewrite Map_get_set.
  by destruct (decide (key' = key)).
Qed.

Lemma has_foldl {A : Type} (f : Counter.t K → A → Counter.t K) (l : list A) (key : K) this :
  (∀ this a, Counter.has key this = true → Counter.has key (f this a) = true) →
  Counter.has key this = true → Counter.has key (foldl f this l) = true.
Proof.
  intros Hstep. revert this. induction l as [|a l IH]; intros this Hthis; [done|].
  simpl. by apply IH, Hstep.
Qed.

Lemma get_new_items (key : K) (items : list K) :
  Counter.get key 0 (Counter.new (Some (Counter.OfItems items))) =
  Counter.occurrences key items.
Proof.
  simpl. rewrite countElements_adds, get_foldl_add. unfold Counter.get. simpl. lia.
Qed.









Lemma toArray_set (map : list (K * Z)) (key : K) :
  Forall (λ entry, (0 ≤ entry.2)%Z) map →
  flat_map (λ entry, replicate (Z.to_nat entry.2) entry.1)
           (Map_set map key (default 0 (Map_get map key) + 1)%Z)
  ≡ₚ key :: flat_map (λ entry, replicate (Z.to_nat entry.2) entry.1) map.
Proof.
  induction map as [|[k v] rest IH]; intros Hpos; simpl; [done|].
  apply Forall_cons in Hpos as [Hv Hrest]. simpl in Hv.
  destruct (decide (key = k)) as [-> | Hne]; simpl.
  - replace (Z.to_nat (v + 1)) with (S (Z.to_nat v)) by lia. done.
  - rewrite IH by done. symmetry. apply Permutation_middle.
Qed.

Lemma Map_set_nonneg (map : list (K * Z)) (key : K) (value : Z) :
  (0 ≤ value)%Z →
  Forall (λ entry, (0 ≤ entry.2)%Z) map →
  Forall (λ entry, (0 ≤ entry.2)%Z) (Map_set map key value).
Proof.
  intros Hvalue. induction map as [|[k v] rest IH]; intros Hpos; simpl.
  - by repeat constructor.
  - apply Forall_cons in Hpos as [Hv Hrest].
    destruct (decide (key = k)); constructor; auto.
Qed.

Lemma Map_get_nonneg (map : list (K * Z)) (key : K) :
  Forall (λ entry, (0 ≤ entry.2)%Z) map → (0 ≤ default 0 (Map_get map key))%Z.
Proof.
  induction map as [|[k v] rest IH]; intros Hpos; simpl; [done|].
  apply Forall_cons in Hpos as [Hv Hrest]. destruct (decide (key = k)); auto.
Qed.

(** X17. Counting keys and listing them again is a round trip: after
    [update(iterable)] on a counter without negative counts, [toArray()]
    (and [elements()]) holds what it held before together with the keys of
    the iterable, each as often as it occurs. *)
Theorem toArray_after_update (items : list K) this :
  Forall (λ entry, (0 ≤ entry.2)%Z) (Counter._data this) →
  Counter.toArray (Counter.update (Counter.OfItems items) this)
  ≡ₚ Counter.toArray this ++ items.
Proof.
  simpl. rewrite countElements_adds. revert this.
  induction items as [|item items IH]; intros this Hpos; simpl.
  - by rewrite app_nil_r.
  - rewrite IH.
    + unfold Counter.toArray, Counter.add. simpl. rewrite or_else_zero, toArray_set by done.
      rewrite <- app_comm_cons. apply Permutation_middle.
    + unfold Counter.add. simpl. apply Map_set_nonneg; [|done].
      rewrite or_else_zero. pose proof (Map_get_nonneg _ item Hpos). lia.
Qed.


Lemma byCountDescending_Comparator : Comparator (@Counter.byCountDescending K).
Proof.
  split; unfold Counter.byCountDescending.
  - intros a b. lia.
  - intros a b c. lia.
Qed.

(** X19. [mostCommon(n)] returns [min(n, size)] entries of the counter (all
    of them without [n]), highest count first, and no entry it leaves out
    has a higher count than one it returns. *)
Theorem mostCommon_selects (n : option Z) this :
  ∃ result rest,
    Counter.mostCommon n this = Normal result ∧
    result ++ rest ≡ₚ Counter._data this ∧
    length result = match n with
                    | Some n => Nat.min (Z.to_nat n) (Counter.size this)
                    | None => Counter.size this
                    end ∧
    Sorted (λ x y, (y.2 ≤ x.2)%Z) result ∧
    (∀ x y, x ∈ result → y ∈ rest → (y.2 ≤ x.2)%Z).
Proof.
  assert (Hsort : ∃ result rest,
    Normal (Array_sort Counter.byCountDescending (Counter._data this)) = Normal result ∧
    result ++ rest ≡ₚ Counter._data this ∧
    length result = Counter.size this ∧
    Sorted (λ x y, (y.2 ≤ x.2)%Z) result ∧
    (∀ x y, x ∈ result → y ∈ rest → (y.2 ≤ x.2)%Z)).
  { exists (Array_sort Counter.byCountDescending (Counter._data this)), [].
    split; [done|]. split; [by rewrite app_nil_r, Array_sort_Permutation|].
    split; [apply Array_sort_length|]. split.
    - eapply Sorted_weaken;
        [|exact (Array_sort_Sorted _ byCountDescending_Comparator (Counter._data this))].
      intros a b. unfold Counter.byCountDescending. lia.
    - intros x y _ Hy. by apply elem_of_nil in Hy. }
  destruct n as [n|]; [|exact Hsort]. unfold Counter.mostCommon.
  destruct (Z.leb_spec n 0) as [Hn | Hn].
  { exists [], (Counter._data this). split; [done|]. split; [done|].
    split; [simpl; lia|]. split; [constructor|].
    intros x y Hx. by apply elem_of_nil in Hx. }
  destruct (Z.ltb_spec (Z.of_nat (Counter.size this)) n) as [Hsize | Hsize].
  { destruct Hsort as (result & rest & Hrun & Hperm & Hlen & Hsorted & Hcross).
    exists result, rest. split; [done|]. split; [done|]. split; [lia|]. done. }
  destruct (nlargest_selection (keyComparator snd) (keyComparator_Comparator snd)
              n (Generic (Counter._data this)))
    as (result & rest & Hrun & Hperm & Hlen & Hsorted & Hcross).
  exists result, rest. split; [exact Hrun|]. split; [exact Hperm|]. split; [exact Hlen|].
  split.
  - eapply Sorted_weaken; [|exact Hsorted]. intros a b. unfold keyComparator. lia.
  - intros x y Hx Hy. specialize (Hcross x y Hx Hy). unfold keyComparator in Hcross. lia.
Qed.

Lemma get_stored (key : K) (count : Z) this :
  NoDup (Counter._data this).*1 → (key, count) ∈ Counter._data this →
  Counter.get key 0 this = count.
Proof.
  intros Hdup Hin. unfold Counter.get. rewrite (Map_get_elem_of _ key count) by done.
  by rewrite or_else_zero.
Qed.

Lemma equals_entries_self this :
  NoDup (Counter._data this).*1 →
  forallb (λ entry, (Counter.get entry.1 0 this =? entry.2)%Z) (Counter._data this) = true.
Proof.
  intros Hdup. apply forallb_forall. intros [k v] Hin%list_elem_of_In.
  apply Z.eqb_eq. by apply get_stored.
Qed.

Lemma keys_countElements (key : K) (items : list K) this :
  key ∈ (Counter._data (Counter._countElements items this)).*1 ↔
  key ∈ (Counter._data this).*1 ∨ key ∈ items.
Proof.
  rewrite countElements_adds. revert this.
  induction items as [|item items IH]; intros this; simpl.
  - rewrite elem_of_nil. tauto.
  - rewrite IH. unfold Counter.add. simpl. rewrite Map_set_keys, elem_of_cons. tauto.
Qed.

Lemma occurrences_Permutation (key : K) (items items' : list K) :
  items ≡ₚ items' → Counter.occurrences key items = Counter.occurrences key items'.
Proof. intros Hperm. unfold Counter.occurrences. by rewrite Hperm. Qed.

Lemma new_consistent (items : list K) :
  NoDup (Counter._data (Counter.new (Some (Counter.OfItems items)))).*1.
Proof. apply (update_consistent (Counter.OfItems items)), empty_consistent. Qed.

(** X20. [equals] accepts what a counter was made of: a counter equals
    itself, its clone and the map of its own entries, and a counter built
    from an iterable of keys equals every iterable with the same keys as
    often, in whatever order. *)
Theorem equals_accepts_same (items items' : list K) this :
  NoDup (Counter._data this).*1 →
  items ≡ₚ items' →
  Counter.equals (Counter.EqualsCounter this) this = true ∧
  Counter.equals (Counter.EqualsCounter (Counter.clone this)) this = true ∧
  Counter.equals (Counter.EqualsMap (Counter._data this)) this = true ∧
  Counter.equals (Counter.EqualsItems items')
                 (Counter.new (Some (Counter.OfItems items))) = true.
Proof.
  intros Hdup Hperm. unfold Counter.equals, Counter.clone, Counter.size.
  cbn [Counter._data]. rewrite !Nat.eqb_refl. cbn [negb].
  rewrite equals_entries_self by done. split; [done|]. split; [done|]. split; [done|].
  cbv zeta.
  set (built := Counter.new (Some (Counter.OfItems items))).
  set (otherCounter := Counter.new (Some (Counter.OfItems items'))).
  assert (Hkeys : (Counter._data built).*1 ≡ₚ (Counter._data otherCounter).*1).
  { apply NoDup_Permutation; [apply new_consistent..|]. intros key.
    unfold built, otherCounter, Counter.new, Counter.update.
    rewrite !keys_countElements. by rewrite Hperm. }
  apply Permutation_length in Hkeys. rewrite !length_fmap in Hkeys.
  rewrite Hkeys, Nat.eqb_refl. cbn [negb].
  apply forallb_forall. intros [k v] Hin%list_elem_of_In. apply Z.eqb_eq. cbn [fst snd].
  unfold otherCounter.
  rewrite get_new_items, <- (occurrences_Permutation k items items'), <- get_new_items
    by done.
  apply get_stored; [apply new_consistent | done].
Qed.

Lemma get_nonzero (key : K) (count : Z) this :
  count ≠ 0%Z → Counter.get key 0 this = count →
  Map_get (Counter._data this) key = Some count.
Proof.
  unfold Counter.get. intros Hcount.
  destruct (Map_get (Counter._data this) key) as [c|]; simpl; [|congruence].
  destruct (Z.eqb_spec c 0); congruence.
Qed.

Lemma equals_entries (entries : list (K * Z)) this :
  NoDup (Counter._data this).*1 →
  NoDup entries.*1 →
  Forall (λ entry, entry.2 ≠ 0%Z) entries →
  (if negb (Counter.size this =? length entries) then false
   else forallb (λ entry, (Counter.get entry.1 0 this =? entry.2)%Z) entries) = true ↔
  Counter._data this ≡ₚ entries.
Proof.
  intros Hdup Hdup' Hnonzero. split.
  - destruct (Nat.eqb_spec (Counter.size this) (length entries)) as [Hsize | Hsize];
      [|done]. cbn [negb]. intros Hall.
    symmetry. apply submseteq_length_Permutation; [|unfold Counter.size in Hsize; lia].
    apply NoDup_submseteq; [by apply NoDup_keys_entries|].
    intros [k v] Hin. apply Map_get_Some_elem_of.
    apply get_nonzero.
    + by apply (proj1 (Forall_forall _ _) Hnonzero (k, v)).
    + apply Z.eqb_eq.
      by apply (proj1 (forallb_forall _ _) Hall (k, v)), list_elem_of_In.
  - intros Hperm. unfold Counter.size. rewrite Hperm, Nat.eqb_refl. cbn [negb].
    apply forallb_forall. intros [k v] Hin%list_elem_of_In. apply Z.eqb_eq.
    apply get_stored; [done|]. by rewrite Hperm.
Qed.

(** X21. Against a map or a counter that stores no zero count, [equals]
    answers whether both hold the same entries, in whatever order. *)
Theorem equals_same_entries (other : Counter.t K) this :
  NoDup (Counter._data this).*1 →
  NoDup (Counter._data other).*1 →
  Forall (λ entry, entry.2 ≠ 0%Z) (Counter._data other) →
  (Counter.equals (Counter.EqualsCounter other) this = true ↔
   Counter._data this ≡ₚ Counter._data other) ∧
  (Counter.equals (Counter.EqualsMap (Counter._data other)) this = true ↔
   Counter._data this ≡ₚ Counter._data other).
Proof. intros Hdup Hdup' Hnonzero. split; by apply equals_entries. Qed.

End CounterLaws.

(** ** Laws of [DefaultDict] *)

Section DefaultDictLaws.
Context {K V : Type} `{EqDecision K} (factory : V).
Implicit Types _data : list (K * V).

(** X22. [get(key)] of a [DefaultDict] always returns a value: the stored
    one, or the default, which it then stores behind the entries already
    there.  No other key is touched, and what was [set] is what [get]
    returns. *)
Theorem defaultdict_get (key : K) (value : V) _data :
  (DefaultDict.get factory key _data).1 = Some (default factory (Map_get _data key)) ∧
  (DefaultDict.get factory key _data).2 =
    (if DefaultDict.has key _data then _data else _data ++ [(key, factory)]) ∧
  (∀ key', Map_get (DefaultDict.get factory key _data).2 key' =
           if decide (key' = key) then (DefaultDict.get factory key _data).1
           else Map_get _data key') ∧
  DefaultDict.get factory key (DefaultDict.get factory key _data).2 =
    DefaultDict.get factory key _data ∧
  DefaultDict.get factory key (DefaultDict.set key value _data) =
    (Some value, DefaultDict.set key value _data).
Proof.
  unfold DefaultDict.get, DefaultDict.has, DefaultDict.set, Map_has.
  split; [|split; [|split; [|split]]].
  - destruct (Map_get _data key) as [v|] eqn:Hget; simpl; [done|].
    by rewrite Map_get_set, decide_True.
  - destruct (Map_get _data key) as [v|] eqn:Hget; simpl; [done|].
    by apply Map_set_absent.
  - intros key'. destruct (Map_get _data key) as [v|] eqn:Hget; simpl.
    + destruct (decide (key' = key)) as [-> | Hne]; [by rewrite Hget | done].
    + rewrite !Map_get_set. destruct (decide (key' = key)); [by rewrite decide_True | done].
  - destruct (Map_get _data key) as [v|] eqn:Hget; simpl.
    + rewrite Hget. simpl. by rewrite Hget.
    + rewrite Map_get_set, decide_True by done. simpl.
      by rewrite Map_get_set, decide_True.
  - rewrite Map_get_set, decide_True by done. simpl.
    by rewrite Map_get_set, decide_True.
Qed.


End DefaultDictLaws.

(** ** The laws on concrete heaps, counters and dictionaries *)

Section LawExamples.
Open Scope Z_scope.

Lemma heapify_rearranges_witness :
  Comparator defaultComparator ∧
  _heapify defaultComparator [5; 3; 8; 1] ≡ₚ [5; 3; 8; 1] ∧
  length (_heapify defaultComparator [5; 3; 8; 1]) = length [5; 3; 8; 1] ∧
  heap_invariant defaultComparator (_heapify defaultComparator [5; 3; 8; 1]) ∧
  heapq_heapify [5; 3; 8; 1] defaultComparator = _heapify defaultComparator [5; 3; 8; 1] ∧
  Heap_heapify defaultComparator None [5; 3; 8; 1] = _heapify defaultComparator [5; 3; 8; 1].
Proof.
  split; [exact defaultComparator_Comparator|].
  exact (heapify_rearranges defaultComparator defaultComparator_Comparator [5; 3; 8; 1]).
Defined.

Lemma heapify_settled_witness :
  heap_invariant defaultComparator [3; 5; 8] ∧
  _heapify defaultComparator (_heapify defaultComparator [5; 3; 8; 1]) =
    _heapify defaultComparator [5; 3; 8; 1] ∧
  _heapify defaultComparator [3; 5; 8] = [3; 5; 8] ∧
  Heap_heapify defaultComparator None [3; 5; 8] = [3; 5; 8] ∧
  Heap_clone defaultComparator [3; 5; 8] = [3; 5; 8].
Proof.
  split; [exact heap_358|].
  destruct (heapify_settled defaultComparator defaultComparator_Comparator
              [5; 3; 8; 1] [3; 5; 8]) as [Htwice Hheap].
  split; [exact Htwice | exact (Hheap heap_358)].
Defined.

Lemma peek_least_witness :
  heap_invariant defaultComparator [3; 5; 8] ∧
  (∀ root, Heap_peek 0 [3; 5; 8] = Some root →
           Forall (λ x, defaultComparator root x ≤ 0) [3; 5; 8]) ∧
  Heap_peek 1 [3; 5; 8] = [3; 5; 8] !! Z.to_nat 1 ∧
  is_Some (Heap_peek 1 [3; 5; 8]).
Proof.
  split; [exact heap_358|].
  destruct (peek_least defaultComparator defaultComparator_Comparator [3; 5; 8] 1 heap_358)
    as [Hroot Hindex].
  split; [exact Hroot|]. apply Hindex. simpl. lia.
Defined.

Lemma pop_returns_least_witness :
  heap_invariant defaultComparator [3; 5; 8] ∧
  ∃ root, (Heap_pop defaultComparator [3; 5; 8]).1 = Some root ∧
    [3; 5; 8] !! 0%nat = Some root ∧
    Forall (λ x, defaultComparator root x ≤ 0) [3; 5; 8] ∧
    root :: (Heap_pop defaultComparator [3; 5; 8]).2 ≡ₚ [3; 5; 8] ∧
    length (Heap_pop defaultComparator [3; 5; 8]).2 = (length [3; 5; 8] - 1)%nat ∧
    heap_invariant defaultComparator (Heap_pop defaultComparator [3; 5; 8]).2.
Proof.
  split; [exact heap_358|].
  apply (pop_returns_least defaultComparator defaultComparator_Comparator [3; 5; 8] heap_358).
  discriminate.
Defined.

Lemma push_adds_item_witness :
  heap_invariant defaultComparator [3; 5; 8] ∧
  Heap_push defaultComparator 1 [3; 5; 8] ≡ₚ 1 :: [3; 5; 8] ∧
  heap_invariant defaultComparator (Heap_push defaultComparator 1 [3; 5; 8]) ∧
  Heap_push defaultComparator 1 [3; 5; 8] !! 0%nat = Some 1.
Proof.
  split; [exact heap_358|].
  destruct (push_adds_item defaultComparator defaultComparator_Comparator 1 [3; 5; 8])
    as (Hperm & _ & _ & Hheap).
  split; [exact Hperm|]. exact (Hheap heap_358).
Defined.

Lemma pushPop_is_push_then_pop_witness :
  heap_invariant defaultComparator [3; 5; 8] ∧
  (Heap_pushPop defaultComparator 4 [3; 5; 8]).1 =
    (Heap_pop defaultComparator (Heap_push defaultComparator 4 [3; 5; 8])).1 ∧
  (Heap_pushPop defaultComparator 4 [3; 5; 8]).2 ≡ₚ
    (Heap_pop defaultComparator (Heap_push defaultComparator 4 [3; 5; 8])).2.
Proof.
  split; [exact heap_358|].
  exact (pushPop_is_push_then_pop defaultComparator defaultComparator_Comparator
           4 [3; 5; 8] heap_358).
Defined.

Lemma nsmallest_selects_witness :
  Comparator defaultComparator ∧
  ∃ result rest,
    _nsmallest defaultComparator 2 (Generic [5; 3; 8; 1]) = Normal result ∧
    result ++ rest ≡ₚ [5; 3; 8; 1] ∧
    length result = Nat.min (Z.to_nat 2) (length [5; 3; 8; 1]) ∧
    Sorted (λ x y, defaultComparator x y ≤ 0) result ∧
    (∀ x y, x ∈ result → y ∈ rest → defaultComparator x y ≤ 0).
Proof.
  split; [exact defaultComparator_Comparator|].
  exact (nsmallest_selects defaultComparator defaultComparator_Comparator
           2 (Generic [5; 3; 8; 1])).
Defined.

Lemma nlargest_selects_witness :
  Comparator defaultComparator ∧
  ∃ result rest,
    _nlargest defaultComparator 2 (Generic [5; 3; 8; 1]) = Normal result ∧
    result ++ rest ≡ₚ [5; 3; 8; 1] ∧
    length result = Nat.min (Z.to_nat 2) (length [5; 3; 8; 1]) ∧
    Sorted (λ x y, defaultComparator y x ≤ 0) result ∧
    (∀ x y, x ∈ result → y ∈ rest → defaultComparator y x ≤ 0).
Proof.
  split; [exact defaultComparator_Comparator|].
  exact (nlargest_selects defaultComparator defaultComparator_Comparator
           2 (Generic [5; 3; 8; 1])).
Defined.




Lemma toArray_after_update_witness :
  Forall (λ entry : Z * Z, 0 ≤ entry.2) [(1, 2); (2, 1)] ∧
  Counter.toArray (Counter.update (Counter.OfItems [2; 3])
                     {| Counter._data := [(1, 2); (2, 1)]; Counter._total := 3 |})
  ≡ₚ Counter.toArray {| Counter._data := [(1, 2); (2, 1)]; Counter._total := 3 |} ++ [2; 3].
Proof.
  assert (Hpos : Forall (λ entry : Z * Z, 0 ≤ entry.2) [(1, 2); (2, 1)])
    by (apply (bool_decide_unpack _); vm_compute; exact I).
  split; [exact Hpos|].
  exact (toArray_after_update [2; 3]
           {| Counter._data := [(1, 2); (2, 1)]; Counter._total := 3 |} Hpos).
Defined.


Lemma equals_accepts_same_witness :
  NoDup [(1, 2); (2, 1)].*1 ∧ [1; 2; 1] ≡ₚ [2; 1; 1] ∧
  Counter.equals
    (Counter.EqualsCounter {| Counter._data := [(1, 2); (2, 1)]; Counter._total := 3 |})
    {| Counter._data := [(1, 2); (2, 1)]; Counter._total := 3 |} = true ∧
  Counter.equals (Counter.EqualsItems [2; 1; 1])
    (Counter.new (Some (Counter.OfItems [1; 2; 1]))) = true.
Proof.
  assert (Hdup : NoDup [(1, 2); (2, 1)].*1) by (apply (bool_decide_unpack _); vm_compute; exact I).
  assert (Hperm : [1; 2; 1] ≡ₚ [2; 1; 1]) by apply perm_swap.
  split; [exact Hdup|]. split; [exact Hperm|].
  destruct (equals_accepts_same [1; 2; 1] [2; 1; 1]
              {| Counter._data := [(1, 2); (2, 1)]; Counter._total := 3 |} Hdup Hperm)
    as (Hself & _ & _ & Hitems).
  split; [exact Hself | exact Hitems].
Defined.

Lemma equals_same_entries_witness :
  NoDup [(2, 1); (1, 2)].*1 ∧ NoDup [(1, 2); (2, 1)].*1 ∧
  Forall (λ entry : Z * Z, entry.2 ≠ 0) [(1, 2); (2, 1)] ∧
  (Counter.equals
     (Counter.EqualsCounter {| Counter._data := [(1, 2); (2, 1)]; Counter._total := 3 |})
     {| Counter._data := [(2, 1); (1, 2)]; Counter._total := 3 |} = true ↔
   [(2, 1); (1, 2)] ≡ₚ [(1, 2); (2, 1)]).
Proof.
  assert (Hdup : NoDup [(2, 1); (1, 2)].*1) by (apply (bool_decide_unpack _); vm_compute; exact I).
  assert (Hdup' : NoDup [(1, 2); (2, 1)].*1) by (apply (bool_decide_unpack _); vm_compute; exact I).
  assert (Hnonzero : Forall (λ entry : Z * Z, entry.2 ≠ 0) [(1, 2); (2, 1)])
    by (apply (bool_decide_unpack _); vm_compute; exact I).
  split; [exact Hdup|]. split; [exact Hdup'|]. split; [exact Hnonzero|].
  exact (proj1 (equals_same_entries
                  {| Counter._data := [(1, 2); (2, 1)]; Counter._total := 3 |}
                  {| Counter._data := [(2, 1); (1, 2)]; Counter._total := 3 |}
                  Hdup Hdup' Hnonzero)).
Defined.


End LawExamples.
